(** * sego: dictionary-based text segmentation

    A shallow embedding of [segmenter.go] and [utils.go] of the sego
    segmenter, and the properties of its atom tokenizer, its Viterbi
    lattice, its dictionary loader and its output expansion. *)

From Stdlib Require Import ZArith NArith Ascii String List Lia Bool.
From stdpp Require Import base tactics option list strings.

Open Scope Z_scope.

(** ** Bytes and text

    Go's [[]byte] is a list of bytes; [Text] is sego's name for one atom
    (or for a raw input before it is split). *)

Abbreviation byte := ascii.
Abbreviation Text := (list ascii).

Definition bytes (s : string) : Text := list_ascii_of_string s.
Definition byteVal (b : byte) : Z := Z.of_N (N_of_ascii b).

(** ** unicode/utf8: [DecodeRune]

    The decoder of Go's standard library, with its [first] and
    [acceptRanges] tables written as comparisons.  An empty input gives
    [(RuneError, 0)], an invalid or truncated encoding [(RuneError, 1)]. *)

Definition RuneError : Z := 0xFFFD.
Definition MaxLatin1 : Z := 0xFF.

Definition locb : Z := 0x80.
Definition hicb : Z := 0xBF.

(** size of the encoding announced by a lead byte and the accepted range
    of its second byte; [None] for bytes that cannot start a sequence *)
Definition leadInfo (p0 : Z) : option (nat * Z * Z) :=
  if p0 <? 0xC2 then None
  else if p0 <=? 0xDF then Some (2%nat, locb, hicb)
  else if p0 =? 0xE0 then Some (3%nat, 0xA0, hicb)
  else if p0 <=? 0xEC then Some (3%nat, locb, hicb)
  else if p0 =? 0xED then Some (3%nat, locb, 0x9F)
  else if p0 <=? 0xEF then Some (3%nat, locb, hicb)
  else if p0 =? 0xF0 then Some (4%nat, 0x90, hicb)
  else if p0 <=? 0xF3 then Some (4%nat, locb, hicb)
  else if p0 =? 0xF4 then Some (4%nat, locb, 0x8F)
  else None.

Definition inRange (lo hi b : Z) : bool := (lo <=? b) && (b <=? hi).

Definition DecodeRune (p : Text) : Z * nat :=
  match p with
  | [] => (RuneError, 0%nat)
  | c0 :: rest =>
    let p0 := byteVal c0 in
    if p0 <? 0x80 then (p0, 1%nat)
    else match leadInfo p0 with
    | None => (RuneError, 1%nat)
    | Some (sz, lo, hi) =>
      if (length p <? sz)%nat then (RuneError, 1%nat)
      else match rest with
      | [] => (RuneError, 1%nat)
      | c1 :: rest1 =>
        let b1 := byteVal c1 in
        if negb (inRange lo hi b1) then (RuneError, 1%nat)
        else if (sz <=? 2)%nat
        then (Z.lor (Z.shiftl (Z.land p0 0x1F) 6) (Z.land b1 0x3F), 2%nat)
        else match rest1 with
        | [] => (RuneError, 1%nat)
        | c2 :: rest2 =>
          let b2 := byteVal c2 in
          if negb (inRange locb hicb b2) then (RuneError, 1%nat)
          else if (sz <=? 3)%nat
          then (Z.lor (Z.shiftl (Z.land p0 0x0F) 12)
                 (Z.lor (Z.shiftl (Z.land b1 0x3F) 6) (Z.land b2 0x3F)), 3%nat)
          else match rest2 with
          | [] => (RuneError, 1%nat)
          | c3 :: _ =>
            let b3 := byteVal c3 in
            if negb (inRange locb hicb b3) then (RuneError, 1%nat)
            else (Z.lor (Z.shiftl (Z.land p0 0x07) 18)
                   (Z.lor (Z.shiftl (Z.land b1 0x3F) 12)
                     (Z.lor (Z.shiftl (Z.land b2 0x3F) 6) (Z.land b3 0x3F))),
                  4%nat)
          end
        end
      end
    end
  end.

(** ** unicode: [IsLetter] and [IsNumber]

    The tokenizer asks for the class of a rune only behind [size <= 2],
    that is for runes below U+0800 and for [RuneError].  Up to
    [MaxLatin1] Go answers from its [properties] array, written out here;
    [RuneError] (U+FFFD, a symbol) is neither letter nor number.  Between
    U+0100 and U+07FF the answer comes from the range tables of the
    Unicode version Go was built with: they are the two fields of
    [RangeTables]. *)

Class RangeTables := {
  tableLetter : Z -> bool;
  tableNumber : Z -> bool
}.

Definition latin1Letter (r : Z) : bool :=
  inRange 0x41 0x5A r || inRange 0x61 0x7A r
  || (r =? 0xAA) || (r =? 0xB5) || (r =? 0xBA)
  || inRange 0xC0 0xD6 r || inRange 0xD8 0xF6 r || inRange 0xF8 0xFF r.

Definition latin1Number (r : Z) : bool :=
  inRange 0x30 0x39 r
  || (r =? 0xB2) || (r =? 0xB3) || (r =? 0xB9) || inRange 0xBC 0xBE r.

Definition IsLetter `{RangeTables} (r : Z) : bool :=
  if r <=? MaxLatin1 then latin1Letter r
  else if r =? RuneError then false
  else tableLetter r.

Definition IsNumber `{RangeTables} (r : Z) : bool :=
  if r <=? MaxLatin1 then latin1Number r
  else if r =? RuneError then false
  else tableNumber r.

(** ** The atom tokenizer: [toLower] and [splitTextToWords] *)

Inductive wordType := wordAlpha | wordNumber | wordOther.

Definition wordType_eqb (a b : wordType) : bool :=
  match a, b with
  | wordAlpha, wordAlpha | wordNumber, wordNumber | wordOther, wordOther => true
  | _, _ => false
  end.

Definition toLowerByte (t : byte) : byte :=
  if (0x41 <=? byteVal t) && (byteVal t <=? 0x5A)
  then ascii_of_N (Z.to_N (byteVal t - 0x41 + 0x61))
  else t.

Definition toLower (text : Text) : Text := map toLowerByte text.

(** [text[lo:hi]], for [lo <= hi <= len(text)] *)
Definition slice {A} (text : list A) (lo hi : nat) : list A :=
  take (hi - lo) (drop lo text).

Definition space : Text := bytes " ".

Definition Text_eqb (a b : Text) : bool := bool_decide (a = b).

(** the block that appends [text[preWordStart:current]] to the output:
    lowercased when the run is alphabetic, dropped when it is one space *)
Definition emitWord (output : list Text) (text : Text)
    (preWordType : wordType) (preWordStart current : nat) : list Text :=
  let word := slice text preWordStart current in
  let word := if wordType_eqb preWordType wordAlpha then toLower word else word in
  if negb (Text_eqb word space) then output ++ [word] else output.

Record splitState := {
  sp_output : list Text;
  sp_current : nat;
  sp_preWordType : wordType;
  sp_preWordStart : nat
}.

Definition classify `{RangeTables} (r : Z) (size : nat) : wordType :=
  if (size <=? 2)%nat && IsLetter r then wordAlpha
  else if (size <=? 2)%nat && IsNumber r then wordNumber
  else wordOther.

(** one iteration of [for current < len(text)] *)
Definition splitStep `{RangeTables} (text : Text) (s : splitState) : splitState :=
  let '(r, size) := DecodeRune (drop (sp_current s) text) in
  let curWordType := classify r size in
  if negb (wordType_eqb curWordType (sp_preWordType s))
     || wordType_eqb curWordType wordOther
  then
    {| sp_output :=
         if negb (sp_current s =? 0)%nat
         then emitWord (sp_output s) text (sp_preWordType s)
                (sp_preWordStart s) (sp_current s)
         else sp_output s;
       sp_current := sp_current s + size;
       sp_preWordType := curWordType;
       sp_preWordStart := sp_current s |}
  else
    {| sp_output := sp_output s;
       sp_current := sp_current s + size;
       sp_preWordType := sp_preWordType s;
       sp_preWordStart := sp_preWordStart s |}.

(** the loop; every iteration consumes at least one byte, so [length text]
    iterations are enough (lemma [splitLoop_done]) *)
Fixpoint splitLoop `{RangeTables} (fuel : nat) (text : Text) (s : splitState)
    : splitState :=
  match fuel with
  | O => s
  | S fuel' =>
    if (sp_current s <? length text)%nat
    then splitLoop fuel' text (splitStep text s)
    else s
  end.

Definition splitTextToWords `{RangeTables} (text : Text) : list Text :=
  let s := splitLoop (length text) text
             {| sp_output := []; sp_current := 0;
                sp_preWordType := wordAlpha; sp_preWordStart := 0 |} in
  if negb (sp_current s =? 0)%nat
  then emitWord (sp_output s) text (sp_preWordType s)
         (sp_preWordStart s) (sp_current s)
  else sp_output s.

(** [textSliceByteLength] and [textSliceToBytes] of utils.go *)
Definition textSliceByteLength (text : list Text) : Z :=
  foldl (fun length word => length + Z.of_nat (List.length word)) 0 text.

Definition textSliceToBytes (text : list Text) : Text :=
  foldl (fun buf word => buf ++ word) [] text.

(** [Join] of utils.go: the atoms one after the other, with one space
    behind every atom but the last whose first rune is a letter or a
    number of at most two bytes *)
Definition Join `{RangeTables} (a : list Text) : string :=
  foldl (fun b '(i, text) =>
           let b := (b ++ string_of_list_ascii text)%string in
           let '(r, size) := DecodeRune text in
           if negb (Z.of_nat i =? Z.of_nat (length a) - 1)
              && (size <=? 2)%nat && (IsLetter r || IsNumber r)
           then (b ++ " ")%string else b)
        EmptyString (imap pair a).

Definition textSliceToString `{RangeTables} (text : list Text) : string :=
  Join text.

(** ** Strings of the loader: [strings.Split], [Trim], [Join], [Replace],
    the pattern [^\d+$] and [strconv.Atoi]

    A Go [string] is a byte string, as is Rocq's [string]. *)

(** [strings.Split(s, sep)] for the one-byte separators the loader uses *)
Fixpoint Split (s : string) (sep : ascii) : list string :=
  match s with
  | EmptyString => [EmptyString]
  | String c s' =>
    if Ascii.eqb c sep then EmptyString :: Split s' sep
    else match Split s' sep with
         | w :: ws => String c w :: ws
         | [] => [String c EmptyString]
         end
  end.

Fixpoint trimLeftSpaces (s : list ascii) : list ascii :=
  match s with
  | c :: s' => if Ascii.eqb c " " then trimLeftSpaces s' else s
  | [] => []
  end.

(** [strings.Trim(s, " ")] *)
Definition Trim (s : string) : string :=
  string_of_list_ascii
    (rev (trimLeftSpaces (rev (trimLeftSpaces (list_ascii_of_string s))))).

(** [strings.Join(a, " ")] *)
Definition Join_ (a : list string) : string := String.concat " " a.

(** [strings.Replace(s, old, new, -1)] for a non-empty [old]; [skip]
    counts the bytes of a match that are still to be passed over *)
Fixpoint replaceFrom (old new : string) (skip : nat) (s : string) : string :=
  match s with
  | EmptyString => EmptyString
  | String c s' =>
    match skip with
    | S skip' => replaceFrom old new skip' s'
    | O =>
      if String.prefix old s
      then (new ++ replaceFrom old new (String.length old - 1) s')%string
      else String c (replaceFrom old new 0 s')
    end
  end.

Definition Replace (s old new : string) : string := replaceFrom old new 0 s.

Definition isDigit (c : ascii) : bool := inRange 0x30 0x39 (byteVal c).

(** [regexp.MustCompile("^\\d+$").MatchString(s)] *)
Definition allDigits (s : string) : bool :=
  match list_ascii_of_string s with
  | [] => false
  | cs => forallb isDigit cs
  end.

Fixpoint parseDigits (acc : Z) (s : list ascii) : option Z :=
  match s with
  | [] => Some acc
  | c :: s' =>
    if isDigit c then parseDigits (acc * 10 + (byteVal c - 0x30)) s' else None
  end.

(** [strconv.Atoi] with a 64-bit [int]: an optional sign, then decimal
    digits only; [None] for a syntax or range error *)
Definition Atoi (s : string) : option Z :=
  let '(neg, body) :=
    match list_ascii_of_string s with
    | c :: s' =>
      if Ascii.eqb c "+" then (false, s')
      else if Ascii.eqb c "-" then (true, s')
      else (false, c :: s')
    | [] => (false, [])
    end in
  match body with
  | [] => None
  | _ =>
    n ← parseDigits 0 body;
    let v := if neg : bool then - n else n in
    if (- 2 ^ 63 <=? v) && (v <=? 2 ^ 63 - 1) then Some v else None
  end.

Definition minTokenFrequency : Z := 2.

(** ** float32 path weights

    [distance] and [minDistance] are [float32] in the source.  The
    segmenter adds them, compares them with [>] and with [== 0], and the
    loader takes a difference of base-2 logarithms.  The embedding keeps
    the carrier abstract and names exactly these operations. *)

Class Float32Ops (F : Type) := {
  fzero : F;                 (* the constant 0 *)
  f32 : F;                   (* the constant 32 *)
  fadd : F -> F -> F;
  fsub : F -> F -> F;
  fgt : F -> F -> bool;      (* a > b *)
  feq : F -> F -> bool;      (* a == b *)
  flog2 : Z -> F             (* float32(math.Log2(float64(n))) *)
}.

(** What the proofs use of float32 arithmetic, on the values a lattice
    holds (no NaN): [>] is a strict total order, [==] is equality,
    adding the same weight on the right is monotone (rounding is), and
    adding to zero is exact. *)
Class Float32Laws (F : Type) `{Float32Ops F} : Prop := {
  feq_spec : forall a b : F, feq a b = true <-> a = b;
  fgt_irrefl : forall a : F, fgt a a = false;
  fgt_trans : forall a b c : F, fgt a b = true -> fgt b c = true -> fgt a c = true;
  fgt_total : forall a b : F, fgt a b = false -> fgt b a = false -> a = b;
  fadd_mono : forall a b d : F, fgt a b = false -> fgt (fadd a d) (fadd b d) = false;
  fadd_zero_l : forall d : F, fadd fzero d = d;
  f32_pos : fgt f32 fzero = true
}.

(** [a <= b] *)
Definition fle {F} `{Float32Ops F} (a b : F) : Prop := fgt a b = false.

(** ** Tokens, segments and the token store

    The source links tokens by pointer: a segment points to its token, a
    token to its synonyms and (through its sub-segments) to other tokens,
    the dictionary to every token it stores, and the loader writes
    [distance], [segments] and [synonyms] through these pointers.  The
    embedding keeps every allocated [Token] in a store and a pointer is
    an index into it.  The synthetic one-atom token of [segmentWords] is
    allocated afresh at each use and never written afterwards: a pointer
    to it is kept as the atom it was built from. *)

Inductive TokenRef :=
  | Stored (p : nat)
  | Synthetic (atom : Text).

Record Segment := {
  start : Z;
  end_ : Z;
  token : TokenRef
}.

Section Model.

Context {F : Type} `{Float32Ops F} `{RangeTables}.

Record Token := {
  text : list Text;
  frequency : Z;
  distance : F;
  pos : string;
  segments : list Segment;
  synonyms : list TokenRef
}.

(** the token store *)
#[local] Abbreviation Store := (list Token).

(** Go's zero-valued [Token] *)
Definition zeroToken : Token :=
  {| text := []; frequency := 0; distance := fzero; pos := "";
     segments := []; synonyms := [] |}.

(** [&Token{text: []Text{atom}, frequency: 1, distance: 32, pos: "x"}] *)
Definition syntheticToken (atom : Text) : Token :=
  {| text := [atom]; frequency := 1; distance := f32; pos := "x";
     segments := []; synonyms := [] |}.

Definition deref (h : Store) (r : TokenRef) : Token :=
  match r with
  | Stored p => default zeroToken (h !! p)
  | Synthetic atom => syntheticToken atom
  end.

(** [tk.text], for a pointer [tk] *)
Definition textOf (h : Store) (tk : TokenRef) : list Text := text (deref h tk).

(** ** The dictionary *)

Record Dictionary := {
  tokens : list nat;          (* pointers into the store, in insertion order *)
  totalFrequency : Z;
  maxTokenLength : nat
}.

Definition NewDictionary : Dictionary :=
  {| tokens := []; totalFrequency := 0; maxTokenLength := 0 |}.

(** Modelled from the spec: dictionary.go, which holds [addToken], is not
    among the sources.  The spec: inserts the token keyed by its
    concatenated atom bytes; if a token with that key already exists the
    call is a no-op; on real insertion [totalFrequency += t.frequency]
    and [maxTokenLength <- max(maxTokenLength, atom-count(t))]. *)
Definition addToken (h : Store) (dict : Dictionary) (p : nat) : Dictionary :=
  let t := deref h (Stored p) in
  if existsb (fun q => Text_eqb (textSliceToBytes (text (deref h (Stored q))))
                         (textSliceToBytes (text t))) (tokens dict)
  then dict
  else {| tokens := tokens dict ++ [p];
          totalFrequency := totalFrequency dict + frequency t;
          maxTokenLength := Nat.max (maxTokenLength dict) (length (text t)) |}.

(** Modelled from the spec: dictionary.go, which holds [lookupTokens], is
    not among the sources.  The spec: all stored tokens whose atom
    sequence is a prefix of [words] (including equal-length matches),
    ordered by increasing atom-count. *)
Definition lookupTokens (h : Store) (dict : Dictionary) (words : list Text)
    : list TokenRef :=
  flat_map
    (fun k => map Stored
       (filter (fun p => text (deref h (Stored p)) = take k words) (tokens dict)))
    (seq 0 (S (length words))).

(** ** The lattice *)

Record jumper := {
  minDistance : F;
  j_token : option TokenRef       (* [None] is the nil pointer *)
}.

Definition updateJumper (h : Store) (j : jumper) (baseDistance : F)
    (tk : TokenRef) : jumper :=
  let newDistance := fadd baseDistance (distance (deref h tk)) in
  if feq (minDistance j) fzero || fgt (minDistance j) newDistance
  then {| minDistance := newDistance; j_token := Some tk |}
  else j.

(** [f(&jumpers[location])]; an index out of range panics ([None]) *)
Definition updateAt (jumpers : list jumper) (location : Z)
    (f : jumper -> jumper) : option (list jumper) :=
  if location <? 0 then None
  else j ← jumpers !! Z.to_nat location;
       Some (<[Z.to_nat location := f j]> jumpers).

(** the loop over the [numTokens] matches found at [current] *)
Fixpoint relaxTokens (h : Store) (text : list Text) (searchMode : bool)
    (current : nat) (baseDistance : F) (toks : list TokenRef)
    (jumpers : list jumper) : option (list jumper) :=
  match toks with
  | [] => Some jumpers
  | tk :: rest =>
    let location :=
      Z.of_nat current + Z.of_nat (length (textOf h tk)) - 1 in
    jumpers' ←
      (if negb searchMode || negb (current =? 0)%nat
          || negb (location =? Z.of_nat (length text) - 1)
       then updateAt jumpers location (fun j => updateJumper h j baseDistance tk)
       else Some jumpers);
    relaxTokens h text searchMode current baseDistance rest jumpers'
  end.

Definition newJumper : jumper := {| minDistance := fzero; j_token := None |}.

(** one iteration of [for current := 0; current < len(text); current++] *)
Definition forwardStep (h : Store) (dict : Dictionary) (text : list Text)
    (searchMode : bool) (current : nat) (jumpers : list jumper)
    : option (list jumper) :=
  baseDistance ←
    (if (current =? 0)%nat then Some fzero
     else j ← jumpers !! (current - 1)%nat; Some (minDistance j));
  let toks :=
    lookupTokens h dict
      (slice text current
         (Nat.min (current + maxTokenLength dict) (length text))) in
  jumpers ← relaxTokens h text searchMode current baseDistance toks jumpers;
  if match toks with
     | [] => true                                        (* numTokens == 0 *)
     | tk0 :: _ => (1 <? length (textOf h tk0))%nat      (* len(tokens[0].text) > 1 *)
     end
  then atom ← text !! current;
       updateAt jumpers (Z.of_nat current)
         (fun j => updateJumper h j baseDistance (Synthetic atom))
  else Some jumpers.

Fixpoint forwardLoop (h : Store) (dict : Dictionary) (text : list Text)
    (searchMode : bool) (steps current : nat) (jumpers : list jumper)
    : option (list jumper) :=
  match steps with
  | O => Some jumpers
  | S steps' =>
    jumpers' ← forwardStep h dict text searchMode current jumpers;
    forwardLoop h dict text searchMode steps' (S current) jumpers'
  end.

(** one step of a backward scan from [index]: the token found there and
    the next index, [location - 1]; a nil token or an index out of range
    panics *)
Definition backStep (h : Store) (jumpers : list jumper) (index : Z)
    : option (TokenRef * Z) :=
  if index <? 0 then None
  else j ← jumpers !! Z.to_nat index;
       tk ← j_token j;
       let location := index - Z.of_nat (length (textOf h tk)) + 1 in
       Some (tk, location - 1).

(** first backward scan: the number of segments.  The source loop has no
    bound of its own; here it gives up ([None]) after [fuel] iterations. *)
Fixpoint countSegments (h : Store) (jumpers : list jumper) (fuel : nat)
    (index : Z) (numSeg : nat) : option nat :=
  if index <? 0 then Some numSeg
  else match fuel with
  | O => None
  | S fuel' =>
    '(_, next) ← backStep h jumpers index;
    countSegments h jumpers fuel' next (S numSeg)
  end.

(** second backward scan: [numSeg--; outputSegments[numSeg].token = ...].
    Only the [token] field of [outputSegments] is written here, so the
    array is kept as the list of these fields ([None] for nil). *)
Fixpoint fillSegments (h : Store) (jumpers : list jumper) (fuel : nat)
    (index : Z) (numSeg : Z) (outputSegments : list (option TokenRef))
    : option (list (option TokenRef)) :=
  if index <? 0 then Some outputSegments
  else match fuel with
  | O => None
  | S fuel' =>
    '(tk, next) ← backStep h jumpers index;
    let numSeg := numSeg - 1 in
    if (numSeg <? 0) || (Z.of_nat (length outputSegments) <=? numSeg) then None
    else fillSegments h jumpers fuel' next numSeg
           (<[Z.to_nat numSeg := Some tk]> outputSegments)
  end.

(** the byte positions: [start], [end] of every output segment *)
Fixpoint bytePositions (h : Store) (outputSegments : list (option TokenRef))
    (bytePosition : Z) : option (list Segment) :=
  match outputSegments with
  | [] => Some []
  | slot :: rest =>
    tk ← slot;
    let bytePosition' := bytePosition + textSliceByteLength (textOf h tk) in
    segs ← bytePositions h rest bytePosition';
    Some ({| start := bytePosition; end_ := bytePosition'; token := tk |} :: segs)
  end.

Definition isStop (h : Store) (segment : Segment) : bool :=
  bool_decide (pos (deref h (token segment)) = "__STOP__"%string).

(** the segments of the best path, before the stop-word filter *)
Definition outputSegments (h : Store) (dict : Dictionary) (text : list Text)
    (searchMode : bool) : option (list Segment) :=
  jumpers ← forwardLoop h dict text searchMode (length text) 0
              (replicate (length text) newJumper);
  numSeg ← countSegments h jumpers (length text)
             (Z.of_nat (length text) - 1) 0;
  slots ← fillSegments h jumpers (length text) (Z.of_nat (length text) - 1)
            (Z.of_nat numSeg) (replicate numSeg None);
  bytePositions h slots 0.

Definition segmentWords (h : Store) (dict : Dictionary) (text : list Text)
    (searchMode : bool) : option (list Segment) :=
  if searchMode && (length text =? 1)%nat then Some []
  else
    outputSegments ← outputSegments h dict text searchMode;
    Some (filter (fun segment => negb (isStop h segment)) outputSegments).

Definition internalSegment (h : Store) (dict : Dictionary) (bytes : Text)
    (searchMode : bool) : option (list Segment) :=
  if (length bytes =? 0)%nat then Some []
  else segmentWords h dict (splitTextToWords bytes) searchMode.

Definition Segment_ (h : Store) (dict : Dictionary) (bytes : Text)
    : option (list Segment) :=
  internalSegment h dict bytes false.

(** ** Output expansion: [SegmentsSpread]

    The recursion follows the [segments] pointers of the tokens; [fuel]
    bounds its depth and [None] means the bound was reached. *)

(** the synonyms of the token of [s], as segments with the span of [s] *)
Definition synonymSegments (h : Store) (s : Segment) : list Segment :=
  map (fun t => {| start := start s; end_ := end_ s; token := t |})
      (synonyms (deref h (token s))).

(** the body of [for _, s := range segs], given the function of the
    recursive call *)
Definition spreadStep (h : Store)
    (spread : list Segment -> option (list Segment))
    (output : option (list Segment)) (s : Segment) : option (list Segment) :=
  output ← output;
  sub ← spread (segments (deref h (token s)));
  Some (output ++ sub ++ synonymSegments h s ++ [s]).

Fixpoint SegmentsSpread (h : Store) (fuel : nat) (segs : list Segment)
    : option (list Segment) :=
  match fuel with
  | O => None
  | S fuel' => foldl (spreadStep h (SegmentsSpread h fuel')) (Some []) segs
  end.

(** ** Output as text: [SegmentsToString] of utils.go

    [fmt.Sprintf("%s/%s ", ...)] of the text and the part of speech of
    every segment *)
Definition SegmentsToString (h : Store) (segs : list Segment) : string :=
  foldl (fun output seg =>
           (output ++ (textSliceToString (textOf h (token seg)) ++ "/"
                       ++ pos (deref h (token seg)) ++ " "))%string)
        EmptyString segs.

(** [tokenToString] and [tokenToSlice] of utils.go: the sub-segments of
    the token first, each with its own sub-segments before it, then the
    token.  The recursion follows the [segments] pointers, as that of
    [SegmentsSpread] does, and [fuel] bounds its depth.  (The pointers
    kept in [segments] are addresses of slice elements, never nil: the
    test [s != nil] of [tokenToString] holds of each.) *)
Fixpoint tokenToString (h : Store) (fuel : nat) (tk : TokenRef)
    : option string :=
  match fuel with
  | O => None
  | S fuel' =>
    output ←
      foldl (fun output s =>
               output ← output;
               sub ← tokenToString h fuel' (token s);
               Some (output ++ sub)%string)
            (Some EmptyString) (segments (deref h tk));
    Some (output ++ (textSliceToString (textOf h tk) ++ "/"
                     ++ pos (deref h tk) ++ " "))%string
  end.

Fixpoint tokenToSlice (h : Store) (fuel : nat) (tk : TokenRef)
    : option (list string) :=
  match fuel with
  | O => None
  | S fuel' =>
    output ←
      foldl (fun output s =>
               output ← output;
               sub ← tokenToSlice h fuel' (token s);
               Some (output ++ sub))
            (Some []) (segments (deref h tk));
    Some (output ++ [textSliceToString (textOf h tk)])
  end.

(** ** [LoadDictionary] *)

Record Segmenter := {
  heap : Store;
  dict : Dictionary
}.

(** what the body of [for _, piece := range pieces] ends with *)
Inductive pieceResult :=
  | pieceBreak                      (* [break]: the rest of the line is dropped *)
  | pieceContinue                   (* [continue] *)
  | pieceToken (t : Token).

Definition newToken (words : list Text) (frequency : Z) (pos : string)
    : Token :=
  {| text := words; frequency := frequency; distance := fzero; pos := pos;
     segments := []; synonyms := [] |}.

Definition parsePiece (piece : string) : pieceResult :=
  let slices := Split (Trim piece) " " in
  let l := length slices in
  let fields :=
    if allDigits (default EmptyString (slices !! (l - 1)%nat))
    then
      (* [word] [frequency] *)
      if (l <? 2)%nat then None
      else Some (Join_ (take (l - 1) slices),
                 default EmptyString (slices !! (l - 1)%nat),
                 EmptyString)
    else
      (* [word] [frequency] [part of speech] *)
      if (l <? 3)%nat then None
      else Some (Replace (Join_ (take (l - 2) slices)) "__VERTICAL_BAR__" "|",
                 default EmptyString (slices !! (l - 2)%nat),
                 default EmptyString (slices !! (l - 1)%nat)) in
  match fields with
  | None => pieceBreak
  | Some (text, freqText, pos) =>
    if String.eqb text EmptyString then pieceBreak
    else match Atoi freqText with
    | None => pieceContinue
    | Some frequency =>
      if frequency <? minTokenFrequency then pieceContinue
      else pieceToken (newToken (splitTextToWords (bytes text)) frequency pos)
    end
  end.

(** the tokens of one line, in order *)
Fixpoint parsePieces (pieces : list string) (synonyms : list Token)
    : list Token :=
  match pieces with
  | [] => synonyms
  | piece :: rest =>
    match parsePiece piece with
    | pieceBreak => synonyms
    | pieceContinue => parsePieces rest synonyms
    | pieceToken t => parsePieces rest (synonyms ++ [t])
    end
  end.

Definition parseLine (line : string) : list Token :=
  parsePieces (Split (Trim line) "|") [].

(** writes through a token pointer *)
Definition appendSegments (segs : list Segment) (t : Token) : Token :=
  {| text := text t; frequency := frequency t; distance := distance t;
     pos := pos t; segments := segments t ++ segs; synonyms := synonyms t |}.

Definition appendSynonyms (syns : list TokenRef) (t : Token) : Token :=
  {| text := text t; frequency := frequency t; distance := distance t;
     pos := pos t; segments := segments t; synonyms := synonyms t ++ syns |}.

Definition setSynonyms (syns : list TokenRef) (t : Token) : Token :=
  {| text := text t; frequency := frequency t; distance := distance t;
     pos := pos t; segments := segments t; synonyms := syns |}.

Definition setDistance (d : F) (t : Token) : Token :=
  {| text := text t; frequency := frequency t; distance := d;
     pos := pos t; segments := segments t; synonyms := synonyms t |}.

(** [synonyms[:i]] followed by [synonyms[i+1:]] *)
Definition others (ptrs : list TokenRef) (i : nat) : list TokenRef :=
  take i ptrs ++ drop (S i) ptrs.

(** one line: its tokens are allocated, linked as each other's synonyms
    and added to the dictionary *)
Definition loadLine (seg : Segmenter) (line : string) : Segmenter :=
  let toks := parseLine line in
  let base := length (heap seg) in
  let ptrs := map Stored (seq base (length toks)) in
  foldl (fun seg i =>
           let h := alter (appendSynonyms (others ptrs i)) (base + i)%nat (heap seg) in
           {| heap := h; dict := addToken h (dict seg) (base + i)%nat |})
        {| heap := heap seg ++ toks; dict := dict seg |}
        (seq 0 (length toks)).

(** a file is read line by line: the pieces between its newlines, the
    last one included even when it is empty *)
Definition loadFile (seg : Segmenter) (content : string) : Segmenter :=
  foldl loadLine seg (Split content "010").

(** the path value of every stored token *)
Definition assignDistances (seg : Segmenter) : Segmenter :=
  let logTotalFrequency := flog2 (totalFrequency (dict seg)) in
  {| heap :=
       foldl (fun h p =>
                alter (setDistance
                         (fsub logTotalFrequency
                               (flog2 (frequency (deref h (Stored p)))))) p h)
             (heap seg) (tokens (dict seg));
     dict := dict seg |}.

(** [&Token{text: a.text ++ suffix, frequency: a.frequency,
    distance: a.distance, pos: a.pos}] *)
Definition extend (a : Token) (suffix : list Text) : Token :=
  {| text := text a ++ suffix; frequency := frequency a;
     distance := distance a; pos := pos a; segments := []; synonyms := [] |}.

(** the body of [for _, segment := range token.segments]: the product so
    far and [hasSynonyms] *)
Definition cartesianStep (h : Store) (acc : list Token * bool)
    (segment : Segment) : list Token * bool :=
  let '(product, hasSynonyms) := acc in
  let tk := deref h (token segment) in
  if (0 <? length (synonyms tk))%nat
  then (flat_map (fun a => map (fun b => extend a (textOf h b)) (synonyms tk)) product,
        hasSynonyms || (0 <? length product)%nat)
  else (flat_map (fun a => [extend a (text tk)]) product, hasSynonyms).

(** the seed of the product for the token at [p] *)
Definition seedToken (t : Token) : Token :=
  {| text := []; frequency := frequency t; distance := distance t;
     pos := pos t; segments := []; synonyms := [] |}.

(** the body of [for i, t := range token.synonyms], for the product token
    allocated at [base + i] *)
Definition linkProduct (p base : nat) (ptrs : list TokenRef)
    (seg : option Segmenter) (i : nat) : option Segmenter :=
  seg ← seg;
  let q := (base + i)%nat in
  segs ← segmentWords (heap seg) (dict seg) (textOf (heap seg) (Stored q)) true;
  let h := alter (appendSegments segs) q (heap seg) in
  let h := alter (appendSynonyms (Stored p :: others ptrs i)) q h in
  Some {| heap := h; dict := addToken h (dict seg) q |}.

(** the search-mode expansion of the stored token at [p] *)
Definition expandToken (seg : option Segmenter) (p : nat) : option Segmenter :=
  seg ← seg;
  segs ← segmentWords (heap seg) (dict seg) (textOf (heap seg) (Stored p)) true;
  let h := alter (appendSegments segs) p (heap seg) in
  let tk := deref h (Stored p) in
  let '(product, hasSynonyms) :=
    foldl (cartesianStep h) ([seedToken tk], false) (segments tk) in
  if hasSynonyms : bool
  then
    let base := length h in
    let ptrs := map Stored (seq base (length product)) in
    let h := alter (setSynonyms ptrs) p (h ++ product) in
    foldl (linkProduct p base ptrs) (Some {| heap := h; dict := dict seg |})
          (seq 0 (length product))
  else Some {| heap := h; dict := dict seg |}.

(** the loop [for i := range seg.dict.tokens] runs over the tokens stored
    when it starts *)
Definition expandAll (seg : Segmenter) : option Segmenter :=
  foldl expandToken (Some seg) (tokens (dict seg)).

(** [LoadDictionary], on the contents of the files in the order given *)
Definition LoadDictionary (files : list string) : option Segmenter :=
  expandAll
    (assignDistances
       (foldl loadFile {| heap := []; dict := NewDictionary |} files)).

Definition FullSegment (seg : Segmenter) (fuel : nat) (bytes : Text)
    : option (list Segment) :=
  segments ← internalSegment (heap seg) (dict seg) bytes false;
  SegmentsSpread (heap seg) fuel segments.


(** * Vocabulary of the properties *)

(** ** The atom tokenizer *)

(** the space byte *)
Definition sp : byte := " "%char.

(** the number of space bytes of a text *)
Definition countSpaces (t : Text) : nat :=
  length (filter (fun c => c = sp) t).

(** ASCII white space: tab, line feed, vertical tab, form feed, carriage
    return and space *)
Definition isSpaceByte (c : byte) : bool :=
  inRange 0x09 0x0D (byteVal c) || (byteVal c =? 0x20).

(** an atom that consists of white space only *)
Definition whitespaceAtom (w : Text) : bool :=
  match w with
  | [] => false
  | _ => forallb isSpaceByte w
  end.

(** *** The loop invariant

    The atoms emitted so far hold no space, they and the spaces dropped
    so far account for every byte before the run in progress, and that
    run either holds no space or is a lone space scalar. *)

Record splitInv (text : Text) (s : splitState) : Prop := {
  inv_bounds : (sp_preWordStart s <= sp_current s <= length text)%nat;
  inv_output : Forall (fun w => sp ∉ w) (sp_output s);
  inv_run :
    (sp ∉ slice text (sp_preWordStart s) (sp_current s))
    \/ (sp_preWordType s = wordOther
        /\ slice text (sp_preWordStart s) (sp_current s) = space);
  inv_count :
    textSliceByteLength (sp_output s)
    + Z.of_nat (countSpaces (take (sp_preWordStart s) text))
    = Z.of_nat (sp_preWordStart s)
}.


(** ** The lattice *)

(** [len(tk.text)] *)
Definition tokLen (h : Store) (tk : TokenRef) : nat := length (textOf h tk).

(** the dictionary matches found at [current] *)
Definition matches (h : Store) (dict : Dictionary) (text : list Text)
    (current : nat) : list TokenRef :=
  lookupTokens h dict
    (slice text current (Nat.min (current + maxTokenLength dict) (length text))).

(** the search-mode exclusion: a match at [current == 0] that ends on the
    last atom *)
Definition wholeSpan (text : list Text) (searchMode : bool) (current len : nat)
    : bool :=
  searchMode && (current =? 0)%nat
  && (Z.of_nat current + Z.of_nat len - 1 =? Z.of_nat (length text) - 1).

(** [numTokens == 0 || len(tokens[0].text) > 1] *)
Definition needsFallback (h : Store) (toks : list TokenRef) : bool :=
  match toks with
  | [] => true
  | tk0 :: _ => (1 <? tokLen h tk0)%nat
  end.

(** the candidate tokens relaxed at [current], in the order of the
    relaxations: the matches that are not excluded, then the synthetic
    one-atom token where the source adds it *)
Definition candidates (h : Store) (dict : Dictionary) (text : list Text)
    (searchMode : bool) (current : nat) : list TokenRef :=
  filter (fun tk => wholeSpan text searchMode current (tokLen h tk) = false)
         (matches h dict text current)
  ++ (if needsFallback h (matches h dict text current)
      then match text !! current with
           | Some atom => [Synthetic atom]
           | None => []
           end
      else []).

(** [Segmentation e toks]: the candidate tokens [toks], each relaxed at
    the atom where the one before it ends, cover [atoms[0..e)] *)
Inductive Segmentation (h : Store) (dict : Dictionary) (text : list Text)
    (searchMode : bool) : nat -> list TokenRef -> Prop :=
  | Segmentation_nil : Segmentation h dict text searchMode 0 []
  | Segmentation_snoc s toks tk :
      Segmentation h dict text searchMode s toks ->
      tk ∈ candidates h dict text searchMode s ->
      Segmentation h dict text searchMode (s + tokLen h tk) (toks ++ [tk]).

(** the sum of the distances of a path, added up from the left as the
    lattice does *)
Definition pathDistance (h : Store) (toks : list TokenRef) : F :=
  foldl (fun d tk => fadd d (distance (deref h tk))) fzero toks.

(** every stored token has at least one atom *)
Definition dictWF (h : Store) (dict : Dictionary) : Prop :=
  forall p, p ∈ tokens dict -> textOf h (Stored p) <> [].

(** every stored token has a strictly positive distance *)
Definition positiveDistances (h : Store) (dict : Dictionary) : Prop :=
  forall p, p ∈ tokens dict -> fgt (distance (deref h (Stored p))) fzero = true.

Definition spanSum (segs : list Segment) : Z :=
  foldr (fun s acc => (end_ s - start s) + acc) 0 segs.

(** the edges relaxed so far, when the forward loop is at [c] and has
    relaxed there the candidates [processed] *)
Definition relaxed (h : Store) (dict : Dictionary) (text : list Text)
    (searchMode : bool) (c : nat) (processed : list TokenRef)
    (s : nat) (tk : TokenRef) : Prop :=
  (s < c /\ tk ∈ candidates h dict text searchMode s)%nat
  \/ (s = c /\ tk ∈ processed).

(** every jumper is either untouched, and then no relaxed edge ends on it,
    or holds a relaxed edge that ends on it *)
Definition structInv (h : Store) (dict : Dictionary) (text : list Text)
    (searchMode : bool) (c : nat) (processed : list TokenRef)
    (jumpers : list jumper) : Prop :=
  length jumpers = length text
  /\ forall i j, jumpers !! i = Some j ->
       (j = newJumper
        /\ forall s tk, relaxed h dict text searchMode c processed s tk ->
                        (s + tokLen h tk)%nat <> S i)
       \/ (exists s tk, j_token j = Some tk
                        /\ relaxed h dict text searchMode c processed s tk
                        /\ (s + tokLen h tk)%nat = S i).

(** the lattice at the end of the forward loop *)
Definition forwardResult (h : Store) (dict : Dictionary) (text : list Text)
    (searchMode : bool) : option (list jumper) :=
  forwardLoop h dict text searchMode (length text) 0
    (replicate (length text) newJumper).

(** [baseDistance] at [s] *)
Definition baseOf (jumpers : list jumper) (s : nat) : F :=
  match s with
  | O => fzero
  | S s' => minDistance (default newJumper (jumpers !! s'))
  end.

(** a touched jumper holds the least distance of the relaxed edges that
    end on it, and that distance is not the zero that marks an untouched
    jumper *)
Definition distInv (h : Store) (dict : Dictionary) (text : list Text)
    (searchMode : bool) (c : nat) (processed : list TokenRef)
    (jumpers : list jumper) : Prop :=
  forall i j tk, jumpers !! i = Some j -> j_token j = Some tk ->
    fgt (minDistance j) fzero = true
    /\ (exists s, relaxed h dict text searchMode c processed s tk
                  /\ (s + tokLen h tk)%nat = S i
                  /\ minDistance j = fadd (baseOf jumpers s) (distance (deref h tk)))
    /\ (forall s' tk', relaxed h dict text searchMode c processed s' tk' ->
                       (s' + tokLen h tk')%nat = S i ->
                       fle (minDistance j)
                           (fadd (baseOf jumpers s') (distance (deref h tk')))).

(** the invariant of the relaxations at [c], all made from the distance
    [base] found before [c] *)
Definition latticeInv (h : Store) (dict : Dictionary) (text : list Text)
    (searchMode : bool) (base : F) (c : nat) (processed : list TokenRef)
    (jumpers : list jumper) : Prop :=
  structInv h dict text searchMode c processed jumpers
  /\ distInv h dict text searchMode c processed jumpers
  /\ baseOf jumpers c = base.

(** ** The loader *)

(** two tokens with the same frequency, distance and part of speech *)
Definition sameWeights (t t' : Token) : Prop :=
  frequency t = frequency t' /\ distance t = distance t' /\ pos t = pos t'.

(** [h'] holds every token of [h], with the text, frequency, distance
    and part of speech it has in [h] *)
Definition heapExt (h h' : Store) : Prop :=
  forall i t, h !! i = Some t ->
    exists t', h' !! i = Some t' /\ sameWeights t t' /\ text t = text t'.

(** the dictionary points into the store *)
Definition storeOK (seg : Segmenter) : Prop :=
  forall p, p ∈ tokens (dict seg) -> (p < length (heap seg))%nat.

(** what the expansion loop keeps, from the state [seg1] it starts in:
    a token it has inserted was allocated by the loop, is linked to a
    token stored before as its first synonym (its source), and has the
    weights of that source *)
Definition expansionInv (seg1 seg : Segmenter) : Prop :=
  heapExt (heap seg1) (heap seg)
  /\ storeOK seg
  /\ forall q, q ∈ tokens (dict seg) ->
       q ∈ tokens (dict seg1)
       \/ exists p rest,
            p ∈ tokens (dict seg1)
            /\ (length (heap seg1) <= q)%nat
            /\ synonyms (deref (heap seg) (Stored q)) = Stored p :: rest
            /\ sameWeights (deref (heap seg) (Stored q))
                           (deref (heap seg) (Stored p)).

(** a pointer to a token that has at least one atom (so, for a pointer
    into the store, one that points to a token) *)
Definition refOK (h : Store) (r : TokenRef) : Prop := textOf h r <> [].

(** a token with at least one atom whose synonyms and sub-segments point
    to such tokens *)
Definition tokenOK (h : Store) (t : Token) : Prop :=
  text t <> []
  /\ Forall (refOK h) (synonyms t)
  /\ Forall (fun s => refOK h (token s)) (segments t).

Definition heapWF (h : Store) : Prop := Forall (tokenOK h) h.

(** [h'] holds every token of [h], with the text it has in [h] *)
Definition textsExt (h h' : Store) : Prop :=
  forall i t, h !! i = Some t -> exists t', h' !! i = Some t' /\ text t' = text t.

(** a well-formed store with a dictionary that points into it *)
Definition loadedOK (seg : Segmenter) : Prop :=
  heapWF (heap seg) /\ storeOK seg.

(** a string that does not start with a space *)
Definition noLeadingSpace (s : string) : Prop :=
  match s with
  | EmptyString => True
  | String c _ => c <> sp
  end.

(** the tokens of the backward scan from [index], leftmost first *)
Inductive BackPath (h : Store) (jumpers : list jumper)
    : Z -> list TokenRef -> Prop :=
  | BackPath_done index : index < 0 -> BackPath h jumpers index []
  | BackPath_step index tk next toks :
      backStep h jumpers index = Some (tk, next) ->
      BackPath h jumpers next toks ->
      BackPath h jumpers index (toks ++ [tk]).

(** the segments of the tokens [toks] laid out from byte [b] *)
Fixpoint spans (h : Store) (toks : list TokenRef) (b : Z) : list Segment :=
  match toks with
  | [] => []
  | tk :: rest =>
    let b' := b + textSliceByteLength (textOf h tk) in
    {| start := b; end_ := b'; token := tk |} :: spans h rest b'
  end.

End Model.

Arguments Token F : clear implicits.
Abbreviation Store F := (list (Token F)).
Arguments jumper F : clear implicits.
Arguments Segmenter F : clear implicits.
Arguments pieceResult F : clear implicits.

(** ** Data of the examples

    The examples run the embedding on integer weights, with the integer
    logarithm for [flog2], and with range tables that know no letter or
    number beyond Latin-1. *)

Definition intWeights : Float32Ops Z :=
  {| fzero := 0; f32 := 32; fadd := Z.add; fsub := Z.sub;
     fgt := Z.gtb; feq := Z.eqb; flog2 := Z.log2 |}.

Definition latin1Tables : RangeTables :=
  {| tableLetter := fun _ => false; tableNumber := fun _ => false |}.

(** a file with the given lines *)
Definition fileOf (lines : list string) : string :=
  String.concat (String "010" EmptyString) lines.

Definition emptySegmenter : Segmenter Z :=
  {| heap := []; dict := NewDictionary |}.

Definition loadExample (files : list string) : option (Segmenter Z) :=
  @LoadDictionary Z intWeights latin1Tables files.

(** a dictionary with one entry, which has all the frequency there is *)
Definition oneEntryFile : string := fileOf ["a b 10"].

Definition oneEntry : Segmenter Z :=
  Eval vm_compute in default emptySegmenter (loadExample [oneEntryFile]).

(** a dictionary of three words *)
Definition abFile : string := fileOf ["a b 4"; "a 2"; "b 2"].

Definition abSegmenter : Segmenter Z :=
  Eval vm_compute in default emptySegmenter (loadExample [abFile]).

(** the dictionary of the synonym test: three synonyms on one line *)
Definition synonymFile : string :=
  fileOf ["hello 20 p2|hi 20 p2|hoho 20 p2"; "hello world 20 p1"; "world 20 p3"].

(** the synonym dictionary when its lines have been read, before the
    distances are assigned *)
Definition synonymRead : Segmenter Z :=
  Eval vm_compute in
    @loadFile Z intWeights latin1Tables emptySegmenter synonymFile.

Definition synonymSegmenter : Segmenter Z :=
  Eval vm_compute in default emptySegmenter (loadExample [synonymFile]).

(** two words of two CJK characters each, and their characters *)
Definition cjkFile : string := fileOf ["中国 100 ns"; "人口 30 n"; "中 10 f"; "国 10 n"].

Definition cjkSegmenter : Segmenter Z :=
  Eval vm_compute in default emptySegmenter (loadExample [cjkFile]).

(** a store with two tokens of equal distance *)
Definition tieStore : Store Z :=
  [ {| text := [bytes "ab"]; frequency := 4; distance := 3; pos := "n";
       segments := []; synonyms := [] |};
    {| text := [bytes "a"; bytes "b"]; frequency := 4; distance := 3; pos := "v";
       segments := []; synonyms := [] |} ].

(** ** Vocabulary of the tokenizer as a function of the text left

    The loop of [splitTextToWords] keeps the run in progress as two
    indices into the text.  [atomsFrom] is the same loop on the run
    itself and the bytes still to read. *)

(** the text without its space bytes *)
Definition stripSpaces (t : Text) : Text := filter (fun c => c <> sp) t.

(** the word of a run: lowercased when the run is alphabetic *)
Definition wordOf (ty : wordType) (run : Text) : Text :=
  if wordType_eqb ty wordAlpha then toLower run else run.

(** what a finished run adds to the output: nothing when there is no run
    yet, or when its word is one space *)
Definition flushRun (ty : wordType) (run : Text) : list Text :=
  match run with
  | [] => []
  | _ => if Text_eqb (wordOf ty run) space then [] else [wordOf ty run]
  end.

(** the atoms still to come when the run [run] of the type [ty] is in
    progress and [rest] is to be read; a scalar is read at each step, so
    [length rest] steps are enough *)
Fixpoint atomsFrom `{RangeTables} (fuel : nat) (ty : wordType)
    (run rest : Text) : list Text :=
  match fuel with
  | O => flushRun ty run
  | S fuel' =>
    match rest with
    | [] => flushRun ty run
    | _ :: _ =>
      let '(r, size) := DecodeRune rest in
      let cur := classify r size in
      if negb (wordType_eqb cur ty) || wordType_eqb cur wordOther
      then flushRun ty run ++ atomsFrom fuel' cur (take size rest) (drop size rest)
      else atomsFrom fuel' ty (run ++ take size rest) (drop size rest)
    end
  end.

(** what the loop knows of the run in progress: a run that is not
    alphabetic holds no capital letter, and a run holds no space unless
    it is the lone space *)
Definition runOK (ty : wordType) (run : Text) : Prop :=
  (ty <> wordAlpha -> toLower run = run)
  /\ (sp ∉ run \/ (ty = wordOther /\ run = space)).

(** what [splitTextToWords] returns from a state of its loop *)
Definition finishSplit (text : Text) (s : splitState) : list Text :=
  if negb (sp_current s =? 0)%nat
  then emitWord (sp_output s) text (sp_preWordType s)
         (sp_preWordStart s) (sp_current s)
  else sp_output s.

(** ** Vocabulary of the round trip through [Join] *)

(** valid UTF-8: no byte of the text is read as the invalid scalar, which
    [DecodeRune] gives with the size 1 on a byte that is not ASCII *)
Fixpoint validFrom (fuel : nat) (t : Text) : bool :=
  match t with
  | [] => true
  | c0 :: _ =>
    match fuel with
    | O => false
    | S fuel' =>
      let '(r, size) := DecodeRune t in
      (negb (size =? 1)%nat || (byteVal c0 <? 0x80))
      && validFrom fuel' (drop size t)
    end
  end.

Definition validUTF8 (t : Text) : bool := validFrom (length t) t.

(** a byte that can start a scalar: an ASCII byte or a lead byte, not
    one of the continuation bytes [0x80] to [0xBF] *)
Definition startByte (c : byte) : Prop := byteVal c < 0x80 \/ 0xC0 <= byteVal c.

(** [w] is the encoding of one scalar, of the type [ty] *)
Definition isScalar `{RangeTables} (ty : wordType) (w : Text) : Prop :=
  exists c0 rest r,
    w = c0 :: rest
    /\ DecodeRune w = (r, length w)
    /\ (length w = 1%nat -> byteVal c0 < 0x80)
    /\ classify r (length w) = ty.

(** [w] is a run of the type [ty]: one scalar, or several letters, or
    several digits *)
Definition isRun `{RangeTables} (ty : wordType) (w : Text) : Prop :=
  exists s ss,
    w = concat (s :: ss)
    /\ Forall (isScalar ty) (s :: ss)
    /\ (ty = wordOther -> ss = []).

(** an atom as [splitTextToWords] gives them for a valid text *)
Definition isAtom `{RangeTables} (w : Text) : Prop :=
  exists ty, isRun ty w /\ wordOf ty w = w /\ w <> space.

(** the test of [Join] on the first rune of an atom *)
Definition spaceAfter `{RangeTables} (w : Text) : bool :=
  let '(r, size) := DecodeRune w in
  (size <=? 2)%nat && (IsLetter r || IsNumber r).

(** the bytes of [Join a], atom by atom *)
Fixpoint joinFrom `{RangeTables} (a : list Text) : Text :=
  match a with
  | [] => []
  | w :: rest =>
    w ++ (match rest with
          | [] => []
          | _ :: _ => if spaceAfter w then space else []
          end)
      ++ joinFrom rest
  end.

(** ** Vocabulary of the segments returned *)

(** the segments lie one after the other from byte [b] on: each starts
    where the one before it ends, or later *)
Fixpoint inOrder (b : Z) (segs : list Segment) : Prop :=
  match segs with
  | [] => True
  | s :: rest => b <= start s /\ start s <= end_ s /\ inOrder (end_ s) rest
  end.

(** the bytes [lo] to [hi] of a text, for byte positions as the segments
    hold them *)
Definition bytesBetween (t : Text) (lo hi : Z) : Text :=
  slice t (Z.to_nat lo) (Z.to_nat hi).

(** ** Vocabulary of the recursion of [SegmentsSpread] *)

Section SpreadVocabulary.

Context {F : Type} `{Float32Ops F}.

(** the sub-segments of every token of the store point to tokens of
    fewer atoms than the token: the pointers that [SegmentsSpread]
    follows lead to ever shorter tokens *)
Definition shrinkOK (h : Store F) : Prop :=
  Forall (fun t => Forall (fun s => (tokLen h (token s) < length (text t))%nat)
                     (segments t)) h.

(** the dictionary [d'] holds every token of [d] *)
Definition dictExt (d d' : Dictionary) : Prop :=
  forall q, q ∈ tokens d -> q ∈ tokens d'.

(** the segments [segs] are what [segmentWords(words, true)] returned
    at load time: in a store [h0] and a dictionary [d0] of the loader,
    between the dictionary [d1] read from the files and the dictionary
    [dict] that is built in the end.  The tokens of [d0] have at least
    one atom each, and the store [h] still holds the tokens of [h0],
    with the texts they had. *)
Definition loadTimeSegments (d1 : Dictionary) (h : Store F) (dict : Dictionary)
    (words : list Text) (segs : list Segment) : Prop :=
  exists h0 d0,
    dictWF h0 d0 /\ textsExt h0 h
    /\ dictExt d1 d0 /\ dictExt d0 dict
    /\ segmentWords h0 d0 words true = Some segs.

End SpreadVocabulary.

(** * Properties *)

(** ** The atom tokenizer *)

Section Tokenizer.

Context `{RangeTables}.

Lemma byteVal_sp c : byteVal c = 0x20 -> c = sp.
Proof.
  unfold byteVal. intros Hc.
  assert (N_of_ascii c = 32%N) as Hn by lia.
  rewrite <- (ascii_N_embedding c), Hn. reflexivity.
Qed.

Lemma countSpaces_app a b : countSpaces (a ++ b) = (countSpaces a + countSpaces b)%nat.
Proof. unfold countSpaces. by rewrite filter_app, length_app. Qed.

Lemma countSpaces_0 t : sp ∉ t -> countSpaces t = 0%nat.
Proof.
  unfold countSpaces. induction t as [|c t IH]; [done|].
  intros Hn. rewrite filter_cons. destruct (decide (c = sp)) as [->|Hc].
  - exfalso. apply Hn. left.
  - apply IH. intros Hin. apply Hn. by right.
Qed.

Lemma textSliceByteLength_from (ws : list Text) (a : Z) :
  foldl (fun length word => length + Z.of_nat (List.length word)) a ws
  = a + textSliceByteLength ws.
Proof.
  unfold textSliceByteLength. revert a.
  induction ws as [|w ws IH]; intros a; simpl; [lia|].
  rewrite (IH (a + _)), (IH (0 + _)). lia.
Qed.

Lemma textSliceByteLength_nil : textSliceByteLength [] = 0.
Proof. reflexivity. Qed.

Lemma textSliceByteLength_cons w ws :
  textSliceByteLength (w :: ws) = Z.of_nat (length w) + textSliceByteLength ws.
Proof.
  unfold textSliceByteLength at 1. simpl. by rewrite textSliceByteLength_from.
Qed.

Lemma textSliceByteLength_app a b :
  textSliceByteLength (a ++ b) = textSliceByteLength a + textSliceByteLength b.
Proof.
  induction a as [|w a IH]; simpl.
  - rewrite textSliceByteLength_nil. lia.
  - rewrite !textSliceByteLength_cons, IH. lia.
Qed.

(** *** [DecodeRune] *)

Lemma leadInfo_lo p0 sz lo hi :
  leadInfo p0 = Some (sz, lo, hi) -> 0x80 <= lo /\ (2 <= sz <= 4)%nat.
Proof.
  unfold leadInfo, locb, hicb.
  repeat case_match; intros Heq; try discriminate;
    injection Heq as <- <- <-; lia.
Qed.

Lemma inRange_not_sp lo hi c :
  0x80 <= lo -> negb (inRange lo hi (byteVal c)) = false -> c <> sp.
Proof.
  unfold inRange. intros Hlo Hr ->. change (byteVal sp) with 0x20 in Hr.
  apply negb_false_iff, andb_true_iff in Hr as [Hr _].
  apply Z.leb_le in Hr. lia.
Qed.

Lemma DecodeRune_sp rest : DecodeRune (sp :: rest) = (0x20, 1%nat).
Proof. reflexivity. Qed.

(** a scalar that does not start with a space holds none, and has between
    one byte and all the bytes that are left *)
Lemma DecodeRune_no_sp c0 rest r size :
  c0 <> sp ->
  DecodeRune (c0 :: rest) = (r, size) ->
  (sp ∉ take size (c0 :: rest)) /\ (1 <= size <= length (c0 :: rest))%nat.
Proof.
  intros Hc0. unfold DecodeRune.
  assert (Hone : sp ∉ take 1 (c0 :: rest)).
  { simpl. rewrite take_0. intros Hin. apply list_elem_of_singleton in Hin. congruence. }
  assert (Hlen1 : (1 <= 1 <= length (c0 :: rest))%nat) by (simpl; lia).
  case_match; [intros [= <- <-]; done|].
  destruct (leadInfo (byteVal c0)) as [[[sz lo] hi]|] eqn:Hlead;
    [|intros [= <- <-]; done].
  apply leadInfo_lo in Hlead as [Hlo Hsz].
  case_match; [intros [= <- <-]; done|].
  destruct rest as [|c1 rest1]; [intros [= <- <-]; done|].
  destruct (negb (inRange lo hi (byteVal c1))) eqn:Hr1; [intros [= <- <-]; done|].
  apply inRange_not_sp in Hr1; [|done].
  case_match.
  { intros [= <- <-]. split; [|simpl; lia].
    simpl. rewrite take_0. intros Hin.
    apply elem_of_cons in Hin as [?|Hin]; [congruence|].
    apply list_elem_of_singleton in Hin. congruence. }
  destruct rest1 as [|c2 rest2]; [intros [= <- <-]; done|].
  destruct (negb (inRange locb hicb (byteVal c2))) eqn:Hr2; [intros [= <- <-]; done|].
  apply inRange_not_sp in Hr2; [|unfold locb; lia].
  case_match.
  { intros [= <- <-]. split; [|simpl; lia].
    simpl. rewrite take_0. intros Hin.
    repeat (apply elem_of_cons in Hin as [?|Hin]; [congruence|]).
    by apply elem_of_nil in Hin. }
  destruct rest2 as [|c3 rest3]; [intros [= <- <-]; done|].
  destruct (negb (inRange locb hicb (byteVal c3))) eqn:Hr3; [intros [= <- <-]; done|].
  apply inRange_not_sp in Hr3; [|unfold locb; lia].
  intros [= <- <-]. split; [|simpl; lia].
  simpl. rewrite take_0. intros Hin.
  repeat (apply elem_of_cons in Hin as [?|Hin]; [congruence|]).
  by apply elem_of_nil in Hin.
Qed.

Lemma DecodeRune_size p r size :
  p <> [] -> DecodeRune p = (r, size) -> (1 <= size <= length p)%nat.
Proof.
  destruct p as [|c0 rest]; [done|]. intros _ Hd.
  destruct (decide (c0 = sp)) as [->|Hc].
  - rewrite DecodeRune_sp in Hd. injection Hd as <- <-. simpl. lia.
  - by apply (DecodeRune_no_sp _ _ _ _ Hc) in Hd as [_ ?].
Qed.

Lemma classify_sp : classify 0x20 1 = wordOther.
Proof. reflexivity. Qed.

(** *** [toLower] *)

Lemma toLowerByte_sp b : toLowerByte b = sp -> b = sp.
Proof.
  unfold toLowerByte. case_match eqn:Hup; [|done].
  apply andb_true_iff in Hup as [Hlo Hhi].
  apply Z.leb_le in Hlo, Hhi. intros Heq. exfalso.
  apply (f_equal N_of_ascii) in Heq.
  rewrite N_ascii_embedding in Heq by lia.
  change (N_of_ascii sp) with 32%N in Heq. lia.
Qed.

Lemma toLower_length w : length (toLower w) = length w.
Proof. unfold toLower. by rewrite length_map. Qed.

Lemma toLower_sp w : sp ∈ toLower w -> sp ∈ w.
Proof.
  unfold toLower. intros Hin. apply list_elem_of_fmap in Hin as (b & Hb & Hin).
  symmetry in Hb. apply toLowerByte_sp in Hb. by subst.
Qed.

Lemma toLower_space w : toLower w = space -> w = space.
Proof.
  destruct w as [|b [|? ?]]; try discriminate.
  unfold toLower, space. simpl. intros [= Hb]. apply toLowerByte_sp in Hb. by subst.
Qed.

(** *** Slices *)

Lemma slice_length {A} (text : list A) lo hi :
  (lo <= hi <= length text)%nat -> length (slice text lo hi) = (hi - lo)%nat.
Proof. intros ?. unfold slice. rewrite length_take, length_drop. lia. Qed.

Lemma slice_app {A} (text : list A) a b c :
  (a <= b <= c)%nat -> slice text a b ++ slice text b c = slice text a c.
Proof.
  intros ?. unfold slice.
  replace (c - a)%nat with ((b - a) + (c - b))%nat by lia.
  rewrite <- take_take_drop, drop_drop. do 3 f_equal. lia.
Qed.

Lemma take_slice {A} (text : list A) a c :
  (a <= c)%nat -> take c text = take a text ++ slice text a c.
Proof.
  intros ?. unfold slice.
  replace c with (a + (c - a))%nat at 1 by lia.
  by rewrite <- take_take_drop.
Qed.

Lemma slice_next {A} (text : list A) c size :
  slice text c (c + size) = take size (drop c text).
Proof. unfold slice. f_equal. lia. Qed.

Lemma slice_empty {A} (text : list A) c : slice text c c = [].
Proof. unfold slice. by rewrite Nat.sub_diag, take_0. Qed.

(** *** The loop invariant *)

Lemma countSpaces_space : countSpaces space = 1%nat.
Proof. reflexivity. Qed.

Lemma emitWord_inv text s :
  splitInv text s ->
  let out := emitWord (sp_output s) text (sp_preWordType s)
               (sp_preWordStart s) (sp_current s) in
  Forall (fun w => sp ∉ w) out
  /\ textSliceByteLength out + Z.of_nat (countSpaces (take (sp_current s) text))
     = Z.of_nat (sp_current s).
Proof.
  intros [Hb Hout Hrun Hcount]. unfold emitWord.
  set (run := slice text (sp_preWordStart s) (sp_current s)) in *.
  assert (Hlen : length run = (sp_current s - sp_preWordStart s)%nat)
    by (apply slice_length; lia).
  rewrite (take_slice text (sp_preWordStart s) (sp_current s)) by lia.
  fold run. rewrite countSpaces_app.
  set (word := if wordType_eqb (sp_preWordType s) wordAlpha then toLower run else run).
  assert (Hwlen : length word = length run).
  { unfold word. case_match; [apply toLower_length|done]. }
  unfold Text_eqb. destruct (bool_decide_reflect (word = space)) as [Hw|Hw]; simpl.
  - (* the run is one space: dropped *)
    assert (run = space) as Hr.
    { unfold word in Hw. case_match; [by apply toLower_space|done]. }
    split; [done|]. rewrite Hr, countSpaces_space.
    rewrite Hr in Hlen. simpl in Hlen. lia.
  - (* the run is appended *)
    assert (sp ∉ run) as Hr.
    { destruct Hrun as [?|[Hty Hr]]; [done|]. exfalso. apply Hw.
      unfold word. by rewrite Hty. }
    split.
    + apply Forall_app. split; [done|]. apply Forall_singleton.
      unfold word. case_match; [|done]. intros Hin. by apply toLower_sp in Hin.
    + rewrite textSliceByteLength_app, textSliceByteLength_cons,
        textSliceByteLength_nil, (countSpaces_0 run) by done. lia.
Qed.

Lemma splitStep_inv text s :
  splitInv text s -> (sp_current s < length text)%nat ->
  splitInv text (splitStep text s)
  /\ (sp_current s < sp_current (splitStep text s))%nat.
Proof.
  intros Hinv Hlt. pose proof (emitWord_inv text s Hinv) as [Hout' Hcount'].
  destruct Hinv as [Hb Hout Hrun Hcount].
  unfold splitStep.
  destruct (drop (sp_current s) text) as [|c0 rest] eqn:Hdrop.
  { apply (f_equal length) in Hdrop. rewrite length_drop in Hdrop. simpl in Hdrop. lia. }
  assert (Hdl : length (c0 :: rest) = (length text - sp_current s)%nat)
    by (rewrite <- Hdrop; apply length_drop).
  destruct (DecodeRune (c0 :: rest)) as [r size] eqn:Hdec.
  assert (Hsize : (1 <= size <= length (c0 :: rest))%nat)
    by (by apply (DecodeRune_size _ r)).
  assert (Hscalar : slice text (sp_current s) (sp_current s + size)
                    = take size (c0 :: rest))
    by (by rewrite slice_next, Hdrop).
  case_match eqn:Hswitch; (split; [split|]); simpl; try lia.
  - (* a new run starts at [current] *)
    case_match eqn:Hzero; [done|].
    apply negb_false_iff, Nat.eqb_eq in Hzero. by rewrite Hzero in *.
  - rewrite Hscalar. destruct (decide (c0 = sp)) as [->|Hc0].
    + right. rewrite DecodeRune_sp in Hdec. injection Hdec as <- <-.
      split; [apply classify_sp|reflexivity].
    + left. by apply (DecodeRune_no_sp _ _ _ _ Hc0) in Hdec as [? _].
  - case_match eqn:Hzero; [done|].
    apply negb_false_iff, Nat.eqb_eq in Hzero.
    assert (sp_preWordStart s = 0%nat) as Hps by lia.
    rewrite Hzero. by rewrite Hps in Hcount.
  - done.
  - (* the scalar joins the run: both are letters, or both are digits *)
    apply orb_false_iff in Hswitch as [Hsame Hother].
    apply negb_false_iff in Hsame.
    assert (sp_preWordType s <> wordOther) as Hty.
    { intros Hty. rewrite Hty in Hsame.
      destruct (classify r size); discriminate. }
    assert (c0 <> sp) as Hc0.
    { intros ->. rewrite DecodeRune_sp in Hdec. injection Hdec as <- <-.
      by rewrite classify_sp in Hother. }
    apply (DecodeRune_no_sp _ _ _ _ Hc0) in Hdec as [Hnsp _].
    left. rewrite <- (slice_app text _ (sp_current s)) by lia.
    rewrite Hscalar. intros Hin. apply elem_of_app in Hin as [Hin|Hin]; [|done].
    destruct Hrun as [?|[? _]]; done.
Qed.

Lemma splitLoop_inv fuel text s :
  splitInv text s ->
  splitInv text (splitLoop fuel text s)
  /\ ((length text - sp_current s <= fuel)%nat ->
      sp_current (splitLoop fuel text s) = length text).
Proof.
  revert s. induction fuel as [|fuel IH]; intros s Hinv; simpl.
  - split; [done|]. destruct Hinv as [Hb _ _ _]. lia.
  - case_match eqn:Hlt.
    + apply Nat.ltb_lt in Hlt.
      destruct (splitStep_inv text s Hinv Hlt) as [Hinv' Hadv].
      destruct (IH _ Hinv') as [? Hdone]. split; [done|].
      intros ?. apply Hdone. lia.
    + apply Nat.ltb_ge in Hlt. split; [done|].
      destruct Hinv as [Hb _ _ _]. lia.
Qed.

Lemma splitInv_init text :
  splitInv text {| sp_output := []; sp_current := 0;
                   sp_preWordType := wordAlpha; sp_preWordStart := 0 |}.
Proof.
  split; simpl; [lia|done| |reflexivity].
  left. rewrite slice_empty. apply not_elem_of_nil.
Qed.

(** the fuel of [splitTextToWords] is enough: the loop ends because the
    whole text has been read *)
Lemma splitLoop_done text :
  sp_current (splitLoop (length text) text
                {| sp_output := []; sp_current := 0;
                   sp_preWordType := wordAlpha; sp_preWordStart := 0 |})
  = length text.
Proof.
  destruct (splitLoop_inv (length text) text _ (splitInv_init text)) as [_ Hdone].
  apply Hdone. simpl. lia.
Qed.

Lemma splitTextToWords_no_sp text :
  Forall (fun w => sp ∉ w) (splitTextToWords text).
Proof.
  unfold splitTextToWords.
  destruct (splitLoop_inv (length text) text _ (splitInv_init text)) as [Hinv _].
  case_match.
  - by apply emitWord_inv.
  - by destruct Hinv.
Qed.

(** the atoms hold every byte of the text but its spaces *)
Lemma splitTextToWords_byteLength text :
  textSliceByteLength (splitTextToWords text)
  = Z.of_nat (length text) - Z.of_nat (countSpaces text).
Proof.
  unfold splitTextToWords.
  destruct (splitLoop_inv (length text) text _ (splitInv_init text)) as [Hinv _].
  pose proof (splitLoop_done text) as Hdone.
  set (s := splitLoop _ _ _) in *.
  case_match eqn:Hzero.
  - destruct (emitWord_inv text s Hinv) as [_ Hc].
    assert (take (sp_current s) text = text) as Htake
      by (rewrite Hdone; apply firstn_all).
    rewrite Htake in Hc. lia.
  - apply negb_false_iff, Nat.eqb_eq in Hzero.
    destruct Hinv as [Hb _ _ Hc].
    assert (length text = 0%nat) as Hl by lia.
    assert (sp_preWordStart s = 0%nat) as Hp by lia.
    rewrite Hp, take_0 in Hc. apply nil_length_inv in Hl. subst text.
    unfold countSpaces in *. simpl in *. lia.
Qed.

End Tokenizer.

(** ** The lattice: which tokens the jumpers hold *)

Section Lattice.

Context {F : Type} `{Float32Laws F}.

Implicit Types (h : Store F) (dict : Dictionary) (text : list Text)
  (tk : TokenRef) (jumpers : list (jumper F)).

Lemma feq_zero : feq fzero fzero = true.
Proof. by apply feq_spec. Qed.

(** *** The candidates *)

Lemma lookupTokens_elem h dict words tk :
  tk ∈ lookupTokens h dict words <->
  exists p k, tk = Stored p /\ p ∈ tokens dict /\ (k <= length words)%nat
              /\ textOf h (Stored p) = take k words.
Proof.
  unfold lookupTokens. rewrite list_elem_of_In, in_flat_map. split.
  - intros (k & Hk & Hin). apply in_seq in Hk.
    apply list_elem_of_In, list_elem_of_fmap in Hin as (p & -> & Hp).
    apply list_elem_of_filter in Hp as [Ht Hp].
    exists p, k. repeat split; [done|lia|done].
  - intros (p & k & -> & Hp & Hk & Ht). exists k. split.
    + apply in_seq. lia.
    + apply list_elem_of_In, list_elem_of_fmap. exists p. split; [done|].
      by apply list_elem_of_filter.
Qed.

Lemma take_slice_from {A} (l : list A) c hi k :
  (k <= length (slice l c hi))%nat -> take k (slice l c hi) = slice l c (c + k).
Proof.
  unfold slice. intros Hk. rewrite take_take.
  replace (c + k - c)%nat with k by lia. f_equal.
  rewrite length_take in Hk. lia.
Qed.

Lemma matches_spec h dict text current tk :
  dictWF h dict -> tk ∈ matches h dict text current ->
  (1 <= tokLen h tk)%nat /\ (current + tokLen h tk <= length text)%nat
  /\ textOf h tk = slice text current (current + tokLen h tk).
Proof.
  intros Hwf Hin. apply lookupTokens_elem in Hin as (p & k & -> & Hp & Hk & Ht).
  pose proof (Hwf p Hp) as Hne.
  assert (Hlen : tokLen h (Stored p) = k).
  { unfold tokLen. rewrite Ht, length_take. lia. }
  assert (Hk1 : (1 <= k)%nat).
  { destruct k; [|lia]. rewrite Ht, take_0 in Hne. done. }
  rewrite Hlen. repeat split.
  - done.
  - unfold slice in Hk. rewrite length_take, length_drop in Hk. lia.
  - rewrite Ht. by apply take_slice_from.
Qed.

Lemma slice_one {A} (l : list A) c x : l !! c = Some x -> slice l c (c + 1) = [x].
Proof.
  intros Hx. unfold slice. replace (c + 1 - c)%nat with 1%nat by lia.
  erewrite drop_S by done. simpl. by rewrite take_0.
Qed.

(** a candidate has at least one atom, ends inside the text, and its text
    is the stretch of atoms it spans *)
Lemma candidates_spec h dict text searchMode current tk :
  dictWF h dict -> tk ∈ candidates h dict text searchMode current ->
  (1 <= tokLen h tk)%nat /\ (current + tokLen h tk <= length text)%nat
  /\ textOf h tk = slice text current (current + tokLen h tk).
Proof.
  intros Hwf Hin. unfold candidates in Hin.
  apply elem_of_app in Hin as [Hin|Hin].
  - apply list_elem_of_filter in Hin as [_ Hin]. by eapply matches_spec.
  - case_match; [|by apply elem_of_nil in Hin].
    destruct (text !! current) as [atom|] eqn:Hat; [|by apply elem_of_nil in Hin].
    apply list_elem_of_singleton in Hin as ->.
    apply lookup_lt_Some in Hat as Hlt.
    unfold tokLen, textOf. simpl. repeat split; [lia|lia|].
    symmetry. by apply slice_one.
Qed.

(** in search mode no candidate spans the whole text, unless the text is
    one atom long *)
Lemma candidates_not_whole h dict text current tk :
  length text <> 1%nat ->
  tk ∈ candidates h dict text true current ->
  (current + tokLen h tk)%nat = length text -> current <> 0%nat.
Proof.
  intros Hn Hin Hend ->. unfold candidates in Hin.
  apply elem_of_app in Hin as [Hin|Hin].
  - apply list_elem_of_filter in Hin as [Hw _]. unfold wholeSpan in Hw. simpl in Hw.
    apply Z.eqb_neq in Hw. lia.
  - case_match; [|by apply elem_of_nil in Hin].
    destruct (text !! 0%nat) as [atom|]; [|by apply elem_of_nil in Hin].
    apply list_elem_of_singleton in Hin as ->.
    unfold tokLen, textOf in Hend. simpl in Hend. lia.
Qed.

(** every atom is the end of a one-atom candidate relaxed at it: the
    shortest match when it has one atom, the synthetic token otherwise *)
Lemma candidates_one h dict text searchMode current :
  dictWF h dict -> (searchMode = true -> length text <> 1%nat) ->
  (current < length text)%nat ->
  exists tk, tk ∈ candidates h dict text searchMode current /\ tokLen h tk = 1%nat.
Proof.
  intros Hwf Hn Hlt. unfold candidates.
  destruct (lookup_lt_is_Some_2 text current Hlt) as [atom Hat]. rewrite Hat.
  destruct (needsFallback h (matches h dict text current)) eqn:Hfb.
  - exists (Synthetic atom). split; [|done].
    apply elem_of_app. right. by apply list_elem_of_singleton.
  - unfold needsFallback in Hfb.
    destruct (matches h dict text current) as [|tk0 rest] eqn:Hm; [done|].
    apply Nat.ltb_ge in Hfb.
    assert (tk0 ∈ matches h dict text current) as Hin by (rewrite Hm; left).
    apply (matches_spec _ _ _ _ _ Hwf) in Hin as (Hone & _ & _).
    exists tk0. split; [|lia].
    apply elem_of_app. left. apply list_elem_of_filter. split; [|left].
    unfold wholeSpan. destruct searchMode; [|done]. simpl.
    destruct current; simpl; [|done].
    apply Z.eqb_neq. specialize (Hn eq_refl). lia.
Qed.

(** *** One relaxation *)

Lemma relaxed_mono h dict text searchMode c processed tk0 s tk :
  relaxed h dict text searchMode c processed s tk ->
  relaxed h dict text searchMode c (processed ++ [tk0]) s tk.
Proof.
  intros [?|[? ?]]; [by left|]. right. split; [done|].
  apply elem_of_app. by left.
Qed.

Lemma relaxed_snoc h dict text searchMode c processed tk0 s tk :
  relaxed h dict text searchMode c (processed ++ [tk0]) s tk ->
  relaxed h dict text searchMode c processed s tk \/ (s = c /\ tk = tk0).
Proof.
  intros [?|[? Hin]]; [left; by left|].
  apply elem_of_app in Hin as [?|Hin]; [left; by right|].
  apply list_elem_of_singleton in Hin. by right.
Qed.

Lemma relaxed_last h dict text searchMode c processed tk :
  relaxed h dict text searchMode c (processed ++ [tk]) c tk.
Proof. right. split; [done|]. apply elem_of_app. right. by apply list_elem_of_singleton. Qed.

Lemma relaxed_next h dict text searchMode c s tk :
  relaxed h dict text searchMode (S c) [] s tk <->
  relaxed h dict text searchMode c (candidates h dict text searchMode c) s tk.
Proof.
  unfold relaxed. split.
  - intros [[Hlt Hin]|[_ Hin]]; [|by apply elem_of_nil in Hin].
    destruct (decide (s = c)) as [->|Hne]; [by right|]. left. split; [lia|done].
  - intros [[Hlt Hin]|[-> Hin]]; left; (split; [lia|done]).
Qed.

Lemma updateJumper_token h j base tk :
  j_token (updateJumper h j base tk) = Some tk
  \/ (updateJumper h j base tk = j /\ feq (minDistance j) fzero = false).
Proof.
  unfold updateJumper.
  destruct (feq (minDistance j) fzero) eqn:Hz; simpl; [by left|].
  case_match; [by left|by right].
Qed.

Lemma updateAt_Some jumpers (location : nat) f j :
  jumpers !! location = Some j ->
  updateAt jumpers (Z.of_nat location) f = Some (<[location := f j]> jumpers).
Proof.
  intros Hj. unfold updateAt.
  case_match eqn:Hneg; [apply Z.ltb_lt in Hneg; lia|].
  rewrite Nat2Z.id, Hj. reflexivity.
Qed.

(** relaxing at [c] a token that ends inside the text touches the jumper
    it ends on and keeps the invariant *)
Lemma relax_structInv h dict text searchMode c processed jumpers base tk :
  structInv h dict text searchMode c processed jumpers ->
  (1 <= tokLen h tk)%nat -> (c + tokLen h tk <= length text)%nat ->
  exists jumpers',
    updateAt jumpers (Z.of_nat c + Z.of_nat (tokLen h tk) - 1)
      (fun j => updateJumper h j base tk) = Some jumpers'
    /\ structInv h dict text searchMode c (processed ++ [tk]) jumpers'.
Proof.
  intros [Hlen Hinv] Hone Hend.
  set (loc := (c + tokLen h tk - 1)%nat).
  replace (Z.of_nat c + Z.of_nat (tokLen h tk) - 1) with (Z.of_nat loc) by lia.
  destruct (lookup_lt_is_Some_2 jumpers loc ltac:(lia)) as [j0 Hj0].
  eexists. split; [by apply updateAt_Some|]. split; [by rewrite length_insert|].
  intros i j Hj. destruct (decide (i = loc)) as [->|Hne].
  - rewrite list_lookup_insert_eq in Hj by (by eapply lookup_lt_Some).
    injection Hj as <-. right.
    destruct (updateJumper_token h j0 base tk) as [Htk|[Heq Hnz]].
    + exists c, tk. split; [done|]. split; [apply relaxed_last|lia].
    + rewrite Heq. destruct (Hinv _ _ Hj0) as [[-> _]|(s & tk' & ? & ? & ?)].
      * simpl in Hnz. by rewrite feq_zero in Hnz.
      * exists s, tk'. split; [done|]. split; [by apply relaxed_mono|done].
  - rewrite list_lookup_insert_ne in Hj by done.
    destruct (Hinv _ _ Hj) as [[-> Hno]|(s & tk' & ? & ? & ?)].
    + left. split; [done|]. intros s tk' Hr.
      apply relaxed_snoc in Hr as [Hr|[-> ->]]; [by apply Hno|lia].
    + right. exists s, tk'. split; [done|]. split; [by apply relaxed_mono|done].
Qed.

(** *** The forward loop keeps an invariant that every relaxation keeps *)

Section Invariant.

Variable P : list TokenRef -> list (jumper F) -> Prop.

(** the loop over the matches relaxes those that are not excluded *)
Lemma relaxTokens_inv h text searchMode c base toks :
  (forall processed jumpers tk,
     P processed jumpers -> tk ∈ toks ->
     wholeSpan text searchMode c (tokLen h tk) = false ->
     exists jumpers',
       updateAt jumpers (Z.of_nat c + Z.of_nat (tokLen h tk) - 1)
         (fun j => updateJumper h j base tk) = Some jumpers'
       /\ P (processed ++ [tk]) jumpers') ->
  forall processed jumpers,
  P processed jumpers ->
  exists jumpers',
    relaxTokens h text searchMode c base toks jumpers = Some jumpers'
    /\ P (processed
          ++ filter (fun tk => wholeSpan text searchMode c (tokLen h tk) = false) toks)
         jumpers'.
Proof.
  induction toks as [|tk toks IH]; intros Hstep processed jumpers Hinv; simpl.
  - exists jumpers. split; [done|]. by rewrite filter_nil, app_nil_r.
  - rewrite filter_cons. fold (tokLen h tk).
    assert (Hcond :
      negb searchMode || negb (c =? 0)%nat
      || negb (Z.of_nat c + Z.of_nat (tokLen h tk) - 1 =? Z.of_nat (length text) - 1)
      = negb (wholeSpan text searchMode c (tokLen h tk))).
    { unfold wholeSpan. by rewrite !negb_andb. }
    rewrite Hcond.
    assert (Hrest : forall processed jumpers tk,
      P processed jumpers -> tk ∈ toks ->
      wholeSpan text searchMode c (tokLen h tk) = false ->
      exists jumpers',
        updateAt jumpers (Z.of_nat c + Z.of_nat (tokLen h tk) - 1)
          (fun j => updateJumper h j base tk) = Some jumpers'
        /\ P (processed ++ [tk]) jumpers').
    { intros ? ? tk' ? ? ?. apply Hstep; [done|by right|done]. }
    destruct (wholeSpan text searchMode c (tokLen h tk)) eqn:Hw; simpl.
    + destruct (decide (true = false)) as [|_]; [done|]. by apply IH.
    + destruct (decide (false = false)) as [_|]; [|done].
      destruct (Hstep processed jumpers tk Hinv ltac:(left) Hw)
        as (jumpers1 & -> & Hinv1). simpl.
      destruct (IH Hrest (processed ++ [tk]) jumpers1 Hinv1) as (jumpers' & -> & Hinv').
      exists jumpers'. split; [done|]. by rewrite <- app_assoc in Hinv'.
Qed.

(** one iteration of the forward loop relaxes the candidates of [c], from
    the distance found before [c] *)
Lemma forwardStep_inv h dict text searchMode c jumpers :
  (c < length text)%nat -> length jumpers = length text ->
  (forall processed jumpers' tk,
     P processed jumpers' -> tk ∈ candidates h dict text searchMode c ->
     exists jumpers'',
       updateAt jumpers' (Z.of_nat c + Z.of_nat (tokLen h tk) - 1)
         (fun j => updateJumper h j (baseOf jumpers c) tk) = Some jumpers''
       /\ P (processed ++ [tk]) jumpers'') ->
  P [] jumpers ->
  exists jumpers',
    forwardStep h dict text searchMode c jumpers = Some jumpers'
    /\ P (candidates h dict text searchMode c) jumpers'.
Proof.
  intros Hlt Hlen Hstep Hinv. unfold forwardStep.
  assert ((if (c =? 0)%nat then Some fzero
           else jumpers !! (c - 1)%nat ≫= (fun j => Some (minDistance j)))
          = Some (baseOf jumpers c)) as ->.
  { destruct c; simpl; [done|]. rewrite Nat.sub_0_r.
    destruct (lookup_lt_is_Some_2 jumpers c ltac:(lia)) as [j ->]. done. }
  simpl. fold (matches h dict text c).
  destruct (relaxTokens_inv h text searchMode c (baseOf jumpers c)
              (matches h dict text c)) with (processed := @nil TokenRef)
              (jumpers := jumpers)
    as (jumpers1 & -> & Hinv1); [|done|].
  { intros processed jumpers' tk HP Hin Hw. apply Hstep; [done|].
    unfold candidates. apply elem_of_app. left. by apply list_elem_of_filter. }
  simpl in *.
  assert (Hfb : match matches h dict text c with
                | [] => true
                | tk0 :: _ => (1 <? length (textOf h tk0))%nat
                end = needsFallback h (matches h dict text c)) by done.
  rewrite Hfb.
  destruct (lookup_lt_is_Some_2 text c Hlt) as [atom Hat].
  assert (Hcand : candidates h dict text searchMode c
    = filter (fun tk => wholeSpan text searchMode c (tokLen h tk) = false)
             (matches h dict text c)
      ++ (if needsFallback h (matches h dict text c) then [Synthetic atom] else []))
    by (unfold candidates; by rewrite Hat).
  rewrite Hcand in *.
  destruct (needsFallback h (matches h dict text c)) eqn:Hnf.
  - rewrite Hat. simpl.
    destruct (Hstep _ _ (Synthetic atom) Hinv1) as (jumpers' & Hup & Hinv').
    { apply elem_of_app. right. by apply list_elem_of_singleton. }
    replace (Z.of_nat c + Z.of_nat (tokLen h (Synthetic atom)) - 1)
      with (Z.of_nat c) in Hup by (unfold tokLen, textOf; simpl; lia).
    by exists jumpers'.
  - exists jumpers1. split; [done|]. by rewrite app_nil_r.
Qed.

End Invariant.

Lemma structInv_next h dict text searchMode c jumpers :
  structInv h dict text searchMode c (candidates h dict text searchMode c) jumpers ->
  structInv h dict text searchMode (S c) [] jumpers.
Proof.
  intros [Hlen Hinv]. split; [done|]. intros i j Hj.
  destruct (Hinv _ _ Hj) as [[-> Hno]|(s & tk & ? & ? & ?)].
  - left. split; [done|]. intros s tk Hr. apply Hno. by apply relaxed_next.
  - right. exists s, tk. split; [done|]. split; [by apply relaxed_next|done].
Qed.

Lemma forwardStep_structInv h dict text searchMode c jumpers :
  dictWF h dict -> (c < length text)%nat ->
  structInv h dict text searchMode c [] jumpers ->
  exists jumpers',
    forwardStep h dict text searchMode c jumpers = Some jumpers'
    /\ structInv h dict text searchMode (S c) [] jumpers'.
Proof.
  intros Hwf Hlt Hinv.
  destruct (forwardStep_inv (structInv h dict text searchMode c)
              h dict text searchMode c jumpers Hlt)
    as (jumpers' & Hrun & Hinv'); [by destruct Hinv| |done|].
  - intros processed jumpers' tk HP Hin.
    destruct (candidates_spec _ _ _ _ _ _ Hwf Hin) as (Hone & Hend & _).
    by apply relax_structInv.
  - exists jumpers'. split; [done|]. by apply structInv_next.
Qed.

Lemma forwardLoop_structInv h dict text searchMode steps :
  forall c jumpers,
  dictWF h dict -> (c + steps = length text)%nat ->
  structInv h dict text searchMode c [] jumpers ->
  exists jumpers',
    forwardLoop h dict text searchMode steps c jumpers = Some jumpers'
    /\ structInv h dict text searchMode (length text) [] jumpers'.
Proof.
  induction steps as [|steps IH]; intros c jumpers Hwf Hc Hinv; simpl.
  - exists jumpers. split; [done|]. by replace (length text) with c by lia.
  - destruct (forwardStep_structInv h dict text searchMode c jumpers Hwf)
      as (jumpers1 & -> & Hinv1); [lia|done|].
    simpl. apply IH; [done|lia|done].
Qed.

Lemma structInv_init h dict text searchMode :
  structInv h dict text searchMode 0 [] (replicate (length text) newJumper).
Proof.
  split; [by rewrite length_replicate|]. intros i j Hj.
  apply lookup_replicate in Hj as [-> _]. left. split; [done|].
  intros s tk [[? _]|[_ Hin]]; [lia|by apply elem_of_nil in Hin].
Qed.

(** at the end of the forward loop every jumper holds a candidate that
    ends on it *)
Lemma forward_tokens h dict text searchMode :
  dictWF h dict -> (searchMode = true -> length text <> 1%nat) ->
  exists jumpers,
    forwardResult h dict text searchMode = Some jumpers
    /\ length jumpers = length text
    /\ forall i, (i < length text)%nat ->
         exists j s tk,
           jumpers !! i = Some j /\ j_token j = Some tk
           /\ tk ∈ candidates h dict text searchMode s
           /\ (s + tokLen h tk)%nat = S i.
Proof.
  intros Hwf Hn.
  destruct (forwardLoop_structInv h dict text searchMode (length text) 0 _ Hwf
              ltac:(lia) (structInv_init h dict text searchMode))
    as (jumpers & Hrun & Hlen & Hinv).
  exists jumpers. split; [done|]. split; [done|]. intros i Hi.
  destruct (lookup_lt_is_Some_2 jumpers i ltac:(lia)) as [j Hj].
  destruct (Hinv _ _ Hj) as [[_ Hno]|(s & tk & Htk & Hr & Hend)].
  - destruct (candidates_one h dict text searchMode i Hwf Hn Hi) as (tk & Hin & Hl).
    exfalso. apply (Hno i tk); [|lia]. left. by split.
  - exists j, s, tk. repeat split; try done.
    destruct Hr as [[_ ?]|[_ Hin]]; [done|by apply elem_of_nil in Hin].
Qed.

End Lattice.

(** ** The backward scans and the byte positions *)

Section Reconstruction.

Context {F : Type} `{Float32Laws F}.

Implicit Types (h : Store F) (dict : Dictionary) (text : list Text)
  (tk : TokenRef) (jumpers : list (jumper F)).

Lemma backStep_Some h jumpers (i : nat) j tk :
  jumpers !! i = Some j -> j_token j = Some tk ->
  backStep h jumpers (Z.of_nat i)
  = Some (tk, Z.of_nat i - Z.of_nat (tokLen h tk) + 1 - 1).
Proof.
  intros Hj Htk. unfold backStep.
  case_match eqn:Hneg; [apply Z.ltb_lt in Hneg; lia|].
  rewrite Nat2Z.id, Hj. simpl. rewrite Htk. reflexivity.
Qed.

Lemma backStep_inv h jumpers index tk next :
  backStep h jumpers index = Some (tk, next) ->
  0 <= index
  /\ (exists j, jumpers !! Z.to_nat index = Some j /\ j_token j = Some tk)
  /\ next = index - Z.of_nat (tokLen h tk).
Proof.
  unfold backStep. case_match eqn:Hneg; [done|]. apply Z.ltb_ge in Hneg.
  destruct (jumpers !! Z.to_nat index) as [j|] eqn:Hj; [|done]. simpl.
  destruct (j_token j) as [tk'|] eqn:Htk; [|done]. simpl.
  intros [= -> <-]. split; [done|]. split; [by exists j|]. unfold tokLen. lia.
Qed.

(** the scan from the atom before [m] finds tokens that cover the first
    [m] atoms, each a candidate of the place where it starts *)
Lemma backPath_exists h dict text searchMode jumpers :
  dictWF h dict ->
  (forall i, (i < length text)%nat ->
     exists j s tk,
       jumpers !! i = Some j /\ j_token j = Some tk
       /\ tk ∈ candidates h dict text searchMode s
       /\ (s + tokLen h tk)%nat = S i) ->
  forall m, (m <= length text)%nat ->
  exists toks,
    BackPath h jumpers (Z.of_nat m - 1) toks
    /\ concat (map (textOf h) toks) = take m text
    /\ Forall (fun tk => exists s, tk ∈ candidates h dict text searchMode s
                                   /\ (s + tokLen h tk <= m)%nat) toks.
Proof.
  intros Hwf Hjump m. induction m as [m IH] using lt_wf_ind. intros Hm.
  destruct m as [|i].
  - exists []. split; [constructor; lia|]. split; [by rewrite take_0|done].
  - destruct (Hjump i ltac:(lia)) as (j & s & tk & Hj & Htk & Hin & Hend).
    destruct (candidates_spec _ _ _ _ _ _ Hwf Hin) as (Hone & _ & Htext).
    destruct (IH s ltac:(lia) ltac:(lia)) as (toks & Hpath & Hcat & Hall).
    exists (toks ++ [tk]). split; [|split].
    + econstructor.
      * replace (Z.of_nat (S i) - 1) with (Z.of_nat i) by lia.
        by apply (backStep_Some _ _ _ j).
      * replace (Z.of_nat i - Z.of_nat (tokLen h tk) + 1 - 1)
          with (Z.of_nat s - 1) by lia. done.
    + rewrite map_app, concat_app, Hcat. simpl. rewrite app_nil_r, Htext, Hend.
      symmetry. apply take_slice. lia.
    + apply Forall_app. split.
      * eapply Forall_impl; [done|]. intros tk' (s' & ? & ?). exists s'. split; [done|lia].
      * apply Forall_singleton. exists s. split; [done|lia].
Qed.

Lemma countSegments_path h jumpers index toks :
  BackPath h jumpers index toks ->
  forall fuel numSeg, (length toks <= fuel)%nat ->
  countSegments h jumpers fuel index numSeg = Some (numSeg + length toks)%nat.
Proof.
  induction 1 as [index Hneg|index tk next toks Hstep _ IH]; intros fuel numSeg Hfuel.
  - apply Z.ltb_lt in Hneg. destruct fuel; simpl; rewrite Hneg; f_equal; lia.
  - rewrite length_app in *. simpl in *.
    destruct (backStep_inv _ _ _ _ _ Hstep) as (Hpos & _ & _).
    destruct fuel as [|fuel]; [lia|]. simpl.
    destruct (index <? 0) eqn:Hneg; [apply Z.ltb_lt in Hneg; lia|].
    rewrite Hstep. simpl. rewrite IH by lia. f_equal. lia.
Qed.

Lemma fillSegments_path h jumpers index toks :
  BackPath h jumpers index toks ->
  forall fuel (numSeg : nat) slots,
  (length toks <= fuel)%nat -> (length toks <= numSeg <= length slots)%nat ->
  fillSegments h jumpers fuel index (Z.of_nat numSeg) slots
  = Some (take (numSeg - length toks) slots ++ map Some toks ++ drop numSeg slots).
Proof.
  induction 1 as [index Hneg|index tk next toks Hstep _ IH];
    intros fuel numSeg slots Hfuel Hnum.
  - apply Z.ltb_lt in Hneg. simpl. rewrite Nat.sub_0_r, take_drop.
    destruct fuel; simpl; by rewrite Hneg.
  - rewrite length_app in *. simpl in *.
    destruct (backStep_inv _ _ _ _ _ Hstep) as (Hpos & _ & _).
    destruct fuel as [|fuel]; [lia|]. simpl.
    destruct (index <? 0) eqn:Hneg; [apply Z.ltb_lt in Hneg; lia|].
    rewrite Hstep. simpl.
    destruct numSeg as [|numSeg]; [lia|].
    replace (Z.of_nat (S numSeg) - 1) with (Z.of_nat numSeg) by lia.
    case_match eqn:Hrange.
    { apply orb_true_iff in Hrange as [Hr|Hr];
        [apply Z.ltb_lt in Hr|apply Z.leb_le in Hr]; lia. }
    rewrite Nat2Z.id, IH by (rewrite ?length_insert; lia).
    f_equal. rewrite take_insert_ge by lia.
    replace (S numSeg - (length toks + 1))%nat with (numSeg - length toks)%nat by lia.
    rewrite map_app, <- !app_assoc. do 2 f_equal. simpl.
    destruct (lookup_lt_is_Some_2 slots numSeg ltac:(lia)) as [x Hx].
    rewrite drop_insert_ge by lia. rewrite Nat.sub_diag.
    erewrite drop_S by done. reflexivity.
Qed.

Lemma bytePositions_spans h toks b :
  bytePositions h (map Some toks) b = Some (spans h toks b).
Proof.
  revert b. induction toks as [|tk toks IH]; intros b; simpl; [done|].
  by rewrite IH.
Qed.

Lemma spans_tokens h toks b : map token (spans h toks b) = toks.
Proof. revert b. induction toks as [|tk toks IH]; intros b; simpl; [done|]. by rewrite IH. Qed.

Lemma textSliceByteLength_concat (l : list (list Text)) :
  textSliceByteLength (concat l)
  = foldr (fun ws acc => textSliceByteLength ws + acc) 0 l.
Proof.
  induction l as [|ws l IH]; simpl; [done|].
  by rewrite textSliceByteLength_app, IH.
Qed.

Lemma spanSum_spans h toks b :
  spanSum (spans h toks b) = textSliceByteLength (concat (map (textOf h) toks)).
Proof.
  rewrite textSliceByteLength_concat. revert b.
  induction toks as [|tk toks IH]; intros b; simpl; [done|].
  rewrite IH. lia.
Qed.

Lemma spanSum_filter (P : Segment -> bool) segs :
  spanSum (filter (fun s => negb (P s)) segs) + spanSum (filter (fun s => P s) segs)
  = spanSum segs.
Proof.
  induction segs as [|s segs IH]; simpl; [done|].
  rewrite !filter_cons. destruct (P s); simpl.
  - destruct (decide (Is_true false)) as [[]|_].
    destruct (decide (Is_true true)) as [_|Hn]; [|by destruct Hn].
    simpl. lia.
  - destruct (decide (Is_true true)) as [_|Hn]; [|by destruct Hn].
    destruct (decide (Is_true false)) as [[]|_].
    simpl. lia.
Qed.

(** the segments before the stop-word filter: the scans end without a
    panic, and the tokens found cover the atoms *)
Lemma outputSegments_spec h dict text searchMode :
  dictWF h dict -> (searchMode = true -> length text <> 1%nat) ->
  exists toks,
    outputSegments h dict text searchMode = Some (spans h toks 0)
    /\ concat (map (textOf h) toks) = text
    /\ Forall (fun tk => exists s, tk ∈ candidates h dict text searchMode s
                                   /\ (s + tokLen h tk <= length text)%nat) toks.
Proof.
  intros Hwf Hn.
  destruct (forward_tokens h dict text searchMode Hwf Hn)
    as (jumpers & Hrun & Hlen & Hjump).
  destruct (backPath_exists h dict text searchMode jumpers Hwf Hjump
              (length text) ltac:(lia)) as (toks & Hpath & Hcat & Hall).
  rewrite firstn_all in Hcat.
  assert (Hk : (length toks <= length text)%nat).
  { rewrite <- Hcat. clear -Hall Hwf.
    induction Hall as [|tk toks (s & Hin & _) _ IH]; simpl; [lia|].
    destruct (candidates_spec _ _ _ _ _ _ Hwf Hin) as (Hone & _).
    rewrite length_app. unfold tokLen in Hone. lia. }
  exists toks. split; [|done].
  unfold outputSegments. unfold forwardResult in Hrun. rewrite Hrun. simpl.
  rewrite (countSegments_path _ _ _ _ Hpath) by lia. simpl.
  rewrite (fillSegments_path _ _ _ _ Hpath) by (rewrite ?length_replicate; lia).
  simpl. rewrite Nat.sub_diag, take_0, drop_replicate, Nat.sub_diag, app_nil_r.
  simpl. apply bytePositions_spans.
Qed.

(** [segmentWords] returns, and the tokens of its segments are candidates *)
Lemma segmentWords_candidates h dict text searchMode :
  dictWF h dict ->
  exists segs,
    segmentWords h dict text searchMode = Some segs
    /\ Forall (fun s => exists c, token s ∈ candidates h dict text searchMode c
                                  /\ (c + tokLen h (token s) <= length text)%nat
                                  /\ ~ (searchMode = true /\ length text = 1%nat)) segs.
Proof.
  intros Hwf. unfold segmentWords.
  destruct (searchMode && (length text =? 1)%nat) eqn:Hone.
  { exists []. by split. }
  assert (Hn : searchMode = true -> length text <> 1%nat).
  { intros ->. simpl in Hone. by apply Nat.eqb_neq in Hone. }
  destruct (outputSegments_spec h dict text searchMode Hwf Hn)
    as (toks & Hout & _ & Hall).
  rewrite Hout. simpl. eexists. split; [done|].
  apply Forall_forall. intros s Hs. apply list_elem_of_filter in Hs as [_ Hs].
  assert (token s ∈ toks) as Hin.
  { rewrite <- (spans_tokens h toks 0). apply list_elem_of_fmap. by exists s. }
  destruct (proj1 (Forall_forall _ _) Hall _ Hin) as (c & Hc & Hend).
  exists c. split; [done|]. split; [done|]. intros [Hs1 Hl]. by apply Hn.
Qed.

End Reconstruction.

(** ** The lattice: which distances the jumpers hold *)

Section ShortestPath.

Context {F : Type} `{Float32Laws F}.

Implicit Types (h : Store F) (dict : Dictionary) (text : list Text)
  (tk : TokenRef) (jumpers : list (jumper F)) (a b d : F).

(** *** The order on distances *)

Lemma fle_refl a : fle a a.
Proof. apply fgt_irrefl. Qed.

Lemma fgt_fle a b : fgt a b = true -> fle b a.
Proof.
  intros Hab. unfold fle. destruct (fgt b a) eqn:Hba; [|done].
  pose proof (fgt_trans _ _ _ Hab Hba) as Haa. by rewrite fgt_irrefl in Haa.
Qed.

Lemma fle_trans a b (c : F) : fle a b -> fle b c -> fle a c.
Proof.
  unfold fle. intros Hab Hbc. destruct (fgt a c) eqn:Hac; [|done].
  destruct (fgt b a) eqn:Hba.
  - by rewrite (fgt_trans _ _ _ Hba Hac) in Hbc.
  - rewrite (fgt_total _ _ Hab Hba) in Hac. by rewrite Hac in Hbc.
Qed.

(** [a > b] and [a <= c] give [c > b] *)
Lemma fgt_fle_trans a b (c : F) : fgt a b = true -> fle a c -> fgt c b = true.
Proof.
  intros Hab Hac. destruct (fgt c b) eqn:Hcb; [done|].
  pose proof (fle_trans a c b Hac Hcb) as Hle. unfold fle in Hle. by rewrite Hle in Hab.
Qed.

Lemma fgt_zero_ne a : fgt a fzero = true -> feq a fzero = false.
Proof.
  intros Hpos. destruct (feq a fzero) eqn:Hz; [|done].
  apply feq_spec in Hz. subst a. by rewrite fgt_irrefl in Hpos.
Qed.

(** a positive weight added to a non-negative distance is positive *)
Lemma fadd_pos b d : fle fzero b -> fgt d fzero = true -> fgt (fadd b d) fzero = true.
Proof.
  intros Hb Hd. apply (fgt_fle_trans d); [done|].
  pose proof (fadd_mono fzero b d Hb) as Hm. by rewrite fadd_zero_l in Hm.
Qed.

(** *** One relaxation *)

Lemma relaxed_le h dict text searchMode c processed s tk :
  relaxed h dict text searchMode c processed s tk -> (s <= c)%nat.
Proof. intros [[? _]|[-> _]]; lia. Qed.

Lemma baseOf_insert jumpers (loc s : nat) j :
  (s <= loc)%nat -> baseOf (<[loc := j]> jumpers) s = baseOf jumpers s.
Proof.
  intros Hs. destruct s; simpl; [done|].
  by rewrite list_lookup_insert_ne by lia.
Qed.

Lemma candidates_positive h dict text searchMode s tk :
  positiveDistances h dict -> tk ∈ candidates h dict text searchMode s ->
  fgt (distance (deref h tk)) fzero = true.
Proof.
  intros Hpos Hin. unfold candidates in Hin. apply elem_of_app in Hin as [Hin|Hin].
  - apply list_elem_of_filter in Hin as [_ Hin].
    apply lookupTokens_elem in Hin as (p & k & -> & Hp & _). by apply Hpos.
  - case_match; [|by apply elem_of_nil in Hin].
    destruct (text !! s); [|by apply elem_of_nil in Hin].
    apply list_elem_of_singleton in Hin as ->. simpl. apply f32_pos.
Qed.

(** relaxing at [c], from a non-negative base, a token of positive
    distance keeps the least distance in the jumper it ends on *)
Lemma relax_distInv h dict text searchMode c processed jumpers tk j0 :
  let loc := (c + tokLen h tk - 1)%nat in
  let base := baseOf jumpers c in
  structInv h dict text searchMode c processed jumpers ->
  distInv h dict text searchMode c processed jumpers ->
  (1 <= tokLen h tk)%nat ->
  jumpers !! loc = Some j0 ->
  fle fzero base -> fgt (distance (deref h tk)) fzero = true ->
  distInv h dict text searchMode c (processed ++ [tk])
    (<[loc := updateJumper h j0 base tk]> jumpers).
Proof.
  intros loc base [Hlen Hstruct] Hdist Hone Hj0 Hbase Hd.
  assert (Hnew : fgt (fadd base (distance (deref h tk))) fzero = true)
    by (by apply fadd_pos).
  set (jumpers' := <[loc := updateJumper h j0 base tk]> jumpers).
  assert (Hbases : forall s tk', relaxed h dict text searchMode c (processed ++ [tk]) s tk' ->
            baseOf jumpers' s = baseOf jumpers s).
  { intros s tk' Hr. apply baseOf_insert. apply relaxed_le in Hr. unfold loc. lia. }
  intros i j tk1 Hj Htk1.
  destruct (decide (i = loc)) as [->|Hne].
  - unfold jumpers' in Hj.
    rewrite list_lookup_insert_eq in Hj by (by eapply lookup_lt_Some).
    injection Hj as Hj.
    (* the jumper now holds [tk]: it was untouched, or [tk] is strictly better *)
    assert (Hfresh :
      j = {| minDistance := fadd base (distance (deref h tk)); j_token := Some tk |} ->
      (forall s' tk', relaxed h dict text searchMode c processed s' tk' ->
         (s' + tokLen h tk')%nat = S loc ->
         fle (fadd base (distance (deref h tk)))
             (fadd (baseOf jumpers s') (distance (deref h tk')))) ->
      fgt (minDistance j) fzero = true
      /\ (exists s, relaxed h dict text searchMode c (processed ++ [tk]) s tk1
            /\ (s + tokLen h tk1)%nat = S loc
            /\ minDistance j = fadd (baseOf jumpers' s) (distance (deref h tk1)))
      /\ (forall s' tk', relaxed h dict text searchMode c (processed ++ [tk]) s' tk' ->
            (s' + tokLen h tk')%nat = S loc ->
            fle (minDistance j)
                (fadd (baseOf jumpers' s') (distance (deref h tk'))))).
    { intros Heq Hold. clear Hj. subst j. simpl in *. injection Htk1 as <-.
      split; [done|]. split.
      - exists c. split; [apply relaxed_last|]. split; [unfold loc; lia|].
        rewrite (Hbases c tk) by apply relaxed_last. done.
      - intros s' tk' Hr Hend. rewrite (Hbases _ _ Hr).
        apply relaxed_snoc in Hr as [Hr|[-> ->]]; [by apply Hold|apply fle_refl]. }
    destruct (Hstruct _ _ Hj0) as [[-> Hno]|(s0 & tk0 & Htk0 & Hr0 & Hend0)].
    + (* untouched: the first relaxation of this jumper *)
      apply Hfresh.
      * rewrite <- Hj. unfold updateJumper. simpl. by rewrite feq_zero.
      * intros s' tk' Hr Hend. by destruct (Hno _ _ Hr).
    + destruct (Hdist _ _ _ Hj0 Htk0) as (Hpos0 & (s1 & Hr1 & Hend1 & Hmin1) & Hlow0).
      destruct (fgt (minDistance j0) (fadd base (distance (deref h tk)))) eqn:Hgt.
      * (* strictly better: replaced *)
        apply Hfresh.
        -- rewrite <- Hj. unfold updateJumper. by rewrite Hgt, orb_true_r.
        -- intros s' tk' Hr Hend. eapply fle_trans; [by apply fgt_fle|by apply Hlow0].
      * (* not better: kept *)
        assert (j = j0) as ->.
        { rewrite <- Hj. unfold updateJumper. by rewrite Hgt, (fgt_zero_ne _ Hpos0). }
        rewrite Htk0 in Htk1. injection Htk1 as <-.
        split; [done|]. split.
        -- exists s1. split; [by apply relaxed_mono|]. split; [done|].
           rewrite (Hbases s1 tk0) by (by apply relaxed_mono). done.
        -- intros s' tk' Hr Hend. rewrite (Hbases _ _ Hr).
           apply relaxed_snoc in Hr as [Hr|[-> ->]]; [by apply Hlow0|done].
  - unfold jumpers' in Hj. rewrite list_lookup_insert_ne in Hj by done.
    destruct (Hdist _ _ _ Hj Htk1) as (Hpos1 & (s1 & Hr1 & Hend1 & Hmin1) & Hlow1).
    split; [done|]. split.
    + exists s1. split; [by apply relaxed_mono|]. split; [done|].
      rewrite (Hbases s1 tk1) by (by apply relaxed_mono). done.
    + intros s' tk' Hr Hend. rewrite (Hbases _ _ Hr).
      apply relaxed_snoc in Hr as [Hr|[-> ->]]; [by apply Hlow1|].
      unfold loc in Hne. lia.
Qed.

(** *** The forward loop *)

(** the distance found before [c] is not negative *)
Lemma baseOf_nonneg h dict text searchMode c jumpers :
  dictWF h dict -> (searchMode = true -> length text <> 1%nat) ->
  (c <= length text)%nat ->
  structInv h dict text searchMode c [] jumpers ->
  distInv h dict text searchMode c [] jumpers ->
  fle fzero (baseOf jumpers c).
Proof.
  intros Hwf Hn Hc [Hlen Hstruct] Hdist. destruct c as [|c]; simpl; [apply fle_refl|].
  destruct (lookup_lt_is_Some_2 jumpers c ltac:(lia)) as [j Hj]. rewrite Hj. simpl.
  destruct (Hstruct _ _ Hj) as [[_ Hno]|(s & tk & Htk & _)].
  - destruct (candidates_one h dict text searchMode c Hwf Hn ltac:(lia))
      as (tk & Hin & Hl).
    exfalso. apply (Hno c tk); [|lia]. left. split; [lia|done].
  - destruct (Hdist _ _ _ Hj Htk) as (Hpos & _). by apply fgt_fle.
Qed.

Lemma distInv_next h dict text searchMode c jumpers :
  distInv h dict text searchMode c (candidates h dict text searchMode c) jumpers ->
  distInv h dict text searchMode (S c) [] jumpers.
Proof.
  intros Hinv i j tk Hj Htk.
  destruct (Hinv _ _ _ Hj Htk) as (Hpos & (s & Hr & Hend & Hmin) & Hlow).
  split; [done|]. split.
  - exists s. split; [by apply relaxed_next|done].
  - intros s' tk' Hr'. apply Hlow. by apply relaxed_next.
Qed.

Lemma forwardStep_latticeInv h dict text searchMode c jumpers :
  dictWF h dict -> positiveDistances h dict ->
  (searchMode = true -> length text <> 1%nat) -> (c < length text)%nat ->
  structInv h dict text searchMode c [] jumpers ->
  distInv h dict text searchMode c [] jumpers ->
  exists jumpers',
    forwardStep h dict text searchMode c jumpers = Some jumpers'
    /\ structInv h dict text searchMode (S c) [] jumpers'
    /\ distInv h dict text searchMode (S c) [] jumpers'.
Proof.
  intros Hwf Hpos Hn Hlt Hstruct Hdist.
  assert (Hbase : fle fzero (baseOf jumpers c))
    by (eapply baseOf_nonneg; [done|done| |done|done]; lia).
  destruct (forwardStep_inv
              (latticeInv h dict text searchMode (baseOf jumpers c) c)
              h dict text searchMode c jumpers Hlt)
    as (jumpers' & Hrun & Hs' & Hd' & _); [by destruct Hstruct| |done|].
  - intros processed jumpers1 tk (Hs1 & Hd1 & Hb1) Hin.
    destruct (candidates_spec _ _ _ _ _ _ Hwf Hin) as (Hone & Hend & _).
    destruct (relax_structInv _ _ _ _ _ _ _ (baseOf jumpers c) tk Hs1 Hone Hend)
      as (jumpers2 & Hup & Hs2).
    exists jumpers2. split; [done|].
    assert (Hl1 : length jumpers1 = length text) by (by destruct Hs1).
    destruct (lookup_lt_is_Some_2 jumpers1 (c + tokLen h tk - 1) ltac:(lia))
      as [j0 Hj0].
    replace (Z.of_nat c + Z.of_nat (tokLen h tk) - 1)
      with (Z.of_nat (c + tokLen h tk - 1)) in Hup by lia.
    rewrite (updateAt_Some _ _ _ _ Hj0) in Hup. injection Hup as <-.
    split; [done|]. split.
    + rewrite <- Hb1. apply relax_distInv; try done.
      * by rewrite Hb1.
      * by eapply candidates_positive.
    + rewrite baseOf_insert by lia. done.
  - exists jumpers'. split; [done|]. split; [by apply structInv_next|by apply distInv_next].
Qed.

Lemma forwardLoop_latticeInv h dict text searchMode steps :
  forall c jumpers,
  dictWF h dict -> positiveDistances h dict ->
  (searchMode = true -> length text <> 1%nat) ->
  (c + steps = length text)%nat ->
  structInv h dict text searchMode c [] jumpers ->
  distInv h dict text searchMode c [] jumpers ->
  exists jumpers',
    forwardLoop h dict text searchMode steps c jumpers = Some jumpers'
    /\ structInv h dict text searchMode (length text) [] jumpers'
    /\ distInv h dict text searchMode (length text) [] jumpers'.
Proof.
  induction steps as [|steps IH]; intros c jumpers Hwf Hpos Hn Hc Hs Hd; simpl.
  - exists jumpers. split; [done|]. by replace (length text) with c by lia.
  - destruct (forwardStep_latticeInv h dict text searchMode c jumpers Hwf Hpos Hn)
      as (jumpers1 & -> & Hs1 & Hd1); [lia|done|done|].
    simpl. apply IH; try done. lia.
Qed.

Lemma distInv_init h dict text searchMode :
  distInv h dict text searchMode 0 [] (replicate (length text) newJumper).
Proof. intros i j tk Hj Htk. apply lookup_replicate in Hj as [-> _]. done. Qed.

(** *** Segmentations *)

Lemma pathDistance_snoc h toks tk :
  pathDistance h (toks ++ [tk]) = fadd (pathDistance h toks) (distance (deref h tk)).
Proof. unfold pathDistance. by rewrite foldl_app. Qed.

Lemma Segmentation_inv h dict text searchMode e toks :
  Segmentation h dict text searchMode e toks ->
  (e = 0%nat /\ toks = [])
  \/ (exists s toks0 tk,
        toks = toks0 ++ [tk] /\ e = (s + tokLen h tk)%nat
        /\ Segmentation h dict text searchMode s toks0
        /\ tk ∈ candidates h dict text searchMode s).
Proof.
  intros Hseg. destruct Hseg as [|s toks0 tk Hseg Hin]; [by left|].
  right. by exists s, toks0, tk.
Qed.

(** the distance found before [e] is that of a segmentation of the first
    [e] atoms, and no segmentation of them has a smaller one *)
Lemma lattice_optimal h dict text searchMode jumpers :
  dictWF h dict -> (searchMode = true -> length text <> 1%nat) ->
  structInv h dict text searchMode (length text) [] jumpers ->
  distInv h dict text searchMode (length text) [] jumpers ->
  forall e, (e <= length text)%nat ->
    (exists toks, Segmentation h dict text searchMode e toks
                  /\ pathDistance h toks = baseOf jumpers e)
    /\ (forall toks, Segmentation h dict text searchMode e toks ->
                     fle (baseOf jumpers e) (pathDistance h toks)).
Proof.
  intros Hwf Hn [Hlen Hstruct] Hdist e.
  induction e as [e IH] using lt_wf_ind. intros He.
  destruct e as [|i].
  - split.
    + exists []. split; [constructor|done].
    + intros toks Hseg. apply Segmentation_inv in Hseg
        as [[_ ->]|(s & toks0 & tk & _ & He0 & _ & Hin)]; [apply fle_refl|].
      apply (candidates_spec _ _ _ _ _ _ Hwf) in Hin as (Hone & _). lia.
  - destruct (lookup_lt_is_Some_2 jumpers i ltac:(lia)) as [j Hj].
    simpl. rewrite Hj. simpl.
    assert (exists tk, j_token j = Some tk) as [tk Htk].
    { destruct (Hstruct _ _ Hj) as [[_ Hno]|(s & tk & Htk & _)]; [|by exists tk].
      destruct (candidates_one h dict text searchMode i Hwf Hn ltac:(lia))
        as (tk & Hin & Hl).
      exfalso. apply (Hno i tk); [|lia]. left. split; [lia|done]. }
    destruct (Hdist _ _ _ Hj Htk) as (_ & (s & Hr & Hend & Hmin) & Hlow).
    assert (Hcand : tk ∈ candidates h dict text searchMode s).
    { destruct Hr as [[_ ?]|[_ Hin]]; [done|by apply elem_of_nil in Hin]. }
    destruct (candidates_spec _ _ _ _ _ _ Hwf Hcand) as (Hone & _).
    split.
    + destruct (IH s ltac:(lia) ltac:(lia)) as [(toks & Hseg & Hpd) _].
      exists (toks ++ [tk]). split.
      * rewrite <- Hend. by constructor.
      * by rewrite pathDistance_snoc, Hpd.
    + intros toks' Hseg. apply Segmentation_inv in Hseg
        as [[? _]|(s' & toks0 & tk' & -> & He' & Hseg0 & Hin')]; [lia|].
      destruct (candidates_spec _ _ _ _ _ _ Hwf Hin') as (Hone' & _).
      destruct (IH s' ltac:(lia) ltac:(lia)) as [_ Hlow'].
      rewrite pathDistance_snoc.
      eapply fle_trans; [apply (Hlow s' tk'); [|lia]|].
      * left. split; [lia|done].
      * apply fadd_mono. by apply Hlow'.
Qed.

(** at the end of the forward loop each jumper holds the least of the
    distances of the segmentations that end on it *)
Lemma forward_distances h dict text searchMode :
  dictWF h dict -> positiveDistances h dict ->
  (searchMode = true -> length text <> 1%nat) ->
  exists jumpers,
    forwardResult h dict text searchMode = Some jumpers
    /\ forall i, (i < length text)%nat ->
         exists j,
           jumpers !! i = Some j
           /\ (exists toks, Segmentation h dict text searchMode (S i) toks
                            /\ pathDistance h toks = minDistance j)
           /\ (forall toks, Segmentation h dict text searchMode (S i) toks ->
                            fle (minDistance j) (pathDistance h toks)).
Proof.
  intros Hwf Hpos Hn.
  destruct (forwardLoop_latticeInv h dict text searchMode (length text) 0 _
              Hwf Hpos Hn ltac:(lia) (structInv_init h dict text searchMode)
              (distInv_init h dict text searchMode))
    as (jumpers & Hrun & Hs & Hd).
  exists jumpers. split; [done|]. intros i Hi.
  destruct (lattice_optimal h dict text searchMode jumpers Hwf Hn Hs Hd (S i) ltac:(lia))
    as [Hex Hlow].
  destruct Hs as [Hlen _].
  destruct (lookup_lt_is_Some_2 jumpers i ltac:(lia)) as [j Hj].
  simpl in Hex, Hlow. rewrite Hj in Hex, Hlow. simpl in Hex, Hlow.
  by exists j.
Qed.

End ShortestPath.

(** ** The output expansion *)

Section Spread.

Context {F : Type} `{Float32Ops F}.

Implicit Types (h : Store F) (s : Segment) (segs out : list Segment).

Lemma spreadStep_None h spread segs :
  foldl (spreadStep h spread) None segs = None.
Proof. induction segs as [|s segs IH]; simpl; [done|apply IH]. Qed.

(** a spread keeps what was already emitted and emits every segment it
    is given, as it is *)
Lemma spread_fold_keeps h spread segs :
  forall acc out,
  foldl (spreadStep h spread) (Some acc) segs = Some out ->
  (forall x, x ∈ acc -> x ∈ out) /\ (forall s, s ∈ segs -> s ∈ out).
Proof.
  induction segs as [|s segs IH]; intros acc out; simpl.
  - intros [= <-]. split; [done|]. intros s Hs. by apply elem_of_nil in Hs.
  - destruct (spread (segments (deref h (token s)))) as [sub|] eqn:Hsub; simpl.
    + intros Hfold. destruct (IH _ _ Hfold) as [Hacc Hsegs]. split.
      * intros x Hx. apply Hacc. apply elem_of_app. by left.
      * intros s' Hs'. apply elem_of_cons in Hs' as [->|Hs']; [|by apply Hsegs].
        apply Hacc. rewrite !elem_of_app. right. right. right.
        by apply list_elem_of_singleton.
    + by rewrite spreadStep_None.
Qed.

Lemma SegmentsSpread_keeps h fuel segs out :
  SegmentsSpread h fuel segs = Some out -> forall s, s ∈ segs -> s ∈ out.
Proof.
  destruct fuel as [|fuel]; simpl; [done|].
  intros Hfold. by apply spread_fold_keeps in Hfold as [_ ?].
Qed.

Lemma SegmentsSpread_one h fuel s :
  SegmentsSpread h (S fuel) [s]
  = sub ← SegmentsSpread h fuel (segments (deref h (token s)));
    Some (sub ++ synonymSegments h s ++ [s]).
Proof. reflexivity. Qed.

End Spread.

(** ** The loader *)

Section LoaderProofs.

Context {F : Type} `{Float32Ops F} `{RangeTables}.

Implicit Types (h : Store F) (dict : Dictionary) (seg : Segmenter F)
  (t : Token F).

Lemma sameWeights_refl t : sameWeights t t.
Proof. done. Qed.

Lemma sameWeights_sym t t' : sameWeights t t' -> sameWeights t' t.
Proof. intros (? & ? & ?). by repeat split. Qed.

Lemma sameWeights_trans t1 t2 t3 :
  sameWeights t1 t2 -> sameWeights t2 t3 -> sameWeights t1 t3.
Proof. intros (? & ? & ?) (? & ? & ?). repeat split; congruence. Qed.

Lemma heapExt_refl h : heapExt h h.
Proof. intros i t Ht. by exists t. Qed.

Lemma heapExt_trans h1 h2 h3 : heapExt h1 h2 -> heapExt h2 h3 -> heapExt h1 h3.
Proof.
  intros H12 H23 i t Ht.
  destruct (H12 _ _ Ht) as (t2 & Ht2 & Hw2 & Hx2).
  destruct (H23 _ _ Ht2) as (t3 & Ht3 & Hw3 & Hx3).
  exists t3. split; [done|]. split; [by eapply sameWeights_trans|congruence].
Qed.

Lemma heapExt_length h h' : heapExt h h' -> (length h <= length h')%nat.
Proof.
  intros Hext. destruct (decide (length h = 0%nat)) as [|Hne]; [lia|].
  destruct (lookup_lt_is_Some_2 h (length h - 1) ltac:(lia)) as [t Ht].
  destruct (Hext _ _ Ht) as (t' & Ht' & _). apply lookup_lt_Some in Ht'. lia.
Qed.

Lemma heapExt_app h l : heapExt h (h ++ l).
Proof.
  intros i t Ht. exists t. split; [|done]. by apply lookup_app_l_Some.
Qed.

(** a write through a pointer that leaves the text and the weights alone *)
Lemma heapExt_alter h f p :
  (forall t, sameWeights t (f t) /\ text t = text (f t)) ->
  heapExt h (alter f p h).
Proof.
  intros Hf i t Ht. destruct (decide (i = p)) as [->|Hne].
  - exists (f t). rewrite list_lookup_alter_eq, Ht. split; [done|apply Hf].
  - exists t. by rewrite list_lookup_alter_ne.
Qed.

Lemma appendSegments_same segs t :
  sameWeights t (appendSegments segs t) /\ text t = text (appendSegments segs t).
Proof. done. Qed.

Lemma appendSynonyms_same syns t :
  sameWeights t (appendSynonyms syns t) /\ text t = text (appendSynonyms syns t).
Proof. done. Qed.

Lemma setSynonyms_same syns t :
  sameWeights t (setSynonyms syns t) /\ text t = text (setSynonyms syns t).
Proof. done. Qed.

Lemma heapExt_deref h h' p :
  heapExt h h' -> (p < length h)%nat ->
  sameWeights (deref h (Stored p)) (deref h' (Stored p)).
Proof.
  intros Hext Hp. destruct (lookup_lt_is_Some_2 h p Hp) as [t Ht].
  destruct (Hext _ _ Ht) as (t' & Ht' & Hw & _). simpl. by rewrite Ht, Ht'.
Qed.

Lemma addToken_tokens h dict q :
  tokens (addToken h dict q) = tokens dict
  \/ tokens (addToken h dict q) = tokens dict ++ [q].
Proof. unfold addToken. case_match; [by left|by right]. Qed.

(** every token of the product has the weights of the seed *)
Lemma cartesian_weights h seed segs :
  forall product hasSynonyms product' hasSynonyms',
  foldl (cartesianStep h) (product, hasSynonyms) segs = (product', hasSynonyms') ->
  Forall (sameWeights seed) product -> Forall (sameWeights seed) product'.
Proof.
  induction segs as [|segment segs IH]; intros product b product' b'; cbn [foldl].
  - by intros [= <- <-].
  - intros Hfold Hall.
    destruct (cartesianStep h (product, b) segment) as [product1 b1] eqn:Hstep.
    eapply IH; [exact Hfold|]. unfold cartesianStep in Hstep.
    destruct (0 <? length (synonyms (deref h (token segment))))%nat;
      injection Hstep as <- _.
    + apply Forall_forall. intros a Ha. apply list_elem_of_In, in_flat_map in Ha
        as (a0 & Ha0 & Ha). apply list_elem_of_In in Ha0, Ha.
      apply list_elem_of_fmap in Ha as (b0 & -> & _).
      by apply (proj1 (Forall_forall _ _) Hall a0).
    + apply Forall_forall. intros a Ha. apply list_elem_of_In, in_flat_map in Ha
        as (a0 & Ha0 & Ha). apply list_elem_of_In in Ha0, Ha.
      apply list_elem_of_singleton in Ha as ->.
      by apply (proj1 (Forall_forall _ _) Hall a0).
Qed.

(** a fold of a step that stops at [None] *)
Lemma foldl_option_inv {A B} (f : option A -> B -> option A) (P : A -> Prop)
    (l : list B) :
  (forall b, f None b = None) ->
  (forall a b a', b ∈ l -> P a -> f (Some a) b = Some a' -> P a') ->
  forall a a', P a -> foldl f (Some a) l = Some a' -> P a'.
Proof.
  intros Hnone. induction l as [|b l IH]; intros Hstep a a' Ha; simpl.
  - by intros [= <-].
  - destruct (f (Some a) b) as [a1|] eqn:Hf.
    + assert (P a1) as Ha1 by (eapply (Hstep a b); [left|done|done]).
      apply (IH ltac:(intros ? ? ? ?; apply Hstep; by right) a1 a' Ha1).
    + assert (forall l', foldl f None l' = None) as Hn.
      { induction l' as [|b' l' IHl]; simpl; [done|]. by rewrite Hnone. }
      by rewrite Hn.
Qed.

Lemma sameWeights_transfer h h' q p :
  heapExt h h' -> (q < length h)%nat -> (p < length h)%nat ->
  sameWeights (deref h (Stored q)) (deref h (Stored p)) ->
  sameWeights (deref h' (Stored q)) (deref h' (Stored p)).
Proof.
  intros Hext Hq Hp Hw.
  eapply sameWeights_trans; [apply sameWeights_sym; by apply heapExt_deref|].
  eapply sameWeights_trans; [exact Hw|by apply heapExt_deref].
Qed.

(** a step of the expansion that extends the store, leaves the tokens
    allocated by the loop as they are, and inserts only tokens linked to
    a source whose weights they have *)
Lemma expansionInv_step seg1 seg seg' :
  storeOK seg1 -> expansionInv seg1 seg ->
  heapExt (heap seg) (heap seg') ->
  (forall j, (length (heap seg1) <= j < length (heap seg))%nat ->
     heap seg' !! j = heap seg !! j) ->
  (forall q, q ∈ tokens (dict seg') ->
     q ∈ tokens (dict seg)
     \/ ((q < length (heap seg'))%nat
         /\ exists p rest,
              p ∈ tokens (dict seg1)
              /\ (length (heap seg1) <= q)%nat
              /\ synonyms (deref (heap seg') (Stored q)) = Stored p :: rest
              /\ sameWeights (deref (heap seg') (Stored q))
                             (deref (heap seg') (Stored p)))) ->
  expansionInv seg1 seg'.
Proof.
  intros Hok1 (Hext1 & Hok & Hw) Hext Hframe Hnew.
  pose proof (heapExt_length _ _ Hext1) as Hl1.
  pose proof (heapExt_length _ _ Hext) as Hl.
  split; [by eapply heapExt_trans|]. split.
  - intros q Hq. destruct (Hnew q Hq) as [Hold|[? _]]; [|done].
    specialize (Hok q Hold). lia.
  - intros q Hq. destruct (Hnew q Hq) as [Hold|[_ ?]]; [|by right].
    destruct (Hw q Hold) as [?|(p & rest & Hp & Hge & Hsyn & Hqp)]; [by left|]. right.
    exists p, rest. split; [done|]. split; [done|]. split.
    + simpl in *. rewrite Hframe; [done|]. specialize (Hok q Hold). lia.
    + apply (sameWeights_transfer (heap seg)); try done.
      * by apply Hok.
      * specialize (Hok1 p Hp). lia.
Qed.

Lemma foldl_None {A B} (f : option A -> B -> option A) (l : list B) :
  (forall b, f None b = None) -> foldl f None l = None.
Proof. intros Hf. induction l as [|b l IH]; simpl; [done|]. by rewrite Hf. Qed.

Lemma linkProduct_fold p base ptrs n st0 st' :
  foldl (linkProduct p base ptrs) (Some st0) (seq 0 n) = Some st' ->
  heapExt (heap st0) (heap st')
  /\ length (heap st') = length (heap st0)
  /\ forall q, q ∈ tokens (dict st') ->
       q ∈ tokens (dict st0) \/ (base <= q < base + n)%nat.
Proof.
  apply (foldl_option_inv (linkProduct p base ptrs)
           (fun st => heapExt (heap st0) (heap st)
                      /\ length (heap st) = length (heap st0)
                      /\ forall q, q ∈ tokens (dict st) ->
                           q ∈ tokens (dict st0) \/ (base <= q < base + n)%nat)).
  - done.
  - intros st i st1 Hi (Hext & Hlen & Hdict). unfold linkProduct. simpl.
    apply elem_of_seq in Hi.
    destruct (segmentWords _ _ _ _) as [segs|]; simpl; [|done].
    intros [= <-]; simpl. split; [|split].
    + eapply heapExt_trans; [exact Hext|].
      eapply heapExt_trans; apply heapExt_alter;
        [apply appendSegments_same|apply appendSynonyms_same].
    + by rewrite !length_alter.
    + intros q Hq.
      destruct (addToken_tokens
                  (alter (appendSynonyms (Stored p :: others ptrs i)) (base + i)%nat
                     (alter (appendSegments segs) (base + i)%nat (heap st)))
                  (dict st) (base + i)%nat) as [Heq|Heq];
        rewrite Heq in Hq; [by apply Hdict|].
      apply elem_of_app in Hq as [Hq|Hq]; [by apply Hdict|].
      apply list_elem_of_singleton in Hq as ->. right. lia.
  - split; [apply heapExt_refl|]. split; [done|]. intros q Hq. by left.
Qed.

(** linking the product tokens writes only to them *)
Lemma linkProduct_fold_below p base ptrs n st0 st' :
  foldl (linkProduct p base ptrs) (Some st0) (seq 0 n) = Some st' ->
  forall j, (j < base)%nat -> heap st' !! j = heap st0 !! j.
Proof.
  apply (foldl_option_inv (linkProduct p base ptrs)
           (fun st => forall j, (j < base)%nat -> heap st !! j = heap st0 !! j));
    [done| |done].
  intros st i st1 Hi Hinv. unfold linkProduct. simpl.
  destruct (segmentWords _ _ _ _) as [segs|]; simpl; [|done].
  intros [= <-] j Hj. simpl. rewrite !list_lookup_alter_ne by lia. by apply Hinv.
Qed.

(** the sub-segments that the expansion stores in a token are the
    search-mode segmentation of the token's own text, as [segmentWords]
    returns it: with byte positions counted from the start of that text *)
Lemma expandToken_segments seg p seg' :
  (p < length (heap seg))%nat ->
  expandToken (Some seg) p = Some seg' ->
  exists segs,
    segmentWords (heap seg) (dict seg) (textOf (heap seg) (Stored p)) true = Some segs
    /\ segments (deref (heap seg') (Stored p))
       = segments (deref (heap seg) (Stored p)) ++ segs.
Proof.
  intros Hp. unfold expandToken. simpl.
  destruct (segmentWords _ _ _ _) as [segs|]; simpl; [|done].
  intros Hrun. exists segs. split; [done|].
  destruct (lookup_lt_is_Some_2 (heap seg) p Hp) as [t Ht].
  set (h1 := alter (appendSegments segs) p (heap seg)) in *.
  assert (Ht1 : h1 !! p = Some (appendSegments segs t))
    by (unfold h1; by rewrite list_lookup_alter_eq, Ht).
  assert (Hl1 : length h1 = length (heap seg)) by apply length_alter.
  rewrite Ht1 in Hrun. simpl in Hrun.
  destruct (foldl (cartesianStep h1) _ _) as [product hasSynonyms].
  rewrite Ht. simpl. destruct hasSynonyms.
  - apply linkProduct_fold_below with (j := p) in Hrun; [|lia].
    simpl in Hrun. rewrite Hrun, list_lookup_alter_eq.
    rewrite lookup_app_l by lia. by rewrite Ht1.
  - injection Hrun as <-. simpl. by rewrite Ht1.
Qed.

(** the tokens of a product have no synonym when they are allocated *)
Lemma cartesian_fresh h segs :
  forall product hasSynonyms product' hasSynonyms',
  foldl (cartesianStep h) (product, hasSynonyms) segs = (product', hasSynonyms') ->
  Forall (fun a => synonyms a = []) product ->
  Forall (fun a => synonyms a = []) product'.
Proof.
  induction segs as [|segment segs IH]; intros product b product' b'; cbn [foldl].
  - by intros [= <- <-].
  - intros Hfold Hall.
    destruct (cartesianStep h (product, b) segment) as [product1 b1] eqn:Hstep.
    eapply IH; [exact Hfold|]. unfold cartesianStep in Hstep.
    destruct (0 <? length (synonyms (deref h (token segment))))%nat;
      injection Hstep as <- _; apply Forall_forall; intros a Ha;
      apply list_elem_of_In, in_flat_map in Ha as (a0 & _ & Ha);
      apply list_elem_of_In in Ha.
    + by apply list_elem_of_fmap in Ha as (b0 & -> & _).
    + by apply list_elem_of_singleton in Ha as ->.
Qed.

(** linking appends to the synonyms of each product token its source and
    the other tokens of the product *)
Lemma linkProduct_fold_synonyms p base ptrs l :
  forall st0 st',
  NoDup l -> (forall i, i ∈ l -> (base + i < length (heap st0))%nat) ->
  foldl (linkProduct p base ptrs) (Some st0) l = Some st' ->
  forall i,
    synonyms (deref (heap st') (Stored (base + i)%nat))
    = synonyms (deref (heap st0) (Stored (base + i)%nat))
      ++ (if decide (i ∈ l) then Stored p :: others ptrs i else []).
Proof.
  induction l as [|i0 l IH]; intros st0 st' Hnd Hlt; cbn [foldl].
  - intros [= <-] i. rewrite decide_False by apply not_elem_of_nil.
    by rewrite app_nil_r.
  - apply NoDup_cons in Hnd as [Hi0 Hnd].
    destruct (linkProduct p base ptrs (Some st0) i0) as [st1|] eqn:Hstep;
      [|by rewrite foldl_None].
    intros Hfold i.
    unfold linkProduct in Hstep. simpl in Hstep.
    destruct (segmentWords _ _ _ _) as [segs|]; simpl in Hstep; [|done].
    injection Hstep as <-.
    pose proof (fun Hl => IH _ _ Hnd Hl Hfold i) as IH'.
    rewrite IH'; clear IH IH'.
    2:{ intros j Hj. simpl. rewrite !length_alter. apply Hlt. by right. }
    simpl. destruct (decide (i = i0)) as [->|Hne].
    + rewrite list_lookup_alter_eq, list_lookup_alter_eq.
      destruct (lookup_lt_is_Some_2 (heap st0) (base + i0) (Hlt i0 ltac:(left)))
        as [t ->]. simpl.
      rewrite (decide_False (P := i0 ∈ l)) by done.
      rewrite (decide_True (P := i0 ∈ i0 :: l)) by left.
      by rewrite app_nil_r.
    + rewrite !list_lookup_alter_ne by lia.
      destruct (decide (i ∈ l)) as [Hil|Hil].
      * rewrite (decide_True (P := i ∈ i0 :: l)) by (by right). done.
      * rewrite (decide_False (P := i ∈ i0 :: l)); [done|].
        intros Hin. apply elem_of_cons in Hin as [?|?]; done.
Qed.

(** the expansion of the token at [p] writes to that token and to the
    tokens it allocates *)
Lemma expandToken_frame seg p seg' :
  (p < length (heap seg))%nat ->
  expandToken (Some seg) p = Some seg' ->
  forall j, j <> p -> (j < length (heap seg))%nat -> heap seg' !! j = heap seg !! j.
Proof.
  intros Hp. unfold expandToken. simpl.
  destruct (segmentWords _ _ _ _) as [segs|]; simpl; [|done].
  set (h1 := alter (appendSegments segs) p (heap seg)).
  assert (Hl1 : length h1 = length (heap seg)) by apply length_alter.
  destruct (foldl (cartesianStep h1) _ _) as [product hasSynonyms].
  destruct hasSynonyms.
  - intros Hfold j Hne Hj.
    rewrite (linkProduct_fold_below _ _ _ _ _ _ Hfold j) by lia. simpl.
    rewrite list_lookup_alter_ne by done. rewrite lookup_app_l by lia.
    unfold h1. by rewrite list_lookup_alter_ne.
  - intros [= <-] j Hne Hj. simpl. unfold h1. by rewrite list_lookup_alter_ne.
Qed.

Lemma expandToken_None p : expandToken (F := F) None p = None.
Proof. reflexivity. Qed.

(** the expansion of one stored token keeps the invariant *)
Lemma expandToken_inv seg1 seg p seg' :
  storeOK seg1 -> expansionInv seg1 seg -> p ∈ tokens (dict seg1) ->
  expandToken (Some seg) p = Some seg' ->
  expansionInv seg1 seg'.
Proof.
  intros Hok1 Hinv Hp Hrun. pose proof Hinv as (Hext1 & Hok & _).
  pose proof (heapExt_length _ _ Hext1) as Hl1.
  pose proof (Hok1 p Hp) as Hp1.
  assert (Hph : (p < length (heap seg))%nat) by lia.
  pose proof (expandToken_frame seg p seg' Hph Hrun) as Hframe.
  revert Hrun. unfold expandToken. simpl.
  destruct (segmentWords _ _ _ _) as [segs|]; simpl; [|done].
  set (h1 := alter (appendSegments segs) p (heap seg)).
  assert (Hext01 : heapExt (heap seg) h1)
    by (apply heapExt_alter, appendSegments_same).
  assert (Hlen1 : length h1 = length (heap seg)) by apply length_alter.
  destruct (foldl (cartesianStep h1)
              ([seedToken (default zeroToken (h1 !! p))], false)
              (segments (default zeroToken (h1 !! p))))
    as [product hasSynonyms] eqn:Hprod.
  destruct hasSynonyms.
  - intros Hfold. pose proof Hfold as Hsyn.
    apply linkProduct_fold in Hfold as (Hext & Hlen & Hdict).
    simpl in Hext, Hlen, Hdict.
    set (ptrs := map Stored (seq (length h1) (length product))) in *.
    set (h2 := alter (setSynonyms ptrs) p (h1 ++ product)) in *.
    assert (Hext12 : heapExt h1 h2).
    { eapply heapExt_trans; [apply heapExt_app|].
      apply heapExt_alter, setSynonyms_same. }
    assert (Hlen2 : length h2 = (length h1 + length product)%nat)
      by (unfold h2; by rewrite length_alter, length_app).
    apply (expansionInv_step seg1 seg); try done.
    { eapply heapExt_trans; [exact Hext01|]. by eapply heapExt_trans. }
    { intros j Hj. apply Hframe; lia. }
    intros q Hq. destruct (Hdict q Hq) as [?|Hrange]; [by left|]. right.
    split; [lia|]. exists p, (others ptrs (q - length h1)).
    split; [done|]. split; [lia|].
    (* the product token at [q] *)
    destruct (lookup_lt_is_Some_2 product (q - length h1) ltac:(lia)) as [a Ha].
    assert (Hq2 : h2 !! q = Some a).
    { unfold h2. rewrite list_lookup_alter_ne by lia.
      rewrite lookup_app_r by lia. done. }
    split.
    + (* its synonyms: none when allocated, then the source and the rest *)
      apply (linkProduct_fold_synonyms p (length h1) ptrs) with (i := (q - length h1)%nat)
        in Hsyn; [|apply NoDup_seq|].
      2:{ intros i Hi. apply elem_of_seq in Hi. simpl. lia. }
      replace (length h1 + (q - length h1))%nat with q in Hsyn by lia.
      rewrite Hsyn. simpl. rewrite Hq2. simpl.
      assert (synonyms a = []) as ->.
      { assert (Hall : Forall (fun a => synonyms a = []) product).
        { eapply cartesian_fresh; [exact Hprod|]. by apply Forall_singleton. }
        apply (proj1 (Forall_forall _ _) Hall). by eapply list_elem_of_lookup_2. }
      rewrite decide_True; [done|]. apply elem_of_seq. lia.
    + (* its weights are those of the seed *)
      assert (Hwa : sameWeights (seedToken (default zeroToken (h1 !! p))) a).
      { assert (Hall : Forall (sameWeights (seedToken (default zeroToken (h1 !! p))))
                         product).
        { eapply cartesian_weights; [exact Hprod|]. by apply Forall_singleton. }
        apply (proj1 (Forall_forall _ _) Hall). by eapply list_elem_of_lookup_2. }
      eapply sameWeights_trans;
        [apply sameWeights_sym; apply (heapExt_deref h2); [done|lia]|].
      eapply sameWeights_trans; [|apply (heapExt_deref h2); [done|lia]].
      eapply sameWeights_trans; [|apply (heapExt_deref h1); [done|lia]].
      simpl. rewrite Hq2. simpl. by apply sameWeights_sym.
  - intros [= <-]. apply (expansionInv_step seg1 seg); try done.
    + intros j Hj. simpl. unfold h1. rewrite list_lookup_alter_ne; [done|lia].
    + intros q Hq. by left.
Qed.

(** the expansion loop inserts only tokens linked to a token that was
    stored when it started, with the weights of that token *)
Lemma expandAll_inv seg1 seg' :
  storeOK seg1 -> expandAll seg1 = Some seg' -> expansionInv seg1 seg'.
Proof.
  intros Hok1. unfold expandAll.
  apply (foldl_option_inv expandToken (expansionInv seg1)).
  - apply expandToken_None.
  - intros seg p seg2 Hp Hinv Hrun. by eapply expandToken_inv.
  - split; [apply heapExt_refl|]. split; [done|]. intros q Hq. by left.
Qed.

(** the distance assignment writes [L - log2(frequency)] in every stored
    token, with [L] the logarithm of the total frequency at that time,
    and nothing else *)
Lemma assign_fold (L : F) ps :
  forall h i t, h !! i = Some t ->
  exists t',
    foldl (fun h p =>
             alter (setDistance (fsub L (flog2 (frequency (deref h (Stored p)))))) p h)
          h ps !! i = Some t'
    /\ frequency t' = frequency t /\ pos t' = pos t /\ text t' = text t
    /\ (i ∈ ps -> distance t' = fsub L (flog2 (frequency t)))
    /\ (i ∉ ps -> distance t' = distance t).
Proof.
  induction ps as [|p ps IH]; intros h i t Ht; simpl.
  - exists t. repeat split; try done. intros Hin. by apply elem_of_nil in Hin.
  - set (h1 := alter _ p h).
    destruct (decide (i = p)) as [->|Hne].
    + assert (h1 !! p = Some (setDistance (fsub L (flog2 (frequency t))) t)) as Ht1.
      { unfold h1. by rewrite list_lookup_alter_eq, Ht. }
      destruct (IH h1 p _ Ht1) as (t' & Ht' & Hf & Hp & Hx & Hin & Hout).
      exists t'. repeat split; try done.
      * intros _. destruct (decide (p ∈ ps)) as [Hps|Hps]; [by apply Hin|by apply Hout].
      * intros Hn. exfalso. apply Hn. left.
    + assert (h1 !! i = Some t) as Ht1
        by (unfold h1; by rewrite list_lookup_alter_ne).
      destruct (IH h1 i _ Ht1) as (t' & Ht' & Hf & Hp & Hx & Hin & Hout).
      exists t'. repeat split; try done.
      * intros Hi. apply elem_of_cons in Hi as [?|Hi]; [done|by apply Hin].
      * intros Hn. apply Hout. intros Hi. apply Hn. by right.
Qed.

Lemma assignDistances_storeOK seg : storeOK seg -> storeOK (assignDistances seg).
Proof.
  intros Hok p Hp. specialize (Hok p Hp). simpl in *.
  destruct (lookup_lt_is_Some_2 (heap seg) p Hok) as [t Ht].
  destruct (assign_fold (flog2 (totalFrequency (dict seg))) (tokens (dict seg))
              _ _ _ Ht) as (t' & Ht' & _).
  by apply lookup_lt_Some in Ht'.
Qed.

End LoaderProofs.

(** ** From the files to the dictionary *)

Section LoadFiles.

Context {F : Type} `{Float32Ops F} `{RangeTables}.

Implicit Types (seg : Segmenter F).

Lemma loadLine_storeOK seg line : storeOK seg -> storeOK (loadLine seg line).
Proof.
  intros Hok. unfold loadLine.
  set (toks := parseLine line). set (base := length (heap seg)).
  set (ptrs := map Stored (seq base (length toks))).
  assert (Hgen : forall l seg1,
    (forall i, i ∈ l -> (i < length toks)%nat) ->
    storeOK seg1 -> length (heap seg1) = (base + length toks)%nat ->
    storeOK (foldl (fun seg i =>
               let h := alter (appendSynonyms (others ptrs i)) (base + i)%nat (heap seg) in
               {| heap := h; dict := addToken h (dict seg) (base + i)%nat |})
             seg1 l)).
  { induction l as [|i l IH]; intros seg1 Hl Hok1 Hlen1; simpl; [done|].
    apply IH.
    - intros ? ?. apply Hl. by right.
    - intros p Hp. simpl in *. rewrite length_alter.
      match type of Hp with
      | p ∈ tokens (addToken ?h ?d ?q) =>
        destruct (addToken_tokens h d q) as [Heq|Heq]; rewrite Heq in Hp
      end; [by apply Hok1|].
      apply elem_of_app in Hp as [Hp|Hp]; [by apply Hok1|].
      apply list_elem_of_singleton in Hp as ->.
      specialize (Hl i ltac:(left)). lia.
    - simpl. by rewrite length_alter. }
  apply Hgen.
  - intros i Hi. apply elem_of_seq in Hi. lia.
  - intros p Hp. simpl in *. rewrite length_app. specialize (Hok p Hp). lia.
  - simpl. by rewrite length_app.
Qed.

Lemma loadFile_storeOK seg content : storeOK seg -> storeOK (loadFile seg content).
Proof.
  unfold loadFile. generalize (Split content "010"). intros lines. revert seg.
  induction lines as [|line lines IH]; intros seg Hok; simpl; [done|].
  by apply IH, loadLine_storeOK.
Qed.

(** the segmenter when the files are read: what the two derivations of
    [LoadDictionary] start from *)
Lemma readFiles_storeOK (files : list string) :
  storeOK (foldl loadFile {| heap := []; dict := NewDictionary |} files).
Proof.
  assert (Hgen : forall seg, storeOK seg -> storeOK (foldl loadFile seg files)).
  { induction files as [|file files IH]; intros seg Hok; simpl; [done|].
    by apply IH, loadFile_storeOK. }
  apply Hgen. intros p Hp. by apply elem_of_nil in Hp.
Qed.

End LoadFiles.

(** ** The entries of a dictionary line have at least one atom *)

Section Entries.

Context {F : Type} `{Float32Ops F} `{RangeTables}.

Lemma trimLeftSpaces_suffix l : exists k, trimLeftSpaces l = drop k l.
Proof.
  induction l as [|c l [k IH]]; simpl; [by exists 0%nat|].
  case_match; [by exists (S k)|by exists 0%nat].
Qed.

Lemma trimLeftSpaces_head l c l' : trimLeftSpaces l = c :: l' -> c <> sp.
Proof.
  induction l as [|c0 l IH]; simpl; [done|].
  case_match eqn:Hc; [done|]. intros [= -> _] ->. by rewrite Ascii.eqb_refl in Hc.
Qed.

Lemma noLeadingSpace_of_list l :
  match l with [] => True | c :: _ => c <> sp end ->
  noLeadingSpace (string_of_list_ascii l).
Proof. by destruct l. Qed.

Lemma Trim_noLeadingSpace s : noLeadingSpace (Trim s).
Proof.
  unfold Trim. apply noLeadingSpace_of_list.
  set (x := trimLeftSpaces (list_ascii_of_string s)).
  destruct (trimLeftSpaces_suffix (rev x)) as [k ->].
  rewrite skipn_rev, rev_involutive.
  destruct x as [|c x'] eqn:Hx; [by rewrite take_nil|].
  apply trimLeftSpaces_head in Hx.
  destruct (length (c :: x') - k)%nat; simpl; done.
Qed.

(** the first slice of a string that starts with a byte other than the
    separator starts with that byte *)
Lemma Split_head c s sep :
  Ascii.eqb c sep = false ->
  exists w ws, Split (String c s) sep = String c w :: ws.
Proof.
  intros Hc. simpl. rewrite Hc. destruct (Split s sep) as [|w ws]; by eexists _, _.
Qed.

Lemma Split_length s sep : (1 <= length (Split s sep))%nat.
Proof.
  induction s as [|c s IH]; simpl; [lia|].
  case_match; simpl; [lia|]. destruct (Split s sep); simpl in *; lia.
Qed.

Lemma Split_empty sep : Split EmptyString sep = [EmptyString].
Proof. reflexivity. Qed.

Lemma Join_head c w ws : exists r, Join_ (String c w :: ws) = String c r.
Proof. unfold Join_. destruct ws; simpl; by eexists. Qed.

Lemma replaceFrom_head old new c r :
  new <> EmptyString ->
  exists c' r', replaceFrom old new 0 (String c r) = String c' r'
                /\ (c' = c \/ exists n, new = String c' n).
Proof.
  intros Hnew. simpl. case_match.
  - destruct new as [|c' n]; [done|]. simpl. eexists _, _. split; [done|].
    right. by eexists.
  - eexists _, _. split; [done|]. by left.
Qed.

Lemma bytes_atoms (s : string) c r :
  s = String c r -> c <> sp -> splitTextToWords (bytes s) <> [].
Proof.
  intros -> Hc Hnil.
  pose proof (splitTextToWords_byteLength (bytes (String c r))) as Hlen.
  rewrite Hnil, textSliceByteLength_nil in Hlen.
  unfold bytes in Hlen. simpl in Hlen.
  unfold countSpaces in Hlen. rewrite filter_cons in Hlen.
  destruct (decide (c = sp)) as [|_]; [done|].
  pose proof (length_filter (fun c => c = sp) (list_ascii_of_string r)) as Hle.
  lia.
Qed.

(** an entry that is accepted has atoms *)
Lemma parsePiece_text piece (t : Token F) :
  parsePiece piece = pieceToken t -> text t <> [].
Proof.
  unfold parsePiece.
  pose proof (Trim_noLeadingSpace piece) as Hlead.
  destruct (Trim piece) as [|c s] eqn:Htrim.
  { rewrite Split_empty. simpl. done. }
  simpl in Hlead.
  destruct (Split_head c s " ") as (w & ws & Hsplit).
  { apply Ascii.eqb_neq. exact Hlead. }
  rewrite Hsplit. set (slices := String c w :: ws). set (l := length slices).
  assert (Htake : forall k, (1 <= k)%nat -> exists r, Join_ (take k slices) = String c r).
  { intros k Hk. destruct k; [lia|]. simpl. apply Join_head. }
  assert (Hgo : forall text0 freqText pos0 c' r',
            text0 = String c' r' -> c' <> sp ->
            (if String.eqb text0 EmptyString then pieceBreak
             else match Atoi freqText with
                  | None => pieceContinue
                  | Some frequency =>
                    if frequency <? minTokenFrequency then pieceContinue
                    else pieceToken
                           (newToken (splitTextToWords (bytes text0)) frequency pos0)
                  end) = pieceToken t -> text t <> []).
  { intros text0 freqText pos0 c' r' Heq Hc'.
    assert (String.eqb text0 EmptyString = false) as -> by (by subst text0).
    destruct (Atoi freqText) as [frequency|]; [|done].
    case_match; [done|]. intros [= <-]. cbn [text newToken].
    by eapply bytes_atoms. }
  destruct (allDigits _).
  - destruct (l <? 2)%nat eqn:Hl; [done|]. apply Nat.ltb_ge in Hl.
    destruct (Htake (l - 1)%nat ltac:(lia)) as [r Hr].
    eapply Hgo; [exact Hr|done].
  - destruct (l <? 3)%nat eqn:Hl; [done|]. apply Nat.ltb_ge in Hl.
    destruct (Htake (l - 2)%nat ltac:(lia)) as [r Hr]. rewrite Hr.
    destruct (replaceFrom_head "__VERTICAL_BAR__" "|" c r ltac:(done))
      as (c' & r' & Hrep & Hc').
    eapply Hgo; [exact Hrep|].
    destruct Hc' as [->|[n [= <- _]]]; done.
Qed.

Lemma parsePieces_text pieces :
  forall acc : list (Token F),
  Forall (fun t => text t <> [] /\ synonyms t = [] /\ segments t = []) acc ->
  Forall (fun t => text t <> [] /\ synonyms t = [] /\ segments t = [])
         (parsePieces pieces acc).
Proof.
  induction pieces as [|piece pieces IH]; intros acc Hacc; simpl; [done|].
  destruct (parsePiece piece) as [| |t] eqn:Hp; [done|by apply IH|].
  apply IH, Forall_app. split; [done|]. apply Forall_singleton.
  split; [by eapply parsePiece_text|].
  unfold parsePiece in Hp. repeat case_match; try done; by injection Hp as <-.
Qed.

End Entries.

(** ** The loader returns, with a well-formed dictionary *)

Section LoaderOK.

Context {F : Type} `{Float32Laws F} `{RangeTables}.

Implicit Types (h : Store F) (dict : Dictionary) (seg : Segmenter F)
  (t : Token F) (r : TokenRef).

Lemma heapExt_textsExt h h' : heapExt h h' -> textsExt h h'.
Proof.
  intros Hext i t Ht. destruct (Hext _ _ Ht) as (t' & Ht' & _ & Hx). by exists t'.
Qed.

Lemma textsExt_refl h : textsExt h h.
Proof. intros i t Ht. by exists t. Qed.

Lemma textsExt_trans h1 h2 h3 : textsExt h1 h2 -> textsExt h2 h3 -> textsExt h1 h3.
Proof.
  intros H12 H23 i t Ht. destruct (H12 _ _ Ht) as (t2 & Ht2 & Hx2).
  destruct (H23 _ _ Ht2) as (t3 & Ht3 & Hx3). exists t3. split; [done|congruence].
Qed.

Lemma textsExt_alter h f p :
  (forall t, text (f t) = text t) -> textsExt h (alter f p h).
Proof.
  intros Hf i t Ht. destruct (decide (i = p)) as [->|Hne].
  - exists (f t). by rewrite list_lookup_alter_eq, Ht.
  - exists t. by rewrite list_lookup_alter_ne.
Qed.

Lemma textsExt_app h l : textsExt h (h ++ l).
Proof. intros i t Ht. exists t. split; [|done]. by apply lookup_app_l_Some. Qed.

Lemma refOK_ext h h' r : textsExt h h' -> refOK h r -> refOK h' r.
Proof.
  intros Hext. destruct r as [p|atom]; [|done]. unfold refOK, textOf. simpl.
  destruct (h !! p) as [t|] eqn:Ht; [|done].
  destruct (Hext _ _ Ht) as (t' & -> & Hx). simpl. by rewrite Hx.
Qed.

Lemma tokenOK_ext h h' t : textsExt h h' -> tokenOK h t -> tokenOK h' t.
Proof.
  intros Hext (Hx & Hsyn & Hseg). split; [done|]. split.
  - eapply Forall_impl; [done|]. intros r. by apply refOK_ext.
  - eapply Forall_impl; [done|]. intros s. by apply refOK_ext.
Qed.

Lemma refOK_stored h q : heapWF h -> (q < length h)%nat -> refOK h (Stored q).
Proof.
  intros Hwf Hq. destruct (lookup_lt_is_Some_2 h q Hq) as [t Ht].
  unfold refOK, textOf. simpl. rewrite Ht. simpl.
  by destruct (proj1 (Forall_lookup _ _) Hwf _ _ Ht) as (? & _).
Qed.

Lemma refOK_stored_lt h q : refOK h (Stored q) -> (q < length h)%nat.
Proof.
  unfold refOK, textOf. simpl. intros Hne.
  destruct (h !! q) as [t|] eqn:Ht; [by eapply lookup_lt_Some|done].
Qed.

Lemma dictWF_of seg : loadedOK seg -> dictWF (heap seg) (dict seg).
Proof. intros [Hwf Hok] p Hp. by apply (refOK_stored (heap seg)), Hok. Qed.

Lemma heapWF_alter h f p :
  (forall t, text (f t) = text t) -> heapWF h ->
  (forall t, tokenOK (alter f p h) t -> tokenOK (alter f p h) (f t)) ->
  heapWF (alter f p h).
Proof.
  intros Hf Hwf Hstep. unfold heapWF. apply Forall_alter.
  - eapply Forall_impl; [exact Hwf|]. intros t. by apply tokenOK_ext, textsExt_alter.
  - intros t _. apply Hstep.
Qed.

Lemma heapWF_app h l : heapWF h -> Forall (tokenOK (h ++ l)) l -> heapWF (h ++ l).
Proof.
  intros Hwf Hl. apply Forall_app. split; [|done].
  eapply Forall_impl; [exact Hwf|]. intros t. apply tokenOK_ext, textsExt_app.
Qed.

Lemma tokenOK_appendSynonyms h syns t :
  Forall (refOK h) syns -> tokenOK h t -> tokenOK h (appendSynonyms syns t).
Proof.
  intros Hs (Hx & Hsyn & Hseg). split; [done|]. split; [|done].
  simpl. by apply Forall_app.
Qed.

Lemma tokenOK_setSynonyms h syns t :
  Forall (refOK h) syns -> tokenOK h t -> tokenOK h (setSynonyms syns t).
Proof. intros Hs (Hx & Hsyn & Hseg). by split. Qed.

Lemma tokenOK_appendSegments h segs t :
  Forall (fun s => refOK h (token s)) segs -> tokenOK h t ->
  tokenOK h (appendSegments segs t).
Proof.
  intros Hs (Hx & Hsyn & Hseg). split; [done|]. split; [done|].
  simpl. by apply Forall_app.
Qed.

(** the pointers to the tokens allocated from [base] on *)
Lemma refOK_allocated h base n :
  heapWF h -> (base + n <= length h)%nat ->
  Forall (refOK h) (map Stored (seq base n)).
Proof.
  intros Hwf Hlen. apply Forall_forall. intros r Hr.
  apply list_elem_of_fmap in Hr as (q & -> & Hq). apply elem_of_seq in Hq.
  apply refOK_stored; [done|lia].
Qed.

Lemma Forall_others {A} (P : A -> Prop) (ptrs : list A) i :
  Forall P ptrs -> Forall P (take i ptrs ++ drop (S i) ptrs).
Proof. intros Hp. apply Forall_app. split; [by apply Forall_take|by apply Forall_drop]. Qed.

(** *** Reading the files *)

Lemma loadLine_ok seg line : loadedOK seg -> loadedOK (loadLine seg line).
Proof.
  intros [Hwf Hok]. split; [|by apply loadLine_storeOK].
  unfold loadLine.
  set (toks := parseLine line). set (base := length (heap seg)).
  set (ptrs := map Stored (seq base (length toks))).
  assert (Hgen : forall l seg1,
    heapWF (heap seg1) -> length (heap seg1) = (base + length toks)%nat ->
    heapWF (heap (foldl (fun seg i =>
               let h := alter (appendSynonyms (others ptrs i)) (base + i)%nat (heap seg) in
               {| heap := h; dict := addToken h (dict seg) (base + i)%nat |})
             seg1 l))).
  { induction l as [|i l IH]; intros seg1 Hwf1 Hlen1; simpl; [done|].
    apply IH; simpl; [|by rewrite length_alter].
    apply heapWF_alter; [done|done|].
    intros t. apply tokenOK_appendSynonyms. apply Forall_others.
    assert (heapWF (alter (appendSynonyms (others ptrs i)) (base + i)%nat (heap seg1)))
      as Hwf2.
    { apply heapWF_alter; [done|done|]. intros t'.
      apply tokenOK_appendSynonyms, Forall_others.
      eapply Forall_impl; [apply (refOK_allocated (heap seg1)); [done|lia]|].
      intros r. apply refOK_ext. by apply textsExt_alter. }
    apply refOK_allocated; [done|]. rewrite length_alter. lia. }
  apply Hgen; simpl; [|by rewrite length_app].
  apply heapWF_app; [done|].
  pose proof (parsePieces_text (Split (Trim line) "|") [] ltac:(done)) as Hp.
  eapply Forall_impl; [exact Hp|].
  intros t (Hx & Hs & Hg). split; [done|]. rewrite Hs, Hg. by split.
Qed.

Lemma readFiles_ok (files : list string) :
  loadedOK (foldl loadFile {| heap := []; dict := NewDictionary |} files).
Proof.
  assert (Hline : forall lines seg, loadedOK seg -> loadedOK (foldl loadLine seg lines)).
  { induction lines as [|line lines IH]; intros seg Hok; simpl; [done|].
    by apply IH, loadLine_ok. }
  assert (Hgen : forall seg, loadedOK seg -> loadedOK (foldl loadFile seg files)).
  { induction files as [|file files IH]; intros seg Hok; simpl; [done|].
    apply IH. unfold loadFile. by apply Hline. }
  apply Hgen. split; [by constructor|]. intros p Hp. by apply elem_of_nil in Hp.
Qed.

(** *** The distances *)

Lemma assignDistances_ok seg : loadedOK seg -> loadedOK (assignDistances seg).
Proof.
  intros [Hwf Hok]. split; [|by apply assignDistances_storeOK].
  unfold assignDistances. simpl. generalize (flog2 (totalFrequency (dict seg))).
  intros L. revert Hwf. generalize (heap seg). clear Hok.
  induction (tokens (dict seg)) as [|p ps IH]; intros h Hwf; simpl; [done|].
  apply IH. apply heapWF_alter; [done|done|].
  intros t (Hx & Hsyn & Hseg). by split.
Qed.

(** *** The expansion *)

(** a fold of a step that returns at every element *)
Lemma foldl_option_total {A B} (f : option A -> B -> option A) (P : A -> Prop)
    (l : list B) :
  (forall a b, b ∈ l -> P a -> exists a', f (Some a) b = Some a' /\ P a') ->
  forall a, P a -> exists a', foldl f (Some a) l = Some a' /\ P a'.
Proof.
  induction l as [|b l IH]; intros Hstep a Ha; simpl; [by exists a|].
  destruct (Hstep a b ltac:(left) Ha) as (a1 & -> & Ha1).
  apply IH; [|done]. intros ? ? ? ?. apply Hstep; [by right|done].
Qed.

Lemma candidate_refOK h dict text searchMode c r :
  dictWF h dict -> r ∈ candidates h dict text searchMode c -> refOK h r.
Proof.
  intros Hwf Hin. apply (candidates_spec _ _ _ _ _ _ Hwf) in Hin as (Hone & _).
  unfold refOK. unfold tokLen in Hone. intros Hnil. rewrite Hnil in Hone. simpl in Hone. lia.
Qed.

(** search-mode segmentation, as the loader calls it: it returns, and
    the tokens of its segments have atoms *)
Lemma segmentWords_ok seg text :
  loadedOK seg ->
  exists segs,
    segmentWords (heap seg) (dict seg) text true = Some segs
    /\ Forall (fun s => refOK (heap seg) (token s)) segs.
Proof.
  intros Hok. pose proof (dictWF_of seg Hok) as Hwf.
  destruct (segmentWords_candidates (heap seg) (dict seg) text true Hwf)
    as (segs & Hrun & Hall).
  exists segs. split; [done|]. eapply Forall_impl; [exact Hall|].
  intros s (c & Hc & _). by eapply candidate_refOK.
Qed.

Lemma synonyms_refOK h r :
  heapWF h -> refOK h r -> Forall (refOK h) (synonyms (deref h r)).
Proof.
  intros Hwf Hr. destruct r as [p|atom]; [|by constructor].
  pose proof (refOK_stored_lt _ _ Hr) as Hp.
  destruct (lookup_lt_is_Some_2 h p Hp) as [t Ht]. simpl. rewrite Ht. simpl.
  by destruct (proj1 (Forall_lookup _ _) Hwf _ _ Ht) as (_ & ? & _).
Qed.

(** after a sub-segment has been taken in, every token of the product
    has atoms *)
Lemma cartesian_ok h segs :
  heapWF h -> Forall (fun s => refOK h (token s)) segs ->
  forall product b product' b',
  foldl (cartesianStep h) (product, b) segs = (product', b') ->
  Forall (fun a => synonyms a = [] /\ segments a = []) product ->
  segs <> [] \/ Forall (fun a => text a <> []) product ->
  Forall (fun a => text a <> [] /\ synonyms a = [] /\ segments a = []) product'.
Proof.
  intros Hwf. induction 1 as [|segment segs Hseg Hsegs IH];
    intros product b product' b'; cbn [foldl].
  - intros [= <- <-] Hempty [?|Htext]; [done|].
    apply Forall_forall. intros a Ha.
    split; [by apply (proj1 (Forall_forall _ _) Htext)|].
    by apply (proj1 (Forall_forall _ _) Hempty).
  - destruct (cartesianStep h (product, b) segment) as [product1 b1] eqn:Hstep.
    intros Hfold Hempty _.
    assert (Hall1 : Forall (fun a => text a <> [] /\ synonyms a = [] /\ segments a = [])
                      product1).
    { unfold cartesianStep in Hstep.
      pose proof (synonyms_refOK h (token segment) Hwf Hseg) as Hsyn.
      destruct (0 <? length (synonyms (deref h (token segment))))%nat;
        injection Hstep as <- _; apply Forall_forall; intros a Ha;
        apply list_elem_of_In, in_flat_map in Ha as (a0 & _ & Ha);
        apply list_elem_of_In in Ha.
      - apply list_elem_of_fmap in Ha as (r & -> & Hr). split; [|done].
        simpl. pose proof (proj1 (Forall_forall _ _) Hsyn r Hr) as Hne.
        unfold refOK in Hne. destruct (text a0); simpl; [done|done].
      - apply list_elem_of_singleton in Ha as ->. split; [|done].
        simpl. unfold refOK, textOf in Hseg. destruct (text a0); simpl; [done|done]. }
    eapply IH; [exact Hfold| |right].
    + eapply Forall_impl; [exact Hall1|]. by intros a (_ & ? & ?).
    + eapply Forall_impl; [exact Hall1|]. by intros a (? & _).
Qed.

Lemma cartesian_hasSynonyms h segs product product' b' :
  foldl (cartesianStep h) (product, false) segs = (product', b') ->
  b' = true -> segs <> [].
Proof. destruct segs; [by intros [= _ <-]|done]. Qed.

Lemma addToken_storeOK h dict q :
  (forall p, p ∈ tokens dict -> (p < length h)%nat) -> (q < length h)%nat ->
  forall p, p ∈ tokens (addToken h dict q) -> (p < length h)%nat.
Proof.
  intros Hok Hq p Hp. destruct (addToken_tokens h dict q) as [Heq|Heq];
    rewrite Heq in Hp; [by apply Hok|].
  apply elem_of_app in Hp as [Hp|Hp]; [by apply Hok|].
  by apply list_elem_of_singleton in Hp as ->.
Qed.

(** linking the product tokens returns and keeps the store well formed *)
Lemma linkProduct_ok p base n seg0 :
  loadedOK seg0 -> (p < length (heap seg0))%nat ->
  (base + n <= length (heap seg0))%nat ->
  exists seg',
    foldl (linkProduct p base (map Stored (seq base n))) (Some seg0) (seq 0 n)
    = Some seg'
    /\ loadedOK seg' /\ length (heap seg') = length (heap seg0).
Proof.
  intros Hok0 Hp Hbase.
  apply (foldl_option_total (linkProduct p base (map Stored (seq base n)))
           (fun seg => loadedOK seg /\ length (heap seg) = length (heap seg0)));
    [|done].
  intros seg i Hi [Hok Hlen]. apply elem_of_seq in Hi.
  destruct (segmentWords_ok seg (textOf (heap seg) (Stored (base + i)%nat)) Hok)
    as (segs & Hrun & Hsegs).
  unfold linkProduct. simpl. rewrite Hrun. simpl. eexists. split; [done|].
  destruct Hok as [Hwf Hstore].
  set (h1 := alter (appendSegments segs) (base + i)%nat (heap seg)).
  assert (Hwf1 : heapWF h1).
  { apply heapWF_alter; [done|done|]. intros t. apply tokenOK_appendSegments.
    eapply Forall_impl; [exact Hsegs|]. intros s. by apply refOK_ext, textsExt_alter. }
  set (syns := Stored p :: others (map Stored (seq base n)) i).
  set (h2 := alter (appendSynonyms syns) (base + i)%nat h1).
  assert (Hl2 : length h2 = length (heap seg))
    by (unfold h2, h1; by rewrite !length_alter).
  assert (Hwf2 : heapWF h2).
  { apply heapWF_alter; [done|done|]. intros t. apply tokenOK_appendSynonyms.
    assert (Forall (refOK h1) syns) as Hs1.
    { apply Forall_cons. split.
      - apply refOK_stored; [done|]. unfold h1. rewrite length_alter. lia.
      - apply Forall_others, refOK_allocated; [done|].
        unfold h1. rewrite length_alter. lia. }
    eapply Forall_impl; [exact Hs1|]. intros r. by apply refOK_ext, textsExt_alter. }
  split; [split|]; simpl; [done| |lia].
  intros q Hq. simpl in *. fold h1 in Hq. fold syns in Hq. fold h2 in Hq. fold h2.
  apply (addToken_storeOK h2 (dict seg) (base + i)%nat); [|lia|done].
  intros q' Hq'. specialize (Hstore q' Hq'). lia.
Qed.

(** the expansion of a stored token returns and keeps the store well
    formed *)
Lemma expandToken_ok seg p :
  loadedOK seg -> (p < length (heap seg))%nat ->
  exists seg',
    expandToken (Some seg) p = Some seg'
    /\ loadedOK seg' /\ (length (heap seg) <= length (heap seg'))%nat.
Proof.
  intros Hok Hp.
  destruct (segmentWords_ok seg (textOf (heap seg) (Stored p)) Hok)
    as (segs & Hrun & Hsegs).
  destruct Hok as [Hwf Hstore].
  unfold expandToken. simpl. rewrite Hrun. simpl.
  set (h1 := alter (appendSegments segs) p (heap seg)).
  assert (Hl1 : length h1 = length (heap seg)) by apply length_alter.
  assert (Hwf1 : heapWF h1).
  { apply heapWF_alter; [done|done|]. intros t. apply tokenOK_appendSegments.
    eapply Forall_impl; [exact Hsegs|]. intros s. by apply refOK_ext, textsExt_alter. }
  destruct (lookup_lt_is_Some_2 h1 p ltac:(lia)) as [tk Htk]. rewrite Htk. simpl.
  destruct (proj1 (Forall_lookup _ _) Hwf1 _ _ Htk) as (_ & _ & Hsub).
  destruct (foldl (cartesianStep h1) ([seedToken tk], false) (segments tk))
    as [product hasSynonyms] eqn:Hprod.
  destruct hasSynonyms.
  - pose proof (cartesian_hasSynonyms _ _ _ _ _ Hprod eq_refl) as Hne.
    pose proof (cartesian_ok h1 (segments tk) Hwf1 Hsub _ _ _ _ Hprod
                  ltac:(by apply Forall_singleton) ltac:(by left)) as Hall.
    set (ptrs := map Stored (seq (length h1) (length product))).
    set (h2 := alter (setSynonyms ptrs) p (h1 ++ product)).
    assert (Hwfa : heapWF (h1 ++ product)).
    { apply heapWF_app; [done|]. eapply Forall_impl; [exact Hall|].
      intros a (Hx & Hs & Hg). split; [done|]. rewrite Hs, Hg. by split. }
    assert (Hl2 : length h2 = (length h1 + length product)%nat)
      by (unfold h2; by rewrite length_alter, length_app).
    assert (Hwf2 : heapWF h2).
    { apply heapWF_alter; [done|done|]. intros t. apply tokenOK_setSynonyms.
      eapply Forall_impl;
        [apply (refOK_allocated (h1 ++ product)); [done|rewrite length_app; lia]|].
      intros r. by apply refOK_ext, textsExt_alter. }
    destruct (linkProduct_ok p (length h1) (length product)
                {| heap := h2; dict := dict seg |})
      as (seg' & Hfold & Hok' & Hlen'); simpl; [|lia|lia|].
    { split; [done|]. intros q Hq. specialize (Hstore q Hq). simpl. lia. }
    exists seg'. split; [done|]. split; [done|]. simpl in Hlen'. lia.
  - eexists. split; [done|]. split; [|simpl; lia].
    split; [done|]. intros q Hq. specialize (Hstore q Hq). simpl in *. lia.
Qed.

Lemma expandAll_ok seg : loadedOK seg -> exists seg', expandAll seg = Some seg' /\ loadedOK seg'.
Proof.
  intros Hok. unfold expandAll.
  destruct (foldl_option_total expandToken
              (fun seg1 => loadedOK seg1
                           /\ (length (heap seg) <= length (heap seg1))%nat)
              (tokens (dict seg))) with (a := seg)
    as (seg' & Hrun & Hok' & _); [|done|by exists seg'].
  intros seg1 p Hp (Hok1 & Hlen).
  destruct (expandToken_ok seg1 p Hok1) as (seg2 & Hrun & Hok2 & Hlen2).
  { destruct Hok as [_ Hstore]. specialize (Hstore p Hp). lia. }
  exists seg2. split; [done|]. split; [done|lia].
Qed.

(** [LoadDictionary] returns for every list of files, and every token of
    the dictionary it builds has at least one atom *)
Lemma LoadDictionary_ok (files : list string) :
  exists seg,
    LoadDictionary files = Some seg
    /\ loadedOK seg /\ dictWF (heap seg) (dict seg).
Proof.
  destruct (expandAll_ok (assignDistances
              (foldl loadFile {| heap := []; dict := NewDictionary |} files)))
    as (seg & Hrun & Hok).
  { apply assignDistances_ok, readFiles_ok. }
  exists seg. split; [done|]. split; [done|by apply dictWF_of].
Qed.

(** so every dictionary that [LoadDictionary] builds is one whose stored
    tokens have at least one atom *)
Lemma loaded_dictWF (files : list string) seg :
  LoadDictionary files = Some seg -> dictWF (heap seg) (dict seg).
Proof.
  intros Hload. destruct (LoadDictionary_ok files) as (seg1 & Hload1 & _ & Hwf).
  rewrite Hload in Hload1. by injection Hload1 as ->.
Qed.

End LoaderOK.

(** * The claims *)

(** the integer weights obey the laws asked of the distances *)
Lemma intWeights_laws : @Float32Laws Z intWeights.
Proof.
  split; simpl.
  - intros a b. apply Z.eqb_eq.
  - intros a. rewrite Z.gtb_ltb. apply Z.ltb_irrefl.
  - intros a b c. rewrite !Z.gtb_ltb, !Z.ltb_lt. lia.
  - intros a b. rewrite !Z.gtb_ltb, !Z.ltb_ge. lia.
  - intros a b d. rewrite !Z.gtb_ltb, !Z.ltb_ge. lia.
  - intros d. lia.
  - reflexivity.
Qed.

#[local] Existing Instance intWeights.
#[local] Existing Instance intWeights_laws.

(** membership in a list that is written out *)
Ltac each_member :=
  let p := fresh "p" in
  let Hp := fresh "Hp" in
  intros p Hp;
  repeat (apply elem_of_cons in Hp as [->|Hp]; [vm_compute; done|]);
  by apply elem_of_nil in Hp.

Lemma abSegmenter_wf : dictWF (heap abSegmenter) (dict abSegmenter).
Proof. each_member. Qed.

Lemma abSegmenter_positive : positiveDistances (heap abSegmenter) (dict abSegmenter).
Proof. each_member. Qed.

Lemma cjkSegmenter_wf : dictWF (heap cjkSegmenter) (dict cjkSegmenter).
Proof. each_member. Qed.

(** ** C1: the distances of the lattice *)

(** C1, as stated, fails.  The dictionary loaded from the one line
    [a b 10] gives its token the distance 0, and on the atoms [a], [b]
    the forward loop ends with [jumpers[1].minDistance = 64], the distance
    of the two synthetic tokens, although the stored token alone is a
    segmentation of distance 0: the relax rule took the 0 it had written
    for the mark of an untouched jumper. *)
Lemma C1_zero_distance_is_overwritten :
  loadExample [oneEntryFile] = Some oneEntry
  /\ forwardResult (heap oneEntry) (dict oneEntry) [bytes "a"; bytes "b"] false
     = Some [ {| minDistance := 32; j_token := Some (Synthetic (bytes "a")) |};
              {| minDistance := 64; j_token := Some (Synthetic (bytes "b")) |} ]
  /\ Segmentation (heap oneEntry) (dict oneEntry) [bytes "a"; bytes "b"] false 2
       [Stored 0]
  /\ pathDistance (heap oneEntry) [Stored 0] = 0.
Proof.
  split; [by vm_compute|]. split; [by vm_compute|]. split; [|reflexivity].
  apply (Segmentation_snoc (heap oneEntry) (dict oneEntry) [bytes "a"; bytes "b"]
           false 0 [] (Stored 0)); [constructor|].
  vm_compute. left.
Qed.

(** C1, amended: when every stored token has at least one atom (as in
    every loaded dictionary, [loaded_dictWF]) and a strictly positive
    distance, at the end of the forward loop of [segmentWords] (which is
    not run on one atom in search mode)
    [jumpers[i].minDistance] is the distance of a segmentation of
    [atoms[0..i]] into relaxed candidates, and no such segmentation has a
    smaller one. *)
Theorem C1_min_distance {F : Type} `{Float32Laws F}
    (h : Store F) (dict : Dictionary) (text : list Text) (searchMode : bool) :
  dictWF h dict -> positiveDistances h dict ->
  (searchMode = true -> length text <> 1%nat) ->
  exists jumpers,
    forwardResult h dict text searchMode = Some jumpers
    /\ forall i, (i < length text)%nat ->
         exists j,
           jumpers !! i = Some j
           /\ (exists toks, Segmentation h dict text searchMode (S i) toks
                            /\ pathDistance h toks = minDistance j)
           /\ (forall toks, Segmentation h dict text searchMode (S i) toks ->
                            fle (minDistance j) (pathDistance h toks)).
Proof. apply forward_distances. Qed.

Lemma C1_min_distance_witness :
  exists jumpers,
    forwardResult (heap abSegmenter) (dict abSegmenter)
      [bytes "a"; bytes "b"; bytes "c"] false = Some jumpers
    /\ forall i, (i < 3)%nat ->
         exists j,
           jumpers !! i = Some j
           /\ (exists toks,
                 Segmentation (heap abSegmenter) (dict abSegmenter)
                   [bytes "a"; bytes "b"; bytes "c"] false (S i) toks
                 /\ pathDistance (heap abSegmenter) toks = minDistance j)
           /\ (forall toks,
                 Segmentation (heap abSegmenter) (dict abSegmenter)
                   [bytes "a"; bytes "b"; bytes "c"] false (S i) toks ->
                 fle (minDistance j) (pathDistance (heap abSegmenter) toks)).
Proof.
  apply (C1_min_distance (heap abSegmenter) (dict abSegmenter)
           [bytes "a"; bytes "b"; bytes "c"] false).
  - exact abSegmenter_wf.
  - exact abSegmenter_positive.
  - discriminate.
Defined.

(** ** C2: the bytes the segments cover *)

(** C2, as stated, fails: with the dictionary of [中国] and [人口], the
    13 bytes of [中国 人口] give the two segments of these words, at bytes
    0 to 6 and 6 to 12; none is dropped, and their spans add up to 12. *)
Lemma C2_space_is_not_covered :
  loadExample [cjkFile] = Some cjkSegmenter
  /\ @Segment_ Z intWeights latin1Tables (heap cjkSegmenter) (dict cjkSegmenter)
       (bytes "中国 人口")
     = Some [ {| start := 0; end_ := 6; token := Stored 0 |};
              {| start := 6; end_ := 12; token := Stored 1 |} ]
  /\ outputSegments (heap cjkSegmenter) (dict cjkSegmenter)
       (@splitTextToWords latin1Tables (bytes "中国 人口")) false
     = Some [ {| start := 0; end_ := 6; token := Stored 0 |};
              {| start := 6; end_ := 12; token := Stored 1 |} ]
  /\ spanSum [ {| start := 0; end_ := 6; token := Stored 0 |};
               {| start := 6; end_ := 12; token := Stored 1 |} ] = 12
  /\ Z.of_nat (length (bytes "中国 人口")) = 13.
Proof. repeat split; by vm_compute. Qed.

(** C2, amended: when every stored token has at least one atom (as in
    every loaded dictionary, [loaded_dictWF]), the spans of the segments
    that [Segment(bytes)] returns and of those its stop-word filter drops
    add up to the number of bytes of the atoms, which is [len(bytes)]
    less the number of space bytes in [bytes]. *)
Theorem C2_coverage {F : Type} `{Float32Laws F} `{RangeTables}
    (h : Store F) (dict : Dictionary) (bytes : Text) :
  dictWF h dict ->
  exists out,
    outputSegments h dict (splitTextToWords bytes) false = Some out
    /\ Segment_ h dict bytes = Some (filter (fun s => negb (isStop h s)) out)
    /\ spanSum (filter (fun s => negb (isStop h s)) out)
       + spanSum (filter (fun s => isStop h s) out)
       = Z.of_nat (length bytes) - Z.of_nat (countSpaces bytes).
Proof.
  intros Hwf.
  destruct (outputSegments_spec h dict (splitTextToWords bytes) false Hwf)
    as (toks & Hout & Hcat & Hall); [done|].
  exists (spans h toks 0). split; [done|]. split.
  - unfold Segment_, internalSegment. case_match eqn:Hempty.
    + apply Nat.eqb_eq, nil_length_inv in Hempty. subst bytes.
      destruct toks as [|tk toks]; [done|]. exfalso.
      apply Forall_cons in Hall as [(s & Hin & _) _].
      apply (candidates_spec _ _ _ _ _ _ Hwf) in Hin as (Hone & Hend & _).
      simpl in Hend. lia.
    + unfold segmentWords. simpl. by rewrite Hout.
  - rewrite (spanSum_filter (isStop h)), spanSum_spans, Hcat.
    apply splitTextToWords_byteLength.
Qed.

Lemma C2_coverage_witness :
  exists out,
    outputSegments (heap cjkSegmenter) (dict cjkSegmenter)
      (@splitTextToWords latin1Tables (bytes "中国 人口")) false = Some out
    /\ @Segment_ Z intWeights latin1Tables (heap cjkSegmenter) (dict cjkSegmenter)
         (bytes "中国 人口")
       = Some (filter (fun s => negb (isStop (heap cjkSegmenter) s)) out)
    /\ spanSum (filter (fun s => negb (isStop (heap cjkSegmenter) s)) out)
       + spanSum (filter (fun s => isStop (heap cjkSegmenter) s) out)
       = Z.of_nat (length (bytes "中国 人口")) - Z.of_nat (countSpaces (bytes "中国 人口")).
Proof.
  apply (C2_coverage (heap cjkSegmenter) (dict cjkSegmenter) (bytes "中国 人口")).
  exact cjkSegmenter_wf.
Defined.

(** ** C3: ties in the relax rule *)

(** C3, as stated, fails: two candidates of the same path distance 5 are
    relaxed on an untouched jumper, and the token it holds in the end is
    the first, not the last. *)
Lemma C3_tie_keeps_the_first :
  updateJumper tieStore (updateJumper tieStore newJumper 2 (Stored 0)) 2 (Stored 1)
  = {| minDistance := 5; j_token := Some (Stored 0) |}.
Proof. reflexivity. Qed.

(** C3, amended: two candidates relaxed one after the other on the same
    jumper give the same path distance, and that distance is not the 0
    that marks an untouched jumper.  Then the second candidate is never
    stored.  When the first relaxation stores its candidate (it finds
    the jumper untouched, or with a greater distance), the jumper holds
    the first candidate and the common distance after both; otherwise it
    is left as it was, with neither candidate.  So a tie goes to the
    candidate relaxed first (the comparison is a strict [>]); on an
    untouched jumper the first candidate is always the one kept. *)
Theorem C3_tie_goes_to_first {F : Type} `{Float32Laws F}
    (h : Store F) (j : jumper F) (base1 base2 : F) (tk1 tk2 : TokenRef) :
  feq (fadd base1 (distance (deref h tk1)))
      (fadd base2 (distance (deref h tk2))) = true ->
  feq (fadd base1 (distance (deref h tk1))) fzero = false ->
  updateJumper h (updateJumper h j base1 tk1) base2 tk2
  = (if feq (minDistance j) fzero
        || fgt (minDistance j) (fadd base1 (distance (deref h tk1)))
     then {| minDistance := fadd base1 (distance (deref h tk1));
             j_token := Some tk1 |}
     else j)
  /\ updateJumper h (updateJumper h newJumper base1 tk1) base2 tk2
     = {| minDistance := fadd base1 (distance (deref h tk1));
          j_token := Some tk1 |}.
Proof.
  intros Htie Hnz. apply feq_spec in Htie.
  assert (Hgen : forall j0 : jumper F,
    updateJumper h (updateJumper h j0 base1 tk1) base2 tk2
    = (if feq (minDistance j0) fzero
          || fgt (minDistance j0) (fadd base1 (distance (deref h tk1)))
       then {| minDistance := fadd base1 (distance (deref h tk1));
               j_token := Some tk1 |}
       else j0)).
  { intros j0. unfold updateJumper. rewrite <- Htie.
    destruct (feq (minDistance j0) fzero || fgt (minDistance j0)
                (fadd base1 (distance (deref h tk1)))) eqn:Hfirst; simpl.
    - by rewrite Hnz, fgt_irrefl.
    - by rewrite Hfirst. }
  split; [apply Hgen|]. rewrite Hgen. simpl.
  by rewrite (proj2 (feq_spec fzero fzero) eq_refl).
Qed.

(** two tokens of the distance 3, relaxed from the base distance 2 on a
    jumper that holds the distance 9: the first is kept *)
Lemma C3_tie_goes_to_first_witness :
  updateJumper tieStore
    (updateJumper tieStore {| minDistance := 9; j_token := Some (Synthetic (bytes "ab")) |}
       2 (Stored 0)) 2 (Stored 1)
  = {| minDistance := 5; j_token := Some (Stored 0) |}
  /\ updateJumper tieStore (updateJumper tieStore newJumper 2 (Stored 0)) 2 (Stored 1)
     = {| minDistance := 5; j_token := Some (Stored 0) |}.
Proof.
  exact (C3_tie_goes_to_first tieStore
           {| minDistance := 9; j_token := Some (Synthetic (bytes "ab")) |}
           2 2 (Stored 0) (Stored 1) eq_refl eq_refl).
Defined.

(** why the distance of the tie must not be 0: a first candidate stored
    with the path distance 0 leaves the jumper marked as untouched, and
    the second candidate replaces it *)
Lemma tie_at_zero_goes_to_last {F : Type} `{Float32Laws F}
    (h : Store F) (j : jumper F) (base1 base2 : F) (tk1 tk2 : TokenRef) :
  feq (fadd base1 (distance (deref h tk1))) fzero = true ->
  feq (minDistance j) fzero
  || fgt (minDistance j) (fadd base1 (distance (deref h tk1))) = true ->
  updateJumper h (updateJumper h j base1 tk1) base2 tk2
  = {| minDistance := fadd base2 (distance (deref h tk2)); j_token := Some tk2 |}.
Proof.
  intros Hz Hfirst. unfold updateJumper. rewrite Hfirst. simpl. by rewrite Hz.
Qed.

(** ** C4: the backward scan *)

(** C4: when every stored token has at least one atom (as in every
    loaded dictionary, [loaded_dictWF]), at the end of the forward loop
    (which is not run on one atom in search mode) every jumper holds a
    token of at least one atom; so each step of the
    backward scan finds a token and goes to a strictly smaller index,
    the scan ends, and [segmentWords] returns. *)
Theorem C4_back_scan {F : Type} `{Float32Laws F}
    (h : Store F) (dict : Dictionary) (text : list Text) (searchMode : bool) :
  dictWF h dict ->
  text <> [] ->
  (searchMode = true -> (2 <= length text)%nat) ->
  exists jumpers,
    forwardResult h dict text searchMode = Some jumpers
    /\ (forall i, (i < length text)%nat ->
          exists j tk, jumpers !! i = Some j /\ j_token j = Some tk
                       /\ (1 <= tokLen h tk)%nat)
    /\ (forall index, 0 <= index < Z.of_nat (length text) ->
          exists tk next, backStep h jumpers index = Some (tk, next)
                          /\ next < index)
    /\ (exists numSeg,
          countSegments h jumpers (length text) (Z.of_nat (length text) - 1) 0
          = Some numSeg)
    /\ (exists segs, segmentWords h dict text searchMode = Some segs).
Proof.
  intros Hwf _ Hn2.
  assert (Hn : searchMode = true -> length text <> 1%nat)
    by (intros Hs; specialize (Hn2 Hs); lia).
  destruct (forward_tokens h dict text searchMode Hwf Hn)
    as (jumpers & Hrun & Hlen & Hjump).
  exists jumpers. split; [done|].
  assert (Htok : forall i, (i < length text)%nat ->
            exists j tk, jumpers !! i = Some j /\ j_token j = Some tk
                         /\ (1 <= tokLen h tk)%nat).
  { intros i Hi. destruct (Hjump i Hi) as (j & s & tk & Hj & Htk & Hin & _).
    exists j, tk. repeat split; try done.
    by apply (candidates_spec _ _ _ _ _ _ Hwf) in Hin as (? & _). }
  split; [done|]. split; [|split].
  - intros index Hi.
    destruct (Htok (Z.to_nat index) ltac:(lia)) as (j & tk & Hj & Htk & Hone).
    exists tk, (index - Z.of_nat (tokLen h tk) + 1 - 1). split; [|lia].
    rewrite <- (Z2Nat.id index) at 1 2 by lia. by apply (backStep_Some _ _ _ j).
  - destruct (backPath_exists h dict text searchMode jumpers Hwf Hjump
                (length text) ltac:(lia)) as (toks & Hpath & Hcat & Hall).
    exists (0 + length toks)%nat. apply countSegments_path; [done|].
    rewrite firstn_all in Hcat. rewrite <- Hcat. clear -Hall Hwf.
    induction Hall as [|tk toks (s & Hin & _) _ IH]; simpl; [lia|].
    destruct (candidates_spec _ _ _ _ _ _ Hwf Hin) as (Hone & _).
    rewrite length_app. unfold tokLen in Hone. lia.
  - destruct (outputSegments_spec h dict text searchMode Hwf Hn) as (toks & Hout & _).
    unfold segmentWords. case_match; [by eexists|].
    rewrite Hout. by eexists.
Qed.

Lemma C4_back_scan_witness :
  exists jumpers,
    forwardResult (heap cjkSegmenter) (dict cjkSegmenter)
      [bytes "中"; bytes "国"] true = Some jumpers
    /\ (forall i, (i < 2)%nat ->
          exists j tk, jumpers !! i = Some j /\ j_token j = Some tk
                       /\ (1 <= tokLen (heap cjkSegmenter) tk)%nat)
    /\ (forall index, 0 <= index < 2 ->
          exists tk next, backStep (heap cjkSegmenter) jumpers index = Some (tk, next)
                          /\ next < index)
    /\ (exists numSeg,
          countSegments (heap cjkSegmenter) jumpers 2 (2 - 1) 0 = Some numSeg)
    /\ (exists segs,
          segmentWords (heap cjkSegmenter) (dict cjkSegmenter)
            [bytes "中"; bytes "国"] true = Some segs).
Proof.
  apply (C4_back_scan (heap cjkSegmenter) (dict cjkSegmenter)
           [bytes "中"; bytes "国"] true).
  - exact cjkSegmenter_wf.
  - discriminate.
  - intros _. simpl. lia.
Defined.

(** ** C5: search mode never gives back the whole text *)

(** C5: when every stored token has at least one atom (as in every
    loaded dictionary, [loaded_dictWF]), [segmentWords] in search mode
    returns; on one atom it returns no segment; and the token
    of every segment it returns has fewer atoms than the text, so it is
    not a token whose text is the whole text. *)
Theorem C5_search_mode {F : Type} `{Float32Laws F}
    (h : Store F) (dict : Dictionary) (text : list Text) :
  dictWF h dict ->
  exists segs,
    segmentWords h dict text true = Some segs
    /\ (length text = 1%nat -> segs = [])
    /\ Forall (fun s => (tokLen h (token s) < length text)%nat
                        /\ textOf h (token s) <> text) segs.
Proof.
  intros Hwf. unfold segmentWords. simpl.
  destruct (length text =? 1)%nat eqn:Hone.
  { exists []. by repeat split. }
  apply Nat.eqb_neq in Hone.
  destruct (outputSegments_spec h dict text true Hwf) as (toks & Hout & _ & Hall);
    [done|].
  rewrite Hout. simpl. eexists. split; [done|]. split; [done|].
  apply Forall_forall. intros s Hs. apply list_elem_of_filter in Hs as [_ Hs].
  assert (token s ∈ toks) as Hin.
  { rewrite <- (spans_tokens h toks 0). apply list_elem_of_fmap. by exists s. }
  destruct (proj1 (Forall_forall _ _) Hall _ Hin) as (c & Hc & Hend).
  assert ((tokLen h (token s) < length text)%nat) as Hlt.
  { destruct (decide (tokLen h (token s) = length text)) as [Heq|]; [|lia].
    exfalso. assert (c = 0%nat) as -> by lia.
    by apply (candidates_not_whole h dict text 0 (token s)). }
  split; [done|]. intros Heq. unfold tokLen in Hlt. rewrite Heq in Hlt. lia.
Qed.

Lemma C5_search_mode_witness :
  exists segs,
    segmentWords (heap cjkSegmenter) (dict cjkSegmenter)
      [bytes "中"; bytes "国"] true = Some segs
    /\ (2%nat = 1%nat -> segs = [])
    /\ Forall (fun s => (tokLen (heap cjkSegmenter) (token s) < 2)%nat
                        /\ textOf (heap cjkSegmenter) (token s)
                           <> [bytes "中"; bytes "国"]) segs.
Proof.
  apply (C5_search_mode (heap cjkSegmenter) (dict cjkSegmenter)
           [bytes "中"; bytes "国"]).
  exact cjkSegmenter_wf.
Defined.

(** ** C6: the escape of the vertical bar *)

(** C6 holds of the entries with a part of speech and fails of those
    without: the loader decodes [__VERTICAL_BAR__] in the branch of three
    fields only.  The entry [a__VERTICAL_BAR__b 10] is stored with the
    atoms of the text as it is written; with a part of speech added, the
    same text is stored as [a], [|], [b]. *)
Theorem C6_bar_decoded_only_with_pos {F : Type} `{Float32Ops F} `{RangeTables} :
  map text (parseLine "a__VERTICAL_BAR__b 10")
  = [map bytes ["a"; "_"; "_"; "vertical"; "_"; "bar"; "_"; "_"; "b"]]
  /\ map text (parseLine "a__VERTICAL_BAR__b 10 n")
     = [map bytes ["a"; "|"; "b"]].
Proof. split; by vm_compute. Qed.

(** ** C7: the tokens of the synonym products *)

(** C7: a token that the expansion step of [LoadDictionary] inserts in
    the dictionary is linked, as to its first synonym, to its source: a
    token stored when the files had been read, in whose expansion it was
    built.  It has the frequency, the distance and the part of speech of
    that source, and that distance is the one assigned to the source
    before the expansion, from the total frequency of the dictionary at
    that time. *)
Theorem C7_product_weights {F : Type} `{Float32Ops F} `{RangeTables}
    (files : list string) (seg' : Segmenter F) (q : nat) :
  let seg0 := foldl loadFile {| heap := []; dict := NewDictionary |} files in
  LoadDictionary files = Some seg' ->
  q ∈ tokens (dict seg') -> q ∉ tokens (dict seg0) ->
  exists p rest,
    p ∈ tokens (dict seg0)
    /\ synonyms (deref (heap seg') (Stored q)) = Stored p :: rest
    /\ frequency (deref (heap seg') (Stored q))
       = frequency (deref (heap seg') (Stored p))
    /\ distance (deref (heap seg') (Stored q))
       = distance (deref (heap seg') (Stored p))
    /\ pos (deref (heap seg') (Stored q)) = pos (deref (heap seg') (Stored p))
    /\ distance (deref (heap seg') (Stored q))
       = fsub (flog2 (totalFrequency (dict seg0)))
              (flog2 (frequency (deref (heap seg0) (Stored p)))).
Proof.
  intros seg0 Hload Hq Hnew. unfold LoadDictionary in Hload. fold seg0 in Hload.
  pose proof (readFiles_storeOK files) as Hok0. fold seg0 in Hok0.
  pose proof (assignDistances_storeOK seg0 Hok0) as Hok1.
  destruct (expandAll_inv _ _ Hok1 Hload) as (Hext & _ & Hw).
  destruct (Hw q Hq) as [?|(p & rest & Hp & _ & Hsyn & Hf & Hd & Hpos)]; [done|].
  exists p, rest. simpl in Hp. repeat split; try done.
  rewrite Hd.
  destruct (lookup_lt_is_Some_2 (heap seg0) p (Hok0 p Hp)) as [t Ht].
  destruct (assign_fold (flog2 (totalFrequency (dict seg0))) (tokens (dict seg0))
              _ _ _ Ht) as (t1 & Ht1 & _ & _ & _ & Hin & _).
  destruct (Hext _ _ Ht1) as (t' & Ht' & (_ & Hd' & _) & _).
  simpl. rewrite Ht', Ht. simpl. rewrite <- Hd'. by apply Hin.
Qed.

(** the token [hi world] of the synonym dictionary, built in the
    expansion of [hello world] *)
Lemma C7_product_weights_witness :
  exists p rest,
    p ∈ tokens (dict synonymRead)
    /\ synonyms (deref (heap synonymSegmenter) (Stored 5)) = Stored p :: rest
    /\ frequency (deref (heap synonymSegmenter) (Stored 5))
       = frequency (deref (heap synonymSegmenter) (Stored p))
    /\ distance (deref (heap synonymSegmenter) (Stored 5))
       = distance (deref (heap synonymSegmenter) (Stored p))
    /\ pos (deref (heap synonymSegmenter) (Stored 5))
       = pos (deref (heap synonymSegmenter) (Stored p))
    /\ distance (deref (heap synonymSegmenter) (Stored 5))
       = fsub (flog2 (totalFrequency (dict synonymRead)))
              (flog2 (frequency (deref (heap synonymRead) (Stored p)))).
Proof.
  apply (@C7_product_weights Z intWeights latin1Tables [synonymFile]
           synonymSegmenter 5).
  - by vm_compute.
  - apply (bool_decide_unpack _). by vm_compute.
  - apply (bool_decide_unpack _). by vm_compute.
Defined.

(** ** C8: spaces and the other white space *)

(** C8, as stated, fails: the tab is white space, and it is the atom
    that [splitTextToWords] returns for the text made of one tab. *)
Lemma C8_tab_is_an_atom :
  whitespaceAtom ["009"%char] = true
  /\ forall T : RangeTables, @splitTextToWords T ["009"%char] = [["009"%char]].
Proof. split; [reflexivity|]. intros T. by vm_compute. Qed.

(** ** C9: the atoms of a mixed text *)

(** C9: the atoms of [Je56 su4904is 1enchanté000才11] are [je], [56],
    [su], [4904], [is], [1], [enchanté], [000], [才], [11]. *)
Theorem C9_mixed_text_atoms `{RangeTables} :
  splitTextToWords (bytes "Je56 su4904is 1enchanté000才11")
  = map bytes ["je"; "56"; "su"; "4904"; "is"; "1"; "enchanté"; "000"; "才"; "11"].
Proof. by vm_compute. Qed.

(** * Further properties *)

(** ** The tokenizer as a function of the text left *)

Section Atoms.

Context `{RangeTables}.

Lemma textSliceToBytes_concat (ws : list Text) : textSliceToBytes ws = concat ws.
Proof.
  unfold textSliceToBytes.
  assert (forall acc, foldl (fun buf word : Text => buf ++ word) acc ws
                      = acc ++ concat ws) as Hgen.
  { induction ws as [|w ws IH]; intros acc; simpl; [by rewrite app_nil_r|].
    by rewrite IH, app_assoc. }
  apply Hgen.
Qed.

Lemma stripSpaces_app a b : stripSpaces (a ++ b) = stripSpaces a ++ stripSpaces b.
Proof. apply filter_app. Qed.

Lemma stripSpaces_id t : sp ∉ t -> stripSpaces t = t.
Proof.
  unfold stripSpaces. induction t as [|c t IH]; [done|]. intros Hn.
  rewrite filter_cons. destruct (decide (c <> sp)) as [Hc|Hc].
  - f_equal. apply IH. intros Hin. apply Hn. by right.
  - exfalso. apply Hn. apply dec_stable in Hc. subst. left.
Qed.

Lemma stripSpaces_space : stripSpaces space = [].
Proof. reflexivity. Qed.

Lemma toLower_app a b : toLower (a ++ b) = toLower a ++ toLower b.
Proof. apply map_app. Qed.

(** the bytes of a multi-byte scalar, and the byte of an invalid one, are
    not ASCII *)
Lemma DecodeRune_high c0 rest r size :
  0x80 <= byteVal c0 ->
  DecodeRune (c0 :: rest) = (r, size) ->
  Forall (fun c => 0x80 <= byteVal c) (take size (c0 :: rest)).
Proof.
  intros Hc0. unfold DecodeRune.
  assert (Hone : Forall (fun c => 0x80 <= byteVal c) (take 1 (c0 :: rest))).
  { simpl. rewrite take_0. by apply Forall_singleton. }
  case_match eqn:Hlow; [apply Z.ltb_lt in Hlow; lia|].
  destruct (leadInfo (byteVal c0)) as [[[sz lo] hi]|] eqn:Hlead;
    [|intros [= <- <-]; done].
  apply leadInfo_lo in Hlead as [Hlo Hsz].
  case_match; [intros [= <- <-]; done|].
  destruct rest as [|c1 rest1]; [intros [= <- <-]; done|].
  destruct (negb (inRange lo hi (byteVal c1))) eqn:Hr1; [intros [= <- <-]; done|].
  assert (0x80 <= byteVal c1) as Hb1.
  { apply negb_false_iff, andb_true_iff in Hr1 as [Hr1 _]. apply Z.leb_le in Hr1. lia. }
  case_match.
  { intros [= <- <-]. simpl. rewrite take_0. by repeat constructor. }
  destruct rest1 as [|c2 rest2]; [intros [= <- <-]; done|].
  destruct (negb (inRange locb hicb (byteVal c2))) eqn:Hr2; [intros [= <- <-]; done|].
  assert (0x80 <= byteVal c2) as Hb2.
  { apply negb_false_iff, andb_true_iff in Hr2 as [Hr2 _]. apply Z.leb_le in Hr2.
    unfold locb in Hr2. lia. }
  case_match.
  { intros [= <- <-]. simpl. rewrite take_0. by repeat constructor. }
  destruct rest2 as [|c3 rest3]; [intros [= <- <-]; done|].
  destruct (negb (inRange locb hicb (byteVal c3))) eqn:Hr3; [intros [= <- <-]; done|].
  assert (0x80 <= byteVal c3) as Hb3.
  { apply negb_false_iff, andb_true_iff in Hr3 as [Hr3 _]. apply Z.leb_le in Hr3.
    unfold locb in Hr3. lia. }
  intros [= <- <-]. simpl. rewrite take_0. by repeat constructor.
Qed.

Lemma toLowerByte_high c : 0x5B <= byteVal c -> toLowerByte c = c.
Proof.
  intros Hc. unfold toLowerByte. case_match eqn:Hup; [|done].
  apply andb_true_iff in Hup as [_ Hhi]. apply Z.leb_le in Hhi. lia.
Qed.

Lemma toLower_high t : Forall (fun c => 0x80 <= byteVal c) t -> toLower t = t.
Proof.
  induction 1 as [|c t Hc _ IH]; [done|]. unfold toLower in *. simpl.
  rewrite IH. f_equal. apply toLowerByte_high. lia.
Qed.

Lemma byteVal_range c : 0 <= byteVal c < 256.
Proof.
  unfold byteVal. pose proof (N_ascii_bounded c). lia.
Qed.

(** a scalar that is not a letter holds no capital letter *)
Lemma DecodeRune_lower c0 rest r size :
  DecodeRune (c0 :: rest) = (r, size) ->
  classify r size <> wordAlpha ->
  toLower (take size (c0 :: rest)) = take size (c0 :: rest).
Proof.
  intros Hdec Hcl. destruct (Z.ltb_spec (byteVal c0) 0x80) as [Hlow|Hhigh].
  - unfold DecodeRune in Hdec.
    destruct (byteVal c0 <? 0x80) eqn:Hl; [|apply Z.ltb_ge in Hl; lia].
    injection Hdec as <- <-. simpl. rewrite take_0. unfold toLower. simpl.
    f_equal. unfold toLowerByte. case_match eqn:Hup; [|done].
    exfalso. apply Hcl. unfold classify, IsLetter, MaxLatin1. simpl.
    apply andb_true_iff in Hup as [Hlo Hhi]. apply Z.leb_le in Hlo, Hhi.
    destruct (byteVal c0 <=? 0xFF) eqn:Hm; [|apply Z.leb_gt in Hm; lia].
    unfold latin1Letter, inRange.
    destruct (0x41 <=? byteVal c0) eqn:Ha; [|apply Z.leb_gt in Ha; lia].
    destruct (byteVal c0 <=? 0x5A) eqn:Hb; [|apply Z.leb_gt in Hb; lia].
    reflexivity.
  - apply toLower_high. by apply (DecodeRune_high _ _ r).
Qed.

Lemma runOK_nil ty : runOK ty [].
Proof. split; [done|]. left. apply not_elem_of_nil. Qed.

Lemma runOK_start c0 rest r size :
  DecodeRune (c0 :: rest) = (r, size) ->
  runOK (classify r size) (take size (c0 :: rest)).
Proof.
  intros Hdec. split.
  - by apply DecodeRune_lower.
  - destruct (decide (c0 = sp)) as [->|Hc0].
    + right. rewrite DecodeRune_sp in Hdec. injection Hdec as <- <-. by split.
    + left. by apply (DecodeRune_no_sp _ _ _ _ Hc0) in Hdec as [? _].
Qed.

Lemma runOK_more ty run c0 rest r size :
  runOK ty run ->
  DecodeRune (c0 :: rest) = (r, size) ->
  classify r size = ty -> ty <> wordOther ->
  runOK ty (run ++ take size (c0 :: rest)).
Proof.
  intros [Hlow Hsp] Hdec Hcl Hty. split.
  - intros Hna. rewrite toLower_app, Hlow by done. f_equal.
    apply (DecodeRune_lower _ _ r); [done|]. by rewrite Hcl.
  - left. intros Hin. apply elem_of_app in Hin as [Hin|Hin].
    + destruct Hsp as [?|[? _]]; done.
    + assert (c0 <> sp) as Hc0.
      { intros ->. rewrite DecodeRune_sp in Hdec. injection Hdec as <- <-.
        by rewrite classify_sp in Hcl. }
      by apply (DecodeRune_no_sp _ _ _ _ Hc0) in Hdec as [? _].
Qed.

Lemma wordOf_lower ty run : runOK ty run -> wordOf ty run = toLower run.
Proof.
  intros [Hlow _]. unfold wordOf. destruct ty; simpl; try done;
    symmetry; by apply Hlow.
Qed.

(** the bytes a finished run adds: its own, lowercased, but the space *)
Lemma flushRun_bytes ty run :
  runOK ty run -> concat (flushRun ty run) = stripSpaces (toLower run).
Proof.
  intros Hok. unfold flushRun. rewrite (wordOf_lower _ _ Hok).
  destruct run as [|c run]; [done|].
  unfold Text_eqb. destruct (bool_decide_reflect (toLower (c :: run) = space)) as [Hw|Hw].
  - by rewrite Hw.
  - cbn [concat]. rewrite app_nil_r. symmetry. apply stripSpaces_id.
    intros Hin. apply toLower_sp in Hin.
    destruct Hok as [_ [?|[_ Hr]]]; [done|]. by rewrite Hr in Hw.
Qed.

Lemma atomsFrom_bytes fuel :
  forall ty run rest,
  runOK ty run -> (length rest <= fuel)%nat ->
  concat (atomsFrom fuel ty run rest) = stripSpaces (toLower (run ++ rest)).
Proof.
  induction fuel as [|fuel IH]; intros ty run rest Hok Hfuel.
  - destruct rest; [|simpl in Hfuel; lia]. rewrite app_nil_r. by apply flushRun_bytes.
  - destruct rest as [|c0 rest]; [rewrite app_nil_r; by apply flushRun_bytes|].
    cbn [atomsFrom]. destruct (DecodeRune (c0 :: rest)) as [r size] eqn:Hdec.
    assert (Hsize : (1 <= size <= length (c0 :: rest))%nat)
      by (by apply (DecodeRune_size _ r)).
    assert (Hsplit : c0 :: rest = take size (c0 :: rest) ++ drop size (c0 :: rest))
      by (by rewrite take_drop).
    assert (Hrest : (length (drop size (c0 :: rest)) <= fuel)%nat)
      by (rewrite length_drop; simpl in *; lia).
    case_match eqn:Hswitch.
    + rewrite concat_app, (flushRun_bytes _ _ Hok),
        (IH _ _ _ (runOK_start _ _ _ _ Hdec) Hrest), <- Hsplit.
      by rewrite toLower_app, stripSpaces_app.
    + apply orb_false_iff in Hswitch as [Hsame Hother].
      apply negb_false_iff in Hsame.
      assert (classify r size = ty) as Hcl by (by destruct (classify r size), ty).
      assert (ty <> wordOther) as Hty by (intros ->; by rewrite Hcl in Hother).
      rewrite (IH _ _ _ (runOK_more _ _ _ _ _ _ Hok Hdec Hcl Hty) Hrest).
      by rewrite <- app_assoc, <- Hsplit.
Qed.

(** every atom has at least one byte and holds no capital letter *)
Lemma flushRun_shape ty run :
  runOK ty run -> Forall (fun w => w <> [] /\ toLower w = w) (flushRun ty run).
Proof.
  intros Hok. unfold flushRun. rewrite (wordOf_lower _ _ Hok).
  destruct run as [|c run]; [done|]. case_match; [done|].
  apply Forall_singleton. split; [done|].
  unfold toLower. rewrite <- list_fmap_compose. apply list_fmap_ext.
  intros _ b _. simpl. unfold toLowerByte at 1.
  case_match eqn:Hup; [|done]. exfalso.
  apply andb_true_iff in Hup as [Hlo Hhi]. apply Z.leb_le in Hlo, Hhi.
  unfold toLowerByte in Hlo, Hhi. case_match eqn:Hup'.
  - apply andb_true_iff in Hup' as [Hlo' Hhi']. apply Z.leb_le in Hlo', Hhi'.
    unfold byteVal in Hlo, Hhi. rewrite N_ascii_embedding in Hlo, Hhi by (unfold byteVal in *; lia).
    unfold byteVal in *. lia.
  - apply andb_false_iff in Hup' as [Hn|Hn]; apply Z.leb_gt in Hn; lia.
Qed.

Lemma atomsFrom_shape fuel :
  forall ty run rest,
  runOK ty run ->
  Forall (fun w => w <> [] /\ toLower w = w) (atomsFrom fuel ty run rest).
Proof.
  induction fuel as [|fuel IH]; intros ty run rest Hok.
  - by apply flushRun_shape.
  - destruct rest as [|c0 rest]; [by apply flushRun_shape|].
    cbn [atomsFrom]. destruct (DecodeRune (c0 :: rest)) as [r size] eqn:Hdec.
    case_match eqn:Hswitch.
    + apply Forall_app. split; [by apply flushRun_shape|].
      apply IH. by apply (runOK_start _ _ r).
    + apply orb_false_iff in Hswitch as [Hsame Hother].
      apply negb_false_iff in Hsame.
      assert (classify r size = ty) as Hcl by (by destruct (classify r size), ty).
      assert (ty <> wordOther) as Hty by (intros ->; by rewrite Hcl in Hother).
      apply IH. by apply (runOK_more _ _ _ _ r).
Qed.

(** *** The loop of [splitTextToWords] computes [atomsFrom] *)

Lemma finishSplit_flush text s :
  (sp_preWordStart s <= sp_current s <= length text)%nat ->
  (sp_current s = 0%nat \/ sp_preWordStart s < sp_current s)%nat ->
  finishSplit text s
  = sp_output s
    ++ flushRun (sp_preWordType s) (slice text (sp_preWordStart s) (sp_current s)).
Proof.
  intros Hb Hrun. unfold finishSplit, emitWord, flushRun, wordOf.
  destruct (sp_current s =? 0)%nat eqn:Hzero; simpl.
  - apply Nat.eqb_eq in Hzero. rewrite Hzero.
    assert (sp_preWordStart s = 0%nat) as -> by lia.
    by rewrite slice_empty, app_nil_r.
  - apply Nat.eqb_neq in Hzero.
    destruct (slice text (sp_preWordStart s) (sp_current s)) as [|c run] eqn:Hs.
    { apply (f_equal length) in Hs. rewrite slice_length in Hs by lia. simpl in Hs. lia. }
    destruct (Text_eqb _ space); simpl; [by rewrite app_nil_r|done].
Qed.

Lemma splitLoop_atoms text fuel :
  forall s,
  (sp_preWordStart s <= sp_current s <= length text)%nat ->
  (sp_current s = 0%nat \/ sp_preWordStart s < sp_current s)%nat ->
  (length text - sp_current s <= fuel)%nat ->
  finishSplit text (splitLoop fuel text s)
  = sp_output s
    ++ atomsFrom fuel (sp_preWordType s)
         (slice text (sp_preWordStart s) (sp_current s))
         (drop (sp_current s) text).
Proof.
  induction fuel as [|fuel IH]; intros s Hb Hrun Hfuel.
  - simpl. by apply finishSplit_flush.
  - cbn [splitLoop]. destruct (sp_current s <? length text)%nat eqn:Hlt.
    + apply Nat.ltb_lt in Hlt.
      destruct (drop (sp_current s) text) as [|c0 rest] eqn:Hdrop.
      { apply (f_equal length) in Hdrop. rewrite length_drop in Hdrop. simpl in Hdrop. lia. }
      assert (Hdl : length (c0 :: rest) = (length text - sp_current s)%nat)
        by (rewrite <- Hdrop; apply length_drop).
      cbn [atomsFrom]. unfold splitStep. rewrite Hdrop.
      destruct (DecodeRune (c0 :: rest)) as [r size] eqn:Hdec.
      assert (Hsize : (1 <= size <= length (c0 :: rest))%nat)
      by (by apply (DecodeRune_size _ r)).
      assert (Hscalar : slice text (sp_current s) (sp_current s + size)
                        = take size (c0 :: rest))
        by (by rewrite slice_next, Hdrop).
      assert (Hnext : drop (sp_current s + size) text = drop size (c0 :: rest))
        by (by rewrite <- Hdrop, drop_drop).
      case_match eqn:Hswitch.
      * rewrite IH; simpl; try lia.
        rewrite Hscalar, Hnext, app_assoc. f_equal.
        pose proof (finishSplit_flush text s Hb Hrun) as Hf.
        unfold finishSplit in Hf. by rewrite Hf.
      * rewrite IH; simpl; try lia.
        rewrite Hnext, <- (slice_app text _ (sp_current s)) by lia.
        by rewrite Hscalar.
    + apply Nat.ltb_ge in Hlt.
      assert (drop (sp_current s) text = []) as -> by (apply drop_ge; lia).
      simpl. by apply finishSplit_flush.
Qed.

Lemma splitTextToWords_atoms text :
  splitTextToWords text = atomsFrom (length text) wordAlpha [] text.
Proof.
  unfold splitTextToWords.
  pose proof (splitLoop_atoms text (length text)
                {| sp_output := []; sp_current := 0;
                   sp_preWordType := wordAlpha; sp_preWordStart := 0 |}) as Hl.
  simpl in Hl. unfold finishSplit in Hl. rewrite Hl by lia.
  by rewrite slice_empty, drop_0.
Qed.

(** *** A space ends a run whatever follows it *)

Lemma atomsFrom_fuel fuel :
  forall fuel' ty run rest,
  (length rest <= fuel)%nat -> (length rest <= fuel')%nat ->
  atomsFrom fuel ty run rest = atomsFrom fuel' ty run rest.
Proof.
  induction fuel as [|fuel IH]; intros fuel' ty run rest Hf Hf'.
  - destruct rest; [|simpl in Hf; lia]. by destruct fuel'.
  - destruct rest as [|c0 rest]; [by destruct fuel'|].
    destruct fuel' as [|fuel']; [simpl in Hf'; lia|].
    cbn [atomsFrom]. destruct (DecodeRune (c0 :: rest)) as [r size] eqn:Hdec.
    assert (Hsize : (1 <= size <= length (c0 :: rest))%nat)
      by (by apply (DecodeRune_size _ r)).
    assert (Hrest : (length (drop size (c0 :: rest)) <= fuel)%nat
                    /\ (length (drop size (c0 :: rest)) <= fuel')%nat)
      by (rewrite length_drop; simpl in *; lia).
    destruct Hrest. case_match; [f_equal|]; by apply IH.
Qed.

Lemma inRange_sp lo hi : 0x80 <= lo -> negb (inRange lo hi (byteVal sp)) = true.
Proof.
  intros Hlo. unfold inRange. change (byteVal sp) with 0x20.
  apply negb_true_iff, andb_false_iff. left. apply Z.leb_gt. lia.
Qed.

(** a scalar is decoded the same when a space follows the text *)
Lemma DecodeRune_app_sp c0 a b :
  DecodeRune ((c0 :: a) ++ sp :: b) = DecodeRune (c0 :: a).
Proof.
  unfold DecodeRune. cbn [app]. case_match; [done|].
  destruct (leadInfo (byteVal c0)) as [[[sz lo] hi]|] eqn:Hlead; [|done].
  apply leadInfo_lo in Hlead as [Hlo Hsz].
  pose proof (inRange_sp lo hi Hlo) as Hsp1.
  pose proof (inRange_sp locb hicb ltac:(unfold locb; lia)) as Hsp2.
  destruct sz as [|[|[|[|[|sz]]]]]; try lia;
    destruct a as [|c1 [|c2 [|c3 a]]]; cbn [app length Nat.ltb Nat.leb];
    rewrite ?Hsp1, ?Hsp2; repeat case_match; try done.
Qed.

Lemma atomsFrom_space fuel b :
  (length b <= fuel)%nat ->
  atomsFrom fuel wordOther space b = atomsFrom fuel wordAlpha [] b.
Proof.
  intros Hf. destruct fuel as [|fuel]; [done|].
  destruct b as [|c0 rest]; [done|].
  cbn [atomsFrom]. destruct (DecodeRune (c0 :: rest)) as [r size] eqn:Hdec.
  destruct (classify r size); reflexivity.
Qed.

Lemma atomsFrom_sp fa :
  forall a ty run b fuel,
  (length a <= fa)%nat -> (length (a ++ sp :: b) <= fuel)%nat ->
  atomsFrom fuel ty run (a ++ sp :: b)
  = atomsFrom fa ty run a ++ atomsFrom (length b) wordAlpha [] b.
Proof.
  induction fa as [|fa IH]; intros a ty run b fuel Ha Hf.
  - destruct a; [|simpl in Ha; lia]. rewrite length_app in Hf. simpl in *.
    destruct fuel as [|fuel]; [lia|]. cbn [atomsFrom].
    rewrite DecodeRune_sp, classify_sp.
    replace (negb (wordType_eqb wordOther ty) || wordType_eqb wordOther wordOther)
      with true by (by destruct ty).
    f_equal. change (take 1 (sp :: b)) with space. change (drop 1 (sp :: b)) with b.
    rewrite atomsFrom_space by lia. apply atomsFrom_fuel; lia.
  - destruct a as [|c0 a].
    { rewrite (IH [] ty run b fuel) by (simpl; done || lia). by destruct fa. }
    destruct fuel as [|fuel]; [simpl in Hf; lia|].
    cbn [atomsFrom]. change ((c0 :: a) ++ sp :: b) with (c0 :: a ++ sp :: b).
    cbn iota. change (c0 :: a ++ sp :: b) with ((c0 :: a) ++ sp :: b).
    rewrite DecodeRune_app_sp.
    destruct (DecodeRune (c0 :: a)) as [r size] eqn:Hdec.
    assert (Hsize : (1 <= size <= length (c0 :: a))%nat)
      by (by apply (DecodeRune_size _ r)).
    rewrite take_app_le, drop_app_le by lia.
    assert (Hrest : (length (drop size (c0 :: a)) <= fa)%nat)
      by (rewrite length_drop; simpl in *; lia).
    assert (Hrest' : (length (drop size (c0 :: a) ++ sp :: b) <= fuel)%nat).
    { rewrite length_app, length_drop. rewrite length_app in Hf. simpl in *. lia. }
    case_match; [rewrite <- app_assoc; f_equal|]; by apply IH.
Qed.

End Atoms.

Section AtomsOfAText.

Context `{RangeTables}.

Lemma toLower_fixed w c :
  toLower w = w -> c ∈ w -> ~ (0x41 <= byteVal c <= 0x5A).
Proof.
  intros Hw Hc Hup. induction w as [|b w IH]; [by apply elem_of_nil in Hc|].
  unfold toLower in *. simpl in Hw. injection Hw as Hb Hw.
  apply elem_of_cons in Hc as [->|Hc]; [|by apply IH].
  unfold toLowerByte in Hb.
  destruct (0x41 <=? byteVal b) eqn:Hlo; [|apply Z.leb_gt in Hlo; lia].
  destruct (byteVal b <=? 0x5A) eqn:Hhi; [|apply Z.leb_gt in Hhi; lia].
  simpl in Hb. apply (f_equal N_of_ascii) in Hb.
  rewrite N_ascii_embedding in Hb by lia. unfold byteVal in *. lia.
Qed.

(** X1: the atoms of a text, one after the other, are the bytes of the
    text with the capital ASCII letters lowered and the space bytes
    taken out.  Nothing else of the input is lost, added or moved, also
    when the input is not valid UTF-8. *)
Theorem X1_atoms_keep_the_bytes (text : Text) :
  textSliceToBytes (splitTextToWords text) = stripSpaces (toLower text).
Proof.
  rewrite textSliceToBytes_concat, splitTextToWords_atoms.
  rewrite atomsFrom_bytes; [done|apply runOK_nil|done].
Qed.

(** X2: [splitTextToWords] returns no empty atom, and no atom holds a
    capital ASCII letter: such a byte is always read as a letter, and the
    runs of letters are lowercased. *)
Theorem X2_atoms_nonempty_lowercase (text : Text) :
  Forall (fun w => w <> []
                   /\ forall c, c ∈ w -> ~ (0x41 <= byteVal c <= 0x5A))
         (splitTextToWords text).
Proof.
  rewrite splitTextToWords_atoms. eapply Forall_impl.
  - apply atomsFrom_shape, runOK_nil.
  - intros w [Hne Hlow]. split; [done|]. intros c. by apply toLower_fixed.
Qed.

Lemma splitTextToWords_nil (text : Text) :
  splitTextToWords text = [] <-> Forall (fun c => c = sp) text.
Proof.
  pose proof (Hbytes := atomsFrom_bytes (length text) wordAlpha [] text
                            (runOK_nil _) ltac:(done)).
  pose proof (Hshape := atomsFrom_shape (length text) wordAlpha [] text (runOK_nil _)).
  rewrite splitTextToWords_atoms. simpl in Hbytes. split.
  - intros Hnil. rewrite Hnil in Hbytes. simpl in Hbytes.
    apply Forall_forall. intros c Hc. apply dec_stable. intros Hn.
    assert (toLowerByte c ∈ stripSpaces (toLower text)) as Hin.
    { apply list_elem_of_filter. split.
      - intros Heq. by apply toLowerByte_sp in Heq.
      - apply list_elem_of_fmap. by exists c. }
    rewrite <- Hbytes in Hin. by apply elem_of_nil in Hin.
  - intros Hall.
    assert (stripSpaces (toLower text) = []) as Hs.
    { clear -Hall. induction Hall as [|c t -> _ IH]; [done|]. exact IH. }
    rewrite Hs in Hbytes.
    destruct (atomsFrom (length text) wordAlpha [] text) as [|w ws]; [done|].
    apply Forall_cons in Hshape as [[Hne _] _]. simpl in Hbytes.
    by apply app_eq_nil in Hbytes as [? _].
Qed.

(** X3: [splitTextToWords] returns no atom exactly when the text holds
    nothing but space bytes (the empty text included). *)
Theorem X3_no_atom_iff_spaces (text : Text) :
  splitTextToWords text = [] <-> Forall (fun c => c = sp) text.
Proof. apply splitTextToWords_nil. Qed.

(** X4: a space byte cuts the text in two: the atoms of [a], a space and
    [b] are the atoms of [a] followed by those of [b], whatever bytes
    (valid UTF-8 or not) stand on either side of the space. *)
Theorem X4_space_separates (a b : Text) :
  splitTextToWords (a ++ sp :: b) = splitTextToWords a ++ splitTextToWords b.
Proof.
  rewrite !splitTextToWords_atoms.
  by apply (atomsFrom_sp (length a)).
Qed.

End AtomsOfAText.

(** ** [Join] and the round trip through the tokenizer *)

Section JoinRoundTrip.

Context `{RangeTables}.

Lemma bytes_app (a b : string) : bytes (a ++ b) = bytes a ++ bytes b.
Proof. unfold bytes. induction a as [|c a IH]; simpl; [done|]. by rewrite IH. Qed.

Lemma bytes_of_list (l : Text) : bytes (string_of_list_ascii l) = l.
Proof. apply list_ascii_of_string_of_list_ascii. Qed.

Lemma Join_fold (n : nat) (l : list Text) :
  forall (k : nat) (acc : string),
  (k + length l)%nat = n ->
  bytes (foldl (fun b '(i, text) =>
                  let b := (b ++ string_of_list_ascii text)%string in
                  let '(r, size) := DecodeRune text in
                  if negb (Z.of_nat i =? Z.of_nat n - 1)
                     && (size <=? 2)%nat && (IsLetter r || IsNumber r)
                  then (b ++ " ")%string else b)
               acc (imap (fun i => pair (k + i)%nat) l))
  = bytes acc ++ joinFrom l.
Proof.
  induction l as [|w l IH]; intros k acc Hn.
  - simpl. by rewrite app_nil_r.
  - rewrite imap_cons. cbn [foldl joinFrom].
    rewrite (imap_ext _ (fun i => pair (S k + i)%nat))
      by (intros; simpl; f_equal; lia).
    rewrite IH by (simpl in Hn; lia). unfold spaceAfter.
    destruct (DecodeRune w) as [r size]. simpl in Hn.
    destruct l as [|w' l].
    + replace (Z.of_nat (k + 0) =? Z.of_nat n - 1) with true
        by (symmetry; apply Z.eqb_eq; simpl in Hn; lia).
      simpl. by rewrite bytes_app, bytes_of_list, !app_nil_r.
    + replace (Z.of_nat (k + 0) =? Z.of_nat n - 1) with false
        by (symmetry; apply Z.eqb_neq; simpl in Hn; lia).
      cbn [negb andb].
      destruct ((size <=? 2)%nat && (IsLetter r || IsNumber r)).
      * by rewrite !bytes_app, bytes_of_list, <- !app_assoc.
      * by rewrite bytes_app, bytes_of_list, <- !app_assoc.
Qed.

(** the bytes of [Join a] *)
Lemma Join_bytes (a : list Text) : bytes (Join a) = joinFrom a.
Proof.
  exact (Join_fold (length a) a 0 EmptyString eq_refl).
Qed.

(** *** Valid scalars *)

(** a valid scalar is decoded from its own bytes, whatever follows them *)
Lemma DecodeRune_prefix c0 rest r size rest' :
  DecodeRune (c0 :: rest) = (r, size) ->
  (size = 1%nat -> byteVal c0 < 0x80) ->
  DecodeRune (take size (c0 :: rest) ++ rest') = (r, size).
Proof.
  unfold DecodeRune at 1.
  destruct (byteVal c0 <? 0x80) eqn:Hlow.
  { intros [= <- <-] _. simpl. by rewrite Hlow. }
  apply Z.ltb_ge in Hlow.
  assert (Hbad : forall x : Z, (x, 1%nat) = (r, size) ->
            (size = 1%nat -> byteVal c0 < 0x80) ->
            DecodeRune (take size (c0 :: rest) ++ rest') = (r, size)).
  { intros x [= <- <-] Hv. specialize (Hv eq_refl). lia. }
  destruct (leadInfo (byteVal c0)) as [[[sz lo] hi]|] eqn:Hlead; [|apply Hbad].
  pose proof (leadInfo_lo _ _ _ _ Hlead) as [Hlo Hsz].
  case_match; [apply Hbad|].
  destruct rest as [|c1 rest1]; [apply Hbad|].
  destruct (negb (inRange lo hi (byteVal c1))) eqn:Hr1; [apply Hbad|].
  destruct (sz <=? 2)%nat eqn:Hs2.
  { intros [= <- <-] _. apply Nat.leb_le in Hs2.
    cbn [take app]. rewrite take_0. cbn [app]. unfold DecodeRune.
    destruct (byteVal c0 <? 0x80) eqn:Hl; [apply Z.ltb_lt in Hl; lia|].
    rewrite Hlead, Hr1.
    destruct (length (c0 :: c1 :: rest') <? sz)%nat eqn:Hlen;
      [apply Nat.ltb_lt in Hlen; simpl in Hlen; lia|].
    assert ((sz <=? 2)%nat = true) as -> by (apply Nat.leb_le; lia). done. }
  destruct rest1 as [|c2 rest2]; [apply Hbad|].
  destruct (negb (inRange locb hicb (byteVal c2))) eqn:Hr2; [apply Hbad|].
  destruct (sz <=? 3)%nat eqn:Hs3.
  { intros [= <- <-] _. apply Nat.leb_le in Hs3.
    cbn [take app]. rewrite take_0. cbn [app]. unfold DecodeRune.
    destruct (byteVal c0 <? 0x80) eqn:Hl; [apply Z.ltb_lt in Hl; lia|].
    rewrite Hlead, Hr1, Hr2, Hs2.
    destruct (length (c0 :: c1 :: c2 :: rest') <? sz)%nat eqn:Hlen;
      [apply Nat.ltb_lt in Hlen; simpl in Hlen; lia|].
    assert ((sz <=? 3)%nat = true) as -> by (apply Nat.leb_le; lia). done. }
  destruct rest2 as [|c3 rest3]; [apply Hbad|].
  destruct (negb (inRange locb hicb (byteVal c3))) eqn:Hr3; [apply Hbad|].
  intros [= <- <-] _.
  cbn [take app]. rewrite take_0. cbn [app]. unfold DecodeRune.
  destruct (byteVal c0 <? 0x80) eqn:Hl; [apply Z.ltb_lt in Hl; lia|].
  rewrite Hlead, Hr1, Hr2, Hr3, Hs2, Hs3.
  destruct (length (c0 :: c1 :: c2 :: c3 :: rest') <? sz)%nat eqn:Hlen;
    [apply Nat.ltb_lt in Hlen; simpl in Hlen; lia|]. done.
Qed.

Lemma isScalar_nonempty ty w : isScalar ty w -> w <> [].
Proof. by intros (c0 & rest & r & -> & _). Qed.

Lemma isScalar_decode ty w rest :
  isScalar ty w ->
  exists r, DecodeRune (w ++ rest) = (r, length w) /\ classify r (length w) = ty.
Proof.
  intros (c0 & rest0 & r & -> & Hdec & Hv & Hcl). exists r. split; [|done].
  pose proof (DecodeRune_prefix _ _ _ _ rest Hdec Hv) as Hp.
  by rewrite firstn_all in Hp.
Qed.

Lemma valid_step fuel c0 rest :
  validFrom (S fuel) (c0 :: rest) = true ->
  exists r size,
    DecodeRune (c0 :: rest) = (r, size)
    /\ isScalar (classify r size) (take size (c0 :: rest))
    /\ validFrom fuel (drop size (c0 :: rest)) = true.
Proof.
  cbn [validFrom]. destruct (DecodeRune (c0 :: rest)) as [r size] eqn:Hdec.
  intros Hv. apply andb_true_iff in Hv as [Hsz Hrest].
  exists r, size. split; [done|]. split; [|done].
  assert (Hsize : (1 <= size <= length (c0 :: rest))%nat)
    by (by apply (DecodeRune_size _ r)).
  assert (Hone : size = 1%nat -> byteVal c0 < 0x80).
  { intros ->. simpl in Hsz. by apply Z.ltb_lt. }
  assert (Hlen : length (take size (c0 :: rest)) = size)
    by (rewrite length_take; lia).
  destruct size as [|size]; [lia|].
  exists c0, (take size rest), r. split; [done|].
  change (c0 :: take size rest) with (take (S size) (c0 :: rest)).
  rewrite Hlen. split; [|by split].
  pose proof (DecodeRune_prefix _ _ _ _ [] Hdec Hone) as Hp.
  by rewrite app_nil_r in Hp.
Qed.

(** *** The atoms of a valid text *)

Lemma toLowerByte_idem c : toLowerByte (toLowerByte c) = toLowerByte c.
Proof.
  remember (toLowerByte c) as d eqn:Hd. unfold toLowerByte in Hd.
  destruct ((0x41 <=? byteVal c) && (byteVal c <=? 0x5A)) eqn:Hup; subst d.
  - apply andb_true_iff in Hup as [Hlo Hhi]. apply Z.leb_le in Hlo, Hhi.
    apply toLowerByte_high. unfold byteVal at 1.
    rewrite N_ascii_embedding by lia. lia.
  - unfold toLowerByte. by rewrite Hup.
Qed.

Lemma toLower_idem w : toLower (toLower w) = toLower w.
Proof.
  unfold toLower. rewrite <- list_fmap_compose. apply list_fmap_ext.
  intros _ c _. apply toLowerByte_idem.
Qed.

Lemma wordOf_idem ty w : wordOf ty (wordOf ty w) = wordOf ty w.
Proof. unfold wordOf. case_match; [apply toLower_idem|done]. Qed.

Lemma latin1Letter_lower v : 0x61 <= v <= 0x7A -> latin1Letter v = true.
Proof.
  intros Hv. unfold latin1Letter.
  assert (inRange 0x61 0x7A v = true) as ->.
  { unfold inRange. apply andb_true_iff. split; apply Z.leb_le; lia. }
  by rewrite orb_true_r.
Qed.

Lemma latin1Letter_ascii v :
  v < 0x80 -> latin1Letter v = true -> 0x41 <= v <= 0x5A \/ 0x61 <= v <= 0x7A.
Proof.
  intros Hv. unfold latin1Letter, inRange. intros Hl.
  repeat (apply orb_true_iff in Hl as [Hl|Hl]);
    repeat (apply andb_true_iff in Hl as [? ?]);
    repeat match goal with
           | Hx : (_ <=? _) = true |- _ => apply Z.leb_le in Hx
           | Hx : (_ =? _) = true |- _ => apply Z.eqb_eq in Hx
           end; lia.
Qed.

(** the lowercased letter is a letter *)
Lemma isScalar_lower s : isScalar wordAlpha s -> isScalar wordAlpha (toLower s).
Proof.
  intros (c0 & rest & r & -> & Hdec & Hv & Hcl).
  destruct (Z.ltb_spec (byteVal c0) 0x80) as [Hlow|Hhigh].
  - unfold DecodeRune in Hdec.
    destruct (byteVal c0 <? 0x80) eqn:Hl; [|apply Z.ltb_ge in Hl; lia].
    injection Hdec as <- Hlen. destruct rest; [|done]. clear Hlen Hv.
    simpl in Hcl. unfold classify in Hcl. simpl in Hcl.
    destruct (IsLetter (byteVal c0)) eqn:Hletter; [|by destruct (IsNumber (byteVal c0))].
    unfold IsLetter, MaxLatin1 in Hletter.
    destruct (byteVal c0 <=? 0xFF) eqn:Hm; [|apply Z.leb_gt in Hm; lia].
    apply latin1Letter_ascii in Hletter; [|done].
    assert (0x61 <= byteVal (toLowerByte c0) <= 0x7A) as Hnew.
    { unfold toLowerByte. case_match eqn:Hup.
      - apply andb_true_iff in Hup as [Hlo Hhi]. apply Z.leb_le in Hlo, Hhi.
        unfold byteVal at 1 3. rewrite N_ascii_embedding by lia. lia.
      - apply andb_false_iff in Hup as [Hn|Hn]; apply Z.leb_gt in Hn; lia. }
    exists (toLowerByte c0), [], (byteVal (toLowerByte c0)).
    split; [done|]. unfold toLower. simpl.
    destruct (byteVal (toLowerByte c0) <? 0x80) eqn:Hl'; [|apply Z.ltb_ge in Hl'; lia].
    split; [done|]. split; [intros _; lia|].
    unfold classify, IsLetter, MaxLatin1. simpl.
    destruct (byteVal (toLowerByte c0) <=? 0xFF) eqn:Hm'; [|apply Z.leb_gt in Hm'; lia].
    by rewrite latin1Letter_lower.
  - assert (toLower (c0 :: rest) = c0 :: rest) as ->; [|by exists c0, rest, r].
    apply toLower_high. rewrite <- (firstn_all (c0 :: rest)).
    by apply (DecodeRune_high _ _ r).
Qed.

Lemma toLower_concat (ss : list Text) : toLower (concat ss) = concat (map toLower ss).
Proof.
  induction ss as [|s ss IH]; [done|]. simpl. by rewrite toLower_app, IH.
Qed.

Lemma isRun_nonempty ty w : isRun ty w -> w <> [].
Proof.
  intros (s & ss & -> & Hall & _). apply Forall_cons in Hall as [Hs _].
  apply isScalar_nonempty in Hs. simpl. by destruct s.
Qed.

Lemma isRun_wordOf ty w : isRun ty w -> isRun ty (wordOf ty w).
Proof.
  intros Hrun. unfold wordOf. destruct ty; simpl; try done.
  destruct Hrun as (s & ss & -> & Hall & Hone).
  exists (toLower s), (map toLower ss). split; [|split].
  - rewrite toLower_concat. done.
  - change (toLower s :: map toLower ss) with (map toLower (s :: ss)).
    apply Forall_fmap. eapply Forall_impl; [done|]. intros x. apply isScalar_lower.
  - done.
Qed.

Lemma isRun_one ty s : isScalar ty s -> isRun ty s.
Proof.
  intros Hs. exists s, []. split; [simpl; by rewrite app_nil_r|]. split; [|done].
  by apply Forall_singleton.
Qed.

Lemma isRun_more ty run s :
  run = [] \/ isRun ty run -> ty <> wordOther -> isScalar ty s ->
  isRun ty (run ++ s).
Proof.
  intros [->|(s0 & ss & -> & Hall & _)] Hty Hs; [by apply isRun_one|].
  exists s0, (ss ++ [s]). split; [|split; [|done]].
  - change (s0 :: ss ++ [s]) with ((s0 :: ss) ++ [s]).
    rewrite concat_app. simpl. by rewrite app_nil_r.
  - change (s0 :: ss ++ [s]) with ((s0 :: ss) ++ [s]).
    apply Forall_app. split; [done|]. by apply Forall_singleton.
Qed.

Lemma flushRun_isAtom ty run :
  run = [] \/ isRun ty run -> Forall isAtom (flushRun ty run).
Proof.
  intros [->|Hrun]; [done|]. unfold flushRun.
  destruct run as [|c run]; [done|].
  unfold Text_eqb. destruct (bool_decide_reflect (wordOf ty (c :: run) = space)) as [Hw|Hw];
    [done|].
  apply Forall_singleton. exists ty. split; [by apply isRun_wordOf|].
  split; [apply wordOf_idem|done].
Qed.

Lemma atomsFrom_isAtom fuel :
  forall ty run rest,
  run = [] \/ isRun ty run -> validFrom fuel rest = true ->
  Forall isAtom (atomsFrom fuel ty run rest).
Proof.
  induction fuel as [|fuel IH]; intros ty run rest Hrun Hvalid.
  - by apply flushRun_isAtom.
  - destruct rest as [|c0 rest]; [by apply flushRun_isAtom|].
    destruct (valid_step _ _ _ Hvalid) as (r & size & Hdec & Hs & Hrest).
    cbn [atomsFrom]. rewrite Hdec.
    case_match eqn:Hswitch.
    + apply Forall_app. split; [by apply flushRun_isAtom|].
      apply IH; [|done]. right. by apply isRun_one.
    + apply orb_false_iff in Hswitch as [Hsame Hother].
      apply negb_false_iff in Hsame.
      assert (classify r size = ty) as Hcl by (by destruct (classify r size), ty).
      assert (ty <> wordOther) as Hty by (intros ->; by rewrite Hcl in Hother).
      apply IH; [|done]. right. apply isRun_more; [done|done|]. by rewrite <- Hcl.
Qed.

(** the atoms of a valid text are runs of valid scalars *)
Lemma splitTextToWords_isAtom text :
  validUTF8 text = true -> Forall isAtom (splitTextToWords text).
Proof.
  intros Hv. rewrite splitTextToWords_atoms. apply atomsFrom_isAtom; [by left|done].
Qed.

(** *** Reading the bytes of [Join] *)

Lemma atomsFrom_scalars ty (ss : list Text) :
  forall run rest fuel,
  ty <> wordOther -> Forall (isScalar ty) ss ->
  (length (concat ss ++ rest) <= fuel)%nat ->
  atomsFrom fuel ty run (concat ss ++ rest)
  = atomsFrom fuel ty (run ++ concat ss) rest.
Proof.
  induction ss as [|s ss IH]; intros run rest fuel Hty Hall Hfuel.
  { simpl. by rewrite app_nil_r. }
  apply Forall_cons in Hall as [Hs Hall].
  destruct (isScalar_decode ty s (concat ss ++ rest) Hs) as (r & Hdec & Hcl).
  pose proof (isScalar_nonempty _ _ Hs) as Hne.
  cbn [concat] in *. rewrite <- app_assoc in *.
  destruct s as [|c0 s]; [done|]. rewrite !length_app in Hfuel.
  destruct fuel as [|fuel]; [simpl in Hfuel; lia|].
  rewrite (atomsFrom_fuel (S fuel) fuel ty (run ++ (c0 :: s) ++ concat ss) rest)
    by (simpl in Hfuel; lia).
  cbn [atomsFrom]. change ((c0 :: s) ++ concat ss ++ rest)
    with (c0 :: s ++ concat ss ++ rest). cbn iota.
  change (c0 :: s ++ concat ss ++ rest) with ((c0 :: s) ++ concat ss ++ rest).
  rewrite Hdec, Hcl.
  replace (negb (wordType_eqb ty ty) || wordType_eqb ty wordOther) with false
    by (by destruct ty).
  rewrite take_app_length, drop_app_length.
  rewrite IH by (try done; rewrite length_app; simpl in Hfuel; lia).
  by rewrite <- app_assoc.
Qed.

Lemma atomsFrom_run ty' w ty run rest fuel :
  isRun ty' w -> run = [] \/ ty = wordOther ->
  (length (w ++ rest) <= fuel)%nat ->
  atomsFrom fuel ty run (w ++ rest) = flushRun ty run ++ atomsFrom fuel ty' w rest.
Proof.
  intros (s & ss & -> & Hall & Hone) Hstate Hfuel.
  apply Forall_cons in Hall as [Hs Hall].
  destruct (isScalar_decode ty' s (concat ss ++ rest) Hs) as (r & Hdec & Hcl).
  pose proof (isScalar_nonempty _ _ Hs) as Hne.
  cbn [concat] in *. rewrite <- app_assoc in *.
  destruct s as [|c0 s]; [done|]. rewrite length_app in Hfuel.
  destruct fuel as [|fuel]; [simpl in Hfuel; lia|].
  assert (Hrest : (length (concat ss ++ rest) <= fuel)%nat) by (simpl in Hfuel; lia).
  assert (Hrest' : (length rest <= fuel)%nat)
    by (rewrite length_app in Hrest; lia).
  rewrite (atomsFrom_fuel (S fuel) fuel ty' ((c0 :: s) ++ concat ss) rest) by lia.
  cbn [atomsFrom]. change ((c0 :: s) ++ concat ss ++ rest)
    with (c0 :: s ++ concat ss ++ rest). cbn iota.
  change (c0 :: s ++ concat ss ++ rest) with ((c0 :: s) ++ concat ss ++ rest).
  rewrite Hdec, Hcl, take_app_length, drop_app_length.
  assert (ty' = wordOther \/ ty' <> wordOther) as [Hty|Hty]
    by (destruct ty'; (by left) || (by right)).
  - rewrite (Hone Hty) in *. cbn [concat app] in *.
    replace (negb (wordType_eqb ty' ty) || wordType_eqb ty' wordOther) with true
      by (rewrite Hty; by destruct ty).
    by rewrite app_nil_r.
  - destruct (negb (wordType_eqb ty' ty) || wordType_eqb ty' wordOther) eqn:Hswitch.
    + f_equal. by rewrite atomsFrom_scalars.
    + apply orb_false_iff in Hswitch as [Hsame _]. apply negb_false_iff in Hsame.
      assert (ty' = ty) as -> by (by destruct ty', ty).
      destruct Hstate as [->|?]; [|done]. cbn [flushRun app].
      by rewrite atomsFrom_scalars.
Qed.

Lemma spaceAfter_run ty w :
  isRun ty w -> spaceAfter w = negb (wordType_eqb ty wordOther).
Proof.
  intros (s & ss & -> & Hall & _). apply Forall_cons in Hall as [Hs _].
  destruct (isScalar_decode ty s (concat ss) Hs) as (r & Hdec & Hcl).
  unfold spaceAfter. cbn [concat]. rewrite Hdec. rewrite <- Hcl. unfold classify.
  destruct (length s <=? 2)%nat; simpl; [|done].
  destruct (IsLetter r); simpl; [done|]. by destruct (IsNumber r).
Qed.

Lemma flushRun_atom ty w :
  isRun ty w -> wordOf ty w = w -> w <> space -> flushRun ty w = [w].
Proof.
  intros Hrun Hw Hsp. pose proof (isRun_nonempty _ _ Hrun) as Hne.
  unfold flushRun. destruct w as [|c w]; [done|]. rewrite Hw.
  unfold Text_eqb. by destruct (bool_decide_reflect (c :: w = space)).
Qed.

Lemma atomsFrom_join (W : list Text) :
  Forall isAtom W ->
  forall fuel ty run,
  run = [] \/ ty = wordOther ->
  (length (joinFrom W) <= fuel)%nat ->
  atomsFrom fuel ty run (joinFrom W) = flushRun ty run ++ W.
Proof.
  induction 1 as [|w W (ty' & Hrun & Hw & Hsp) _ IH]; intros fuel ty run Hstate Hfuel.
  { simpl. rewrite app_nil_r. by destruct fuel. }
  cbn [joinFrom] in *.
  rewrite (atomsFrom_run ty') by done. f_equal.
  rewrite length_app in Hfuel.
  destruct W as [|w' W].
  - cbn [joinFrom app]. rewrite <- (flushRun_atom ty' w) by done. by destruct fuel.
  - rewrite (spaceAfter_run _ _ Hrun) in *.
    assert (ty' = wordOther \/ ty' <> wordOther) as [->|Hty]
      by (destruct ty'; (by left) || (by right)).
    + cbn [wordType_eqb negb app] in *.
      rewrite IH by (lia || by right). by rewrite flushRun_atom.
    + replace (negb (wordType_eqb ty' wordOther)) with true in * by (by destruct ty').
      rewrite length_app in Hfuel. change (length space) with 1%nat in Hfuel.
      destruct fuel as [|fuel]; [lia|].
      change (space ++ joinFrom (w' :: W)) with (sp :: joinFrom (w' :: W)).
      cbn [atomsFrom]. rewrite DecodeRune_sp, classify_sp.
      replace (negb (wordType_eqb wordOther ty') || wordType_eqb wordOther wordOther)
        with true by (by destruct ty').
      rewrite flushRun_atom by done.
      change (take 1 (sp :: joinFrom (w' :: W))) with space.
      change (drop 1 (sp :: joinFrom (w' :: W))) with (joinFrom (w' :: W)).
      rewrite IH by (lia || by right). done.
Qed.

(** the atoms of the text that [Join] makes of well-formed atoms *)
Lemma splitTextToWords_Join (W : list Text) :
  Forall isAtom W -> splitTextToWords (bytes (Join W)) = W.
Proof.
  intros HW. rewrite splitTextToWords_atoms, Join_bytes.
  by rewrite atomsFrom_join by (done || by left).
Qed.

End JoinRoundTrip.

Section JoinOfAtoms.

Context `{RangeTables}.

Lemma stripSpaces_joinFrom (a : list Text) :
  stripSpaces (joinFrom a) = stripSpaces (concat a).
Proof.
  induction a as [|w a IH]; [done|]. cbn [joinFrom concat].
  rewrite !stripSpaces_app, IH. f_equal.
  destruct a; [done|]. by destruct (spaceAfter w).
Qed.

Lemma validFrom_lower fuel :
  forall t, validFrom fuel t = true -> validFrom fuel (toLower t) = true.
Proof.
  induction fuel as [|fuel IH]; intros t Hv; [by destruct t|].
  destruct t as [|c0 rest]; [done|].
  destruct (valid_step _ _ _ Hv) as (r & size & Hdec & Hs & Hrest).
  assert (Hsize : (1 <= size <= length (c0 :: rest))%nat)
    by (by apply (DecodeRune_size _ r)).
  assert (Hlen : length (take size (c0 :: rest)) = size)
    by (rewrite length_take; lia).
  assert (exists ty, isScalar ty (toLower (take size (c0 :: rest)))) as [ty Hs'].
  { destruct (classify r size) eqn:Hcl.
    - exists wordAlpha. by apply isScalar_lower.
    - exists wordNumber. rewrite (DecodeRune_lower _ _ r); [done|done|by rewrite Hcl].
    - exists wordOther. rewrite (DecodeRune_lower _ _ r); [done|done|by rewrite Hcl]. }
  rewrite <- (take_drop size (c0 :: rest)), toLower_app.
  destruct Hs' as (c0' & rest' & r' & Heq & Hdec' & Hv' & _).
  rewrite toLower_length, Hlen in Hdec', Hv'.
  pose proof (DecodeRune_prefix c0' rest' r' size (toLower (drop size (c0 :: rest)))) as Hp.
  rewrite <- Heq in Hp.
  assert (take size (toLower (take size (c0 :: rest))) = toLower (take size (c0 :: rest)))
    as Htake by (apply take_ge; rewrite toLower_length; lia).
  rewrite Htake in Hp. specialize (Hp Hdec' Hv').
  rewrite Heq in *. cbn [validFrom app]. rewrite <- app_comm_cons in Hp. rewrite Hp.
  apply andb_true_iff. split.
  - destruct (size =? 1)%nat eqn:Hone; [|done]. simpl.
    apply Nat.eqb_eq in Hone. apply Z.ltb_lt. by apply Hv'.
  - rewrite app_comm_cons, <- Heq, drop_app_length'
      by (rewrite toLower_length; lia).
    by apply IH.
Qed.

Lemma validFrom_fuel fuel :
  forall fuel' t, validFrom fuel t = true -> (fuel <= fuel')%nat ->
  validFrom fuel' t = true.
Proof.
  induction fuel as [|fuel IH]; intros fuel' t Hv Hle.
  - destruct t; [by destruct fuel'|done].
  - destruct t as [|c0 rest]; [by destruct fuel'|].
    destruct fuel' as [|fuel']; [lia|].
    cbn [validFrom] in *. destruct (DecodeRune (c0 :: rest)) as [r size].
    apply andb_true_iff in Hv as [Hsz Hrest]. apply andb_true_iff.
    split; [done|]. apply (IH fuel'); [done|lia].
Qed.

Lemma validFrom_scalar ty (s rest : Text) (fuel : nat) :
  isScalar ty s -> validFrom fuel rest = true ->
  validFrom (S fuel) (s ++ rest) = true.
Proof.
  intros Hs Hrest. destruct (isScalar_decode ty s rest Hs) as (r & Hdec & _).
  destruct Hs as (c0 & srest & r0 & -> & _ & Hv & _).
  change ((c0 :: srest) ++ rest) with (c0 :: srest ++ rest) in *.
  cbn [validFrom]. rewrite Hdec.
  change (c0 :: srest ++ rest) with ((c0 :: srest) ++ rest).
  rewrite drop_app_length, Hrest, andb_true_r.
  destruct (length (c0 :: srest) =? 1)%nat eqn:Hone; [|done]. simpl.
  apply Nat.eqb_eq in Hone. apply Z.ltb_lt. by apply Hv.
Qed.

Lemma validFrom_scalars ty (ss : list Text) :
  Forall (isScalar ty) ss ->
  validFrom (length ss) (concat ss) = true
  /\ (length ss <= length (concat ss))%nat.
Proof.
  induction 1 as [|s ss Hs _ [IHv IHl]]; [done|]. cbn [concat length]. split.
  - by apply (validFrom_scalar ty).
  - apply isScalar_nonempty in Hs. rewrite length_app.
    destruct s; [done|]. simpl. lia.
Qed.

(** X5: [splitTextToWords] cuts a valid UTF-8 text between scalars only:
    every atom of a valid text is valid UTF-8 itself. *)
Theorem X5_atoms_of_valid_text (text : Text) :
  validUTF8 text = true ->
  Forall (fun w => validUTF8 w = true) (splitTextToWords text).
Proof.
  intros Hv. eapply Forall_impl; [by apply splitTextToWords_isAtom|].
  intros w (ty & (s & ss & -> & Hall & _) & _).
  destruct (validFrom_scalars ty (s :: ss) Hall) as [Hvalid Hlen].
  unfold validUTF8. by apply (validFrom_fuel (length (s :: ss))).
Qed.

(** X6: an atom of a valid UTF-8 text is not cut any further: given
    again to [splitTextToWords] it comes back as the one atom it is. *)
Theorem X6_atoms_are_atomic (text : Text) :
  validUTF8 text = true ->
  Forall (fun w => splitTextToWords w = [w]) (splitTextToWords text).
Proof.
  intros Hv. eapply Forall_impl; [by apply splitTextToWords_isAtom|].
  intros w Hw.
  pose proof (splitTextToWords_Join [w] ltac:(by apply Forall_singleton)) as Hj.
  rewrite Join_bytes in Hj. cbn [joinFrom] in Hj. by rewrite !app_nil_r in Hj.
Qed.

(** X7: on a valid UTF-8 text the tokenizer undoes [Join]: the atoms of
    the text that [Join] makes of the atoms of [text] are the atoms of
    [text].  ([Join] puts a space behind a word and none behind any
    other atom, and that is where the tokenizer cuts.) *)
Theorem X7_split_of_Join (text : Text) :
  validUTF8 text = true ->
  splitTextToWords (bytes (Join (splitTextToWords text))) = splitTextToWords text.
Proof.
  intros Hv. by apply splitTextToWords_Join, splitTextToWords_isAtom.
Qed.

(** X8: [Join] adds nothing but space bytes to the bytes of the atoms;
    so the [Join] of the atoms of a text is, up to space bytes, that text
    with its capital ASCII letters lowered. *)
Theorem X8_Join_adds_spaces_only (a : list Text) (text : Text) :
  stripSpaces (bytes (Join a)) = stripSpaces (textSliceToBytes a)
  /\ stripSpaces (bytes (Join (splitTextToWords text)))
     = stripSpaces (toLower text).
Proof.
  assert (forall b, stripSpaces (bytes (Join b)) = stripSpaces (textSliceToBytes b))
    as Hgen.
  { intros b. by rewrite Join_bytes, stripSpaces_joinFrom, textSliceToBytes_concat. }
  split; [apply Hgen|].
  rewrite Hgen, textSliceToBytes_concat, splitTextToWords_atoms.
  rewrite atomsFrom_bytes; [|apply runOK_nil|done].
  unfold stripSpaces. simpl. by rewrite list_filter_filter_l.
Qed.

(** X9: [toLower] works byte by byte and still keeps a valid UTF-8 text
    valid; it keeps the length of the text, and lowering twice is
    lowering once. *)
Theorem X9_toLower_keeps_valid (text : Text) :
  validUTF8 text = true ->
  validUTF8 (toLower text) = true
  /\ length (toLower text) = length text
  /\ toLower (toLower text) = toLower text.
Proof.
  intros Hv. split; [|split].
  - unfold validUTF8. rewrite toLower_length. by apply validFrom_lower.
  - apply toLower_length.
  - apply toLower_idem.
Qed.

End JoinOfAtoms.

(** ** The segments that [segmentWords] returns *)

Section BestPath.

Context {F : Type} `{Float32Laws F}.

Implicit Types (h : Store F) (dict : Dictionary) (text : list Text)
  (tk : TokenRef) (jumpers : list (jumper F)).

Lemma Segmentation_length h dict text searchMode e toks :
  dictWF h dict ->
  Segmentation h dict text searchMode e toks ->
  (length toks <= e <= length text)%nat.
Proof.
  intros Hwf. induction 1 as [|s toks tk _ IH Hin]; [simpl; lia|].
  destruct (candidates_spec _ _ _ _ _ _ Hwf Hin) as (Hone & Hend & _).
  rewrite length_app. simpl. lia.
Qed.

(** the scan from the atom before [m] finds a segmentation of the first
    [m] atoms whose distance is the one the lattice holds there *)
Lemma backPath_best h dict text searchMode jumpers :
  dictWF h dict -> (searchMode = true -> length text <> 1%nat) ->
  structInv h dict text searchMode (length text) [] jumpers ->
  distInv h dict text searchMode (length text) [] jumpers ->
  forall m, (m <= length text)%nat ->
  exists toks,
    BackPath h jumpers (Z.of_nat m - 1) toks
    /\ Segmentation h dict text searchMode m toks
    /\ pathDistance h toks = baseOf jumpers m.
Proof.
  intros Hwf Hn [Hlen Hstruct] Hdist m.
  induction m as [m IH] using lt_wf_ind. intros Hm.
  destruct m as [|i].
  { exists []. split; [constructor; lia|]. split; [constructor|done]. }
  destruct (lookup_lt_is_Some_2 jumpers i ltac:(lia)) as [j Hj].
  destruct (Hstruct i j Hj) as [[_ Hnone]|(s0 & tk & Htk & _ & _)].
  { exfalso.
    destruct (candidates_one h dict text searchMode i Hwf Hn ltac:(lia))
      as (tk1 & Hin1 & Hlen1).
    apply (Hnone i tk1); [|lia]. left. split; [lia|done]. }
  destruct (Hdist i j tk Hj Htk) as (_ & (s & Hrel & Hend & Hmin) & _).
  destruct Hrel as [[Hs Hin]|[_ Hin]]; [|by apply elem_of_nil in Hin].
  destruct (candidates_spec _ _ _ _ _ _ Hwf Hin) as (Hone & _ & _).
  destruct (IH s ltac:(lia) ltac:(lia)) as (toks & Hpath & Hseg & Hd).
  exists (toks ++ [tk]). split; [|split].
  - econstructor.
    + replace (Z.of_nat (S i) - 1) with (Z.of_nat i) by lia.
      by apply (backStep_Some _ _ _ j).
    + replace (Z.of_nat i - Z.of_nat (tokLen h tk) + 1 - 1)
        with (Z.of_nat s - 1) by lia. done.
  - rewrite <- Hend. by constructor.
  - rewrite pathDistance_snoc, Hd. simpl. by rewrite Hj.
Qed.

Lemma outputSegments_of_path h dict text searchMode jumpers toks :
  forwardResult h dict text searchMode = Some jumpers ->
  BackPath h jumpers (Z.of_nat (length text) - 1) toks ->
  (length toks <= length text)%nat ->
  outputSegments h dict text searchMode = Some (spans h toks 0).
Proof.
  intros Hrun Hpath Hk.
  unfold outputSegments. unfold forwardResult in Hrun. rewrite Hrun. simpl.
  rewrite (countSegments_path _ _ _ _ Hpath) by lia. simpl.
  rewrite (fillSegments_path _ _ _ _ Hpath) by (rewrite ?length_replicate; lia).
  simpl. rewrite Nat.sub_diag, take_0, drop_replicate, Nat.sub_diag, app_nil_r.
  simpl. apply bytePositions_spans.
Qed.

(** the path that [segmentWords] reads back is a best one *)
Lemma outputSegments_best h dict text searchMode :
  dictWF h dict -> positiveDistances h dict ->
  (searchMode = true -> length text <> 1%nat) ->
  exists toks,
    outputSegments h dict text searchMode = Some (spans h toks 0)
    /\ Segmentation h dict text searchMode (length text) toks
    /\ forall toks', Segmentation h dict text searchMode (length text) toks' ->
                     fle (pathDistance h toks) (pathDistance h toks').
Proof.
  intros Hwf Hpos Hn.
  destruct (forwardLoop_latticeInv h dict text searchMode (length text) 0
              (replicate (length text) newJumper) Hwf Hpos Hn ltac:(lia)
              (structInv_init _ _ _ _) (distInv_init _ _ _ _))
    as (jumpers & Hrun & Hstruct & Hdist).
  destruct (backPath_best h dict text searchMode jumpers Hwf Hn Hstruct Hdist
              (length text) ltac:(lia)) as (toks & Hpath & Hseg & Hd).
  exists toks. split; [|split; [done|]].
  - apply (outputSegments_of_path _ _ _ _ jumpers); [done|done|].
    by apply (Segmentation_length _ _ _ _ _ _ Hwf) in Hseg as [? _].
  - intros toks' Hseg'. rewrite Hd.
    by apply (lattice_optimal h dict text searchMode jumpers Hwf Hn Hstruct Hdist
                (length text) ltac:(lia)).
Qed.

(** *** The byte positions *)

Lemma spans_inOrder h toks b : inOrder b (spans h toks b).
Proof.
  revert b. induction toks as [|tk toks IH]; intros b; simpl; [done|].
  split; [lia|]. split; [|apply IH].
  assert (0 <= textSliceByteLength (textOf h tk)); [|lia].
  generalize (textOf h tk). intros ws. induction ws as [|w ws IHw].
  - by rewrite textSliceByteLength_nil.
  - rewrite textSliceByteLength_cons. lia.
Qed.

Lemma inOrder_weaken b b' segs : b' <= b -> inOrder b segs -> inOrder b' segs.
Proof.
  destruct segs as [|s segs]; [done|]. simpl. intros ? (? & ? & ?).
  repeat split; [lia|lia|done].
Qed.

Lemma inOrder_filter (P : Segment -> Prop) `{!forall s, Decision (P s)} b segs :
  inOrder b segs -> inOrder b (filter P segs).
Proof.
  revert b. induction segs as [|s segs IH]; intros b; [done|].
  simpl. intros (Hb & Hs & Hrest). rewrite filter_cons.
  destruct (decide (P s)).
  - simpl. repeat split; [done|done|by apply IH].
  - apply IH. apply (inOrder_weaken (end_ s)); [lia|done].
Qed.

Lemma textSliceByteLength_length (ws : list Text) :
  textSliceByteLength ws = Z.of_nat (length (concat ws)).
Proof.
  induction ws as [|w ws IH]; [done|].
  rewrite textSliceByteLength_cons, IH. simpl. rewrite length_app. lia.
Qed.

(** a segment of [spans] holds the bytes of its token, at the place they
    have among the bytes of all the tokens *)
Lemma spans_bytes h toks :
  forall (pre : Text) s,
  s ∈ spans h toks (Z.of_nat (length pre)) ->
  bytesBetween (pre ++ concat (concat (map (textOf h) toks))) (start s) (end_ s)
  = concat (textOf h (token s)).
Proof.
  induction toks as [|tk toks IH]; intros pre s Hs; [by apply elem_of_nil in Hs|].
  simpl in Hs. apply elem_of_cons in Hs as [->|Hs].
  - unfold bytesBetween, slice. simpl.
    rewrite textSliceByteLength_length, <- Nat2Z.inj_add, !Nat2Z.id.
    rewrite drop_app_length, concat_app.
    replace (length pre + length (concat (textOf h tk)) - length pre)%nat
      with (length (concat (textOf h tk))) by lia.
    by rewrite take_app_length.
  - rewrite textSliceByteLength_length, <- Nat2Z.inj_add, <- length_app in Hs.
    specialize (IH _ _ Hs). simpl. by rewrite concat_app, app_assoc.
Qed.

End BestPath.

Section SegmentsReturned.

Context {F : Type} `{Float32Laws F} `{RangeTables}.

Implicit Types (h : Store F) (dict : Dictionary) (text : list Text)
  (tk : TokenRef) (jumpers : list (jumper F)).

(** [Segment] returns the path read back on the atoms of the text, less
    its stop words *)
Lemma Segment_path h dict (bytes : Text) :
  dictWF h dict ->
  exists toks,
    Segment_ h dict bytes
    = Some (filter (fun s => negb (isStop h s)) (spans h toks 0))
    /\ concat (map (textOf h) toks) = splitTextToWords bytes
    /\ Forall (fun tk => exists s,
                 tk ∈ candidates h dict (splitTextToWords bytes) false s) toks.
Proof.
  intros Hwf.
  destruct (outputSegments_spec h dict (splitTextToWords bytes) false Hwf)
    as (toks & Hout & Hcat & Hall); [done|].
  exists toks. split; [|split; [done|]].
  - unfold Segment_, internalSegment. case_match eqn:Hempty.
    + apply Nat.eqb_eq, nil_length_inv in Hempty. subst bytes.
      destruct toks as [|tk toks]; [done|]. exfalso.
      apply Forall_cons in Hall as [(s & Hin & _) _].
      apply (candidates_spec _ _ _ _ _ _ Hwf) in Hin as (Hone & Hend & _).
      simpl in Hend. lia.
    + unfold segmentWords. simpl. by rewrite Hout.
  - eapply Forall_impl; [done|]. intros tk (s & ? & _). by exists s.
Qed.

(** X10: when every stored token has at least one atom and a strictly
    positive distance, the path whose segments [segmentWords] returns
    (before it drops the stop words) is a segmentation of the whole text
    into candidate tokens, and no such segmentation has a smaller sum of
    distances: the word segmentation is a most probable one. *)
Theorem X10_best_segmentation h dict text (searchMode : bool) :
  dictWF h dict -> positiveDistances h dict ->
  (searchMode = true -> length text <> 1%nat) ->
  exists toks,
    segmentWords h dict text searchMode
    = Some (filter (fun s => negb (isStop h s)) (spans h toks 0))
    /\ Segmentation h dict text searchMode (length text) toks
    /\ forall toks', Segmentation h dict text searchMode (length text) toks' ->
                     fle (pathDistance h toks) (pathDistance h toks').
Proof.
  intros Hwf Hpos Hn.
  destruct (outputSegments_best h dict text searchMode Hwf Hpos Hn)
    as (toks & Hout & Hseg & Hbest).
  exists toks. split; [|by split].
  unfold segmentWords. rewrite Hout.
  destruct searchMode; [|done]. simpl.
  destruct (length text =? 1)%nat eqn:Hone; [|done].
  apply Nat.eqb_eq in Hone. by destruct Hn.
Qed.

(** X11: the segments that [Segment] returns lie in the order of the text
    and do not overlap, and the byte positions of a segment are positions
    in the text with its space bytes taken out (and its capital ASCII
    letters lowered): there, the bytes from [start] to [end] are the
    bytes of the atoms of the token. *)
Theorem X11_segment_positions h dict (bytes : Text) :
  dictWF h dict ->
  exists segs,
    Segment_ h dict bytes = Some segs
    /\ inOrder 0 segs
    /\ Forall (fun s =>
                 bytesBetween (stripSpaces (toLower bytes)) (start s) (end_ s)
                 = textSliceToBytes (textOf h (token s))) segs.
Proof.
  intros Hwf. destruct (Segment_path h dict bytes Hwf) as (toks & Hseg & Hcat & _).
  eexists. split; [done|]. split.
  - apply inOrder_filter, spans_inOrder.
  - apply Forall_forall. intros s Hs. apply list_elem_of_filter in Hs as [_ Hs].
    pose proof (spans_bytes h toks [] s Hs) as Hb. simpl in Hb.
    rewrite Hcat, splitTextToWords_atoms, atomsFrom_bytes in Hb;
      [|apply runOK_nil|done].
    by rewrite textSliceToBytes_concat.
Qed.

Lemma filter_all {A} (P : A -> Prop) `{!forall x, Decision (P x)} (l : list A) :
  Forall P l -> filter P l = l.
Proof.
  induction 1 as [|x l Hx _ IH]; [done|]. by rewrite filter_cons_True, IH.
Qed.

Lemma lookupTokens_empty h (words : list Text) :
  lookupTokens h NewDictionary words = [].
Proof.
  unfold lookupTokens. generalize (seq 0 (S (length words))). intros ks.
  induction ks as [|k ks IH]; [done|]. cbn [flat_map]. by rewrite IH.
Qed.

(** X12: with an empty dictionary every atom of the text is a segment of
    its own: [Segment] returns, atom by atom, the synthetic tokens of the
    unknown words (frequency 1, distance 32, part of speech [x]). *)
Theorem X12_empty_dictionary h (bytes : Text) :
  Segment_ h NewDictionary bytes
  = Some (spans h (map Synthetic (splitTextToWords bytes)) 0).
Proof.
  assert (Hwf : dictWF h NewDictionary).
  { intros p Hp. by apply elem_of_nil in Hp. }
  destruct (Segment_path h NewDictionary bytes Hwf) as (toks & Hseg & Hcat & Hall).
  assert (toks = map Synthetic (concat (map (textOf h) toks))) as Htoks.
  { clear -Hall. induction Hall as [|tk toks (s & Hin) _ IH]; [done|].
    unfold candidates, matches in Hin. rewrite lookupTokens_empty in Hin.
    simpl in Hin. destruct (_ !! s) as [atom|]; [|by apply elem_of_nil in Hin].
    apply list_elem_of_singleton in Hin. subst tk. simpl. by f_equal. }
  rewrite Hcat in Htoks. rewrite Hseg, Htoks. f_equal.
  apply filter_all. (* every synthetic token has the part of speech [x] *)
  apply Forall_forall. intros s Hs.
  assert (token s ∈ map Synthetic (splitTextToWords bytes)) as Hin.
  { rewrite <- (spans_tokens h _ 0). apply list_elem_of_fmap. by exists s. }
  apply list_elem_of_fmap in Hin as (atom & Htk & _).
  unfold isStop. rewrite Htk. simpl. done.
Qed.

(** the search-mode exclusion has nothing to exclude when the text is
    not an entry of the dictionary *)
Lemma matches_not_whole h dict text current tk :
  (forall p, p ∈ tokens dict -> textOf h (Stored p) <> text) ->
  tk ∈ matches h dict text current ->
  wholeSpan text true current (tokLen h tk) = false.
Proof.
  intros Hno Hin. apply lookupTokens_elem in Hin as (p & k & -> & Hp & Hk & Htext).
  unfold wholeSpan. simpl. destruct (current =? 0)%nat eqn:Hc; [|done]. simpl.
  apply Nat.eqb_eq in Hc. subst current. apply Z.eqb_neq. intros Heq.
  apply (Hno p Hp). rewrite Htext. unfold tokLen in Heq.
  rewrite Htext in Heq. unfold slice in *. rewrite drop_0, Nat.sub_0_r in *.
  rewrite take_take in *. rewrite length_take in Heq.
  apply take_ge. lia.
Qed.

Lemma relaxTokens_modes h text current base toks :
  forall jumpers,
  Forall (fun tk => wholeSpan text true current (tokLen h tk) = false) toks ->
  relaxTokens h text true current base toks jumpers
  = relaxTokens h text false current base toks jumpers.
Proof.
  induction toks as [|tk toks IH]; intros jumpers Hall; [done|].
  apply Forall_cons in Hall as [Htk Hall]. cbn [relaxTokens].
  unfold wholeSpan, tokLen in Htk. simpl in Htk.
  destruct (current =? 0)%nat eqn:Hc; simpl in *.
  - rewrite Htk. simpl.
    destruct (updateAt jumpers _ _) as [jumpers'|]; simpl; [by apply IH|done].
  - destruct (updateAt jumpers _ _) as [jumpers'|]; simpl; [by apply IH|done].
Qed.

Lemma forwardLoop_modes h dict text steps :
  (forall p, p ∈ tokens dict -> textOf h (Stored p) <> text) ->
  forall current jumpers,
  forwardLoop h dict text true steps current jumpers
  = forwardLoop h dict text false steps current jumpers.
Proof.
  intros Hno. induction steps as [|steps IH]; intros current jumpers; [done|].
  cbn [forwardLoop].
  assert (forwardStep h dict text true current jumpers
          = forwardStep h dict text false current jumpers) as ->.
  { unfold forwardStep.
    destruct (if (current =? 0)%nat then Some fzero else _) as [base|]; [|done].
    simpl. rewrite relaxTokens_modes; [done|].
    apply Forall_forall. intros tk Htk. by apply (matches_not_whole h dict). }
  destruct (forwardStep h dict text false current jumpers); simpl; [apply IH|done].
Qed.

(** X13: the search mode and the normal mode of [segmentWords] give the
    same segments on every text of two atoms or more that is not itself
    an entry of the dictionary: the search mode leaves out nothing but
    the token that spans the whole text. *)
Theorem X13_modes_agree h dict text :
  (forall p, p ∈ tokens dict -> textOf h (Stored p) <> text) ->
  length text <> 1%nat ->
  segmentWords h dict text true = segmentWords h dict text false.
Proof.
  intros Hno Hlen. unfold segmentWords. simpl.
  destruct (length text =? 1)%nat eqn:Hone; [by apply Nat.eqb_eq in Hone|].
  unfold outputSegments. by rewrite forwardLoop_modes.
Qed.

(** X14: [LoadDictionary] ends without a panic on files of any content,
    and with the dictionary it has loaded [Segment] and the search-mode
    segmentation end without a panic on every text: no index leaves its
    slice, no nil token is read, and the backward scans end. *)
Theorem X14_load_and_segment_return (files : list string) :
  exists seg : Segmenter F,
    LoadDictionary files = Some seg
    /\ forall (bytes : Text) (searchMode : bool),
         exists segs,
           internalSegment (heap seg) (dict seg) bytes searchMode = Some segs.
Proof.
  destruct (LoadDictionary_ok files) as (seg & Hload & _ & Hwf).
  exists seg. split; [done|]. intros bytes searchMode.
  unfold internalSegment. case_match; [by eexists|].
  destruct (segmentWords_candidates (heap seg) (dict seg)
              (splitTextToWords bytes) searchMode Hwf) as (segs & Hsegs & _).
  by exists segs.
Qed.

(** X15: the distance that two relaxations leave in a jumper does not
    depend on their order, as long as neither candidate has the path
    distance 0 that marks an untouched jumper (on a tie the token does
    depend on the order, the distance does not). *)
Theorem X15_relax_order h (j : jumper F) (base1 base2 : F) (tk1 tk2 : TokenRef) :
  feq (fadd base1 (distance (deref h tk1))) fzero = false ->
  feq (fadd base2 (distance (deref h tk2))) fzero = false ->
  minDistance (updateJumper h (updateJumper h j base1 tk1) base2 tk2)
  = minDistance (updateJumper h (updateJumper h j base2 tk2) base1 tk1).
Proof.
  unfold updateJumper.
  set (d1 := fadd base1 (distance (deref h tk1))).
  set (d2 := fadd base2 (distance (deref h tk2))).
  intros Hz1 Hz2.
  destruct (feq (minDistance j) fzero) eqn:Hz; simpl.
  - rewrite Hz1, Hz2. simpl.
    destruct (fgt d1 d2) eqn:H12, (fgt d2 d1) eqn:H21; simpl; try done.
    + pose proof (fgt_trans _ _ _ H12 H21) as Hc. by rewrite fgt_irrefl in Hc.
    + by apply fgt_total.
  - destruct (fgt (minDistance j) d1) eqn:Hm1, (fgt (minDistance j) d2) eqn:Hm2;
      simpl; rewrite ?Hz1, ?Hz2, ?Hz, ?Hm1, ?Hm2; simpl; try done.
    + destruct (fgt d1 d2) eqn:H12, (fgt d2 d1) eqn:H21; simpl; try done.
      * pose proof (fgt_trans _ _ _ H12 H21) as Hc. by rewrite fgt_irrefl in Hc.
      * by apply fgt_total.
    + destruct (fgt d1 d2) eqn:H12; simpl; [|done].
      pose proof (fgt_trans _ _ _ Hm1 H12) as Hc. by rewrite Hc in Hm2.
    + destruct (fgt d2 d1) eqn:H21; simpl; [|done].
      pose proof (fgt_trans _ _ _ Hm2 H21) as Hc. by rewrite Hc in Hm1.
Qed.

End SegmentsReturned.

(** ** The entries that [LoadDictionary] stores *)

Section LoadedEntries.

Context {F : Type} `{Float32Ops F} `{RangeTables}.

Implicit Types (h : Store F) (dict : Dictionary) (seg : Segmenter F).

Lemma parsePiece_frequency piece (t : Token F) :
  parsePiece piece = pieceToken t -> minTokenFrequency <= frequency t.
Proof.
  unfold parsePiece.
  destruct (if allDigits _ then _ else _) as [[[text0 freqText] pos0]|]; [|done].
  destruct (String.eqb text0 EmptyString); [done|].
  destruct (Atoi freqText) as [frequency0|]; [|done].
  destruct (frequency0 <? minTokenFrequency) eqn:Hf; [done|].
  apply Z.ltb_ge in Hf. by intros [= <-].
Qed.

Lemma parsePieces_frequency pieces :
  forall acc : list (Token F),
  Forall (fun t => minTokenFrequency <= frequency t) acc ->
  Forall (fun t => minTokenFrequency <= frequency t) (parsePieces pieces acc).
Proof.
  induction pieces as [|piece pieces IH]; intros acc Hacc; simpl; [done|].
  destruct (parsePiece piece) as [| |t] eqn:Hp; [done|by apply IH|].
  apply IH. apply Forall_app. split; [done|]. apply Forall_singleton.
  by apply (parsePiece_frequency piece).
Qed.

Lemma loadLine_frequency seg line :
  Forall (fun t => minTokenFrequency <= frequency t) (heap seg) ->
  Forall (fun t => minTokenFrequency <= frequency t) (heap (loadLine seg line)).
Proof.
  intros Hall. unfold loadLine.
  set (toks := parseLine line). set (base := length (heap seg)).
  set (ptrs := map Stored (seq base (length toks))).
  assert (Hgen : forall l seg1,
    Forall (fun t => minTokenFrequency <= frequency t) (heap seg1) ->
    Forall (fun t => minTokenFrequency <= frequency t)
      (heap (foldl (fun seg i =>
               let h := alter (appendSynonyms (others ptrs i)) (base + i)%nat (heap seg) in
               {| heap := h; dict := addToken h (dict seg) (base + i)%nat |})
             seg1 l))).
  { induction l as [|i l IH]; intros seg1 H1; simpl; [done|].
    apply IH. simpl. by apply Forall_alter. }
  apply Hgen. simpl. apply Forall_app. split; [done|].
  by apply parsePieces_frequency.
Qed.

Lemma readFiles_frequency (files : list string) :
  Forall (fun t => minTokenFrequency <= frequency t)
    (heap (foldl loadFile {| heap := []; dict := NewDictionary |} files)).
Proof.
  assert (Hline : forall lines seg,
            Forall (fun t => minTokenFrequency <= frequency t) (heap seg) ->
            Forall (fun t => minTokenFrequency <= frequency t)
              (heap (foldl loadLine seg lines))).
  { induction lines as [|line lines IH]; intros seg Hok; simpl; [done|].
    by apply IH, loadLine_frequency. }
  assert (Hgen : forall seg,
            Forall (fun t => minTokenFrequency <= frequency t) (heap seg) ->
            Forall (fun t => minTokenFrequency <= frequency t)
              (heap (foldl loadFile seg files))).
  { induction files as [|file files IH]; intros seg Hok; simpl; [done|].
    apply IH. unfold loadFile. by apply Hline. }
  by apply Hgen.
Qed.

(** what the loaded dictionary holds of a token stored when the files
    had been read, and of a token of the products: the frequency of an
    entry read from the files, and the distance assigned to that entry *)
Lemma loaded_weights (files : list string) (seg' : Segmenter F) (q : nat) :
  let seg0 := foldl loadFile {| heap := []; dict := NewDictionary |} files in
  LoadDictionary files = Some seg' -> q ∈ tokens (dict seg') ->
  exists p t,
    p ∈ tokens (dict seg0) /\ heap seg0 !! p = Some t
    /\ frequency (deref (heap seg') (Stored q)) = frequency t
    /\ distance (deref (heap seg') (Stored q))
       = fsub (flog2 (totalFrequency (dict seg0))) (flog2 (frequency t)).
Proof.
  intros seg0 Hload Hq. unfold LoadDictionary in Hload. fold seg0 in Hload.
  pose proof (readFiles_storeOK files) as Hok0. fold seg0 in Hok0.
  pose proof (assignDistances_storeOK seg0 Hok0) as Hok1.
  destruct (expandAll_inv _ _ Hok1 Hload) as (Hext & _ & Hw).
  assert (Hold : forall p, p ∈ tokens (dict seg0) ->
            exists t, heap seg0 !! p = Some t
              /\ frequency (deref (heap seg') (Stored p)) = frequency t
              /\ distance (deref (heap seg') (Stored p))
                 = fsub (flog2 (totalFrequency (dict seg0))) (flog2 (frequency t))).
  { intros p Hp.
    destruct (lookup_lt_is_Some_2 (heap seg0) p (Hok0 p Hp)) as [t Ht].
    destruct (assign_fold (flog2 (totalFrequency (dict seg0))) (tokens (dict seg0))
                _ _ _ Ht) as (t1 & Ht1 & Hf1 & _ & _ & Hin & _).
    destruct (Hext _ _ Ht1) as (t' & Ht' & (Hf' & Hd' & _) & _).
    exists t. split; [done|]. simpl. rewrite Ht'. simpl.
    rewrite <- Hf', <- Hd', Hf1. split; [done|]. by apply Hin. }
  destruct (Hw q Hq) as [Hq0|(p & rest & Hp & _ & _ & Hf & Hd & _)].
  - destruct (Hold q Hq0) as (t & ? & ? & ?). by exists q, t.
  - destruct (Hold p Hp) as (t & ? & Hft & Hdt). exists p, t.
    rewrite Hf, Hd. by repeat split.
Qed.

(** X16: every token of the loaded dictionary has a frequency of at
    least [minTokenFrequency]: the entries below it are skipped when the
    files are read, and a token of the synonym products has the frequency
    of the entry it was built from. *)
Theorem X16_min_frequency (files : list string) (seg : Segmenter F) (q : nat) :
  LoadDictionary files = Some seg -> q ∈ tokens (dict seg) ->
  minTokenFrequency <= frequency (deref (heap seg) (Stored q)).
Proof.
  intros Hload Hq.
  destruct (loaded_weights files seg q Hload Hq) as (p & t & _ & Ht & -> & _).
  pose proof (readFiles_frequency files) as Hall.
  apply (proj1 (Forall_lookup _ _) Hall p t Ht).
Qed.

(** X17: every token of the loaded dictionary, product tokens included,
    has the distance [log2(total) - log2(frequency)] of its own
    frequency, where [total] is the total frequency of the dictionary
    when the files had been read: the frequencies that the products add
    to the total afterwards change no distance. *)
Theorem X17_distances (files : list string) (seg : Segmenter F) (q : nat) :
  let seg0 := foldl loadFile {| heap := []; dict := NewDictionary |} files in
  LoadDictionary files = Some seg -> q ∈ tokens (dict seg) ->
  distance (deref (heap seg) (Stored q))
  = fsub (flog2 (totalFrequency (dict seg0)))
         (flog2 (frequency (deref (heap seg) (Stored q)))).
Proof.
  intros seg0 Hload Hq.
  destruct (loaded_weights files seg q Hload Hq) as (p & t & _ & _ & -> & ->).
  done.
Qed.

End LoadedEntries.

(** ** The lines of a dictionary file *)

Section Lines.

Context {F : Type} `{Float32Ops F} `{RangeTables}.

Implicit Types (h : Store F) (dict : Dictionary) (seg : Segmenter F).

Lemma trimLeftSpaces_id (l : list ascii) :
  match l with [] => True | c :: _ => c <> sp end -> trimLeftSpaces l = l.
Proof.
  destruct l as [|c l]; [done|]. simpl. intros Hc.
  destruct (Ascii.eqb_spec c " "); [done|done].
Qed.

(** [Trim] changes nothing of a string that neither starts nor ends with
    a space *)
Lemma Trim_id (s : string) :
  match bytes s with [] => True | c :: _ => c <> sp end ->
  match rev (bytes s) with [] => True | c :: _ => c <> sp end ->
  Trim s = s.
Proof.
  intros Hhead Hlast. unfold Trim. fold (bytes s).
  rewrite (trimLeftSpaces_id (bytes s)) by done.
  rewrite (trimLeftSpaces_id (rev (bytes s))) by done.
  rewrite rev_involutive. apply string_of_list_ascii_of_string.
Qed.

Lemma Trim_nospace (s : string) : sp ∉ bytes s -> Trim s = s.
Proof.
  intros Hn. apply Trim_id.
  - destruct (bytes s) as [|c l]; [done|]. intros ->. apply Hn. left.
  - destruct (rev (bytes s)) as [|c l] eqn:Hr; [done|]. intros ->. apply Hn.
    apply list_elem_of_In, in_rev. rewrite Hr. by left.
Qed.

Lemma Split_none (s : string) (sep : ascii) : sep ∉ bytes s -> Split s sep = [s].
Proof.
  induction s as [|c s IH]; [done|]. simpl. intros Hn.
  destruct (Ascii.eqb_spec c sep) as [->|Hc]; [exfalso; apply Hn; left|].
  rewrite IH; [done|]. intros Hin. apply Hn. by right.
Qed.

(** a piece of one field is no entry, and ends the line *)
Lemma parsePiece_one_field (piece : string) :
  sp ∉ bytes piece -> parsePiece (F := F) piece = pieceBreak.
Proof.
  intros Hn. unfold parsePiece. rewrite (Trim_nospace _ Hn), (Split_none _ " "%char Hn).
  simpl. by destruct (allDigits piece).
Qed.

(** X18: a line of one field (no space and no vertical bar in it), such
    as the empty line that ends a file, adds no token: the segmenter is
    left as it was. *)
Theorem X18_line_of_one_field (seg : Segmenter F) (line : string) :
  sp ∉ bytes line -> "|"%char ∉ bytes line ->
  loadLine seg line = seg.
Proof.
  intros Hsp Hbar. unfold loadLine, parseLine.
  rewrite (Trim_nospace _ Hsp), (Split_none _ _ Hbar). simpl.
  rewrite (parsePiece_one_field _ Hsp). simpl.
  destruct seg as [h0 d0]. simpl. by rewrite app_nil_r.
Qed.

(** *** The synonyms of a line *)

Lemma loadLine_fold (ptrs : list TokenRef) (base : nat) (l : list nat) :
  forall (seg1 : Segmenter F),
  NoDup l ->
  let seg' :=
    foldl (fun seg i =>
             let h := alter (appendSynonyms (others ptrs i)) (base + i)%nat (heap seg) in
             {| heap := h; dict := addToken h (dict seg) (base + i)%nat |})
          seg1 l in
  length (heap seg') = length (heap seg1)
  /\ (forall j, (j < base)%nat -> heap seg' !! j = heap seg1 !! j)
  /\ (forall i, i ∈ l ->
        heap seg' !! (base + i)%nat
        = appendSynonyms (others ptrs i) <$> heap seg1 !! (base + i)%nat).
Proof.
  induction l as [|i l IH]; intros seg1 Hnd; simpl.
  { split; [done|]. split; [done|]. intros i Hi. by apply elem_of_nil in Hi. }
  apply NoDup_cons in Hnd as [Hi Hnd].
  set (seg2 := {| heap := alter _ _ (heap seg1); dict := _ |}).
  destruct (IH seg2 Hnd) as (Hlen & Hlow & Hsyn). simpl in Hlen, Hlow, Hsyn.
  split; [by rewrite Hlen, length_alter|]. split.
  - intros j Hj. rewrite Hlow by done. apply list_lookup_alter_ne. lia.
  - intros i' Hi'. apply elem_of_cons in Hi' as [->|Hi'].
    + (* the token at [i] is not written again *)
      assert (Hkeep : forall l' (seg3 : Segmenter F), i ∉ l' ->
        heap (foldl (fun seg i0 =>
                 let h := alter (appendSynonyms (others ptrs i0)) (base + i0)%nat (heap seg) in
                 {| heap := h; dict := addToken h (dict seg) (base + i0)%nat |})
               seg3 l') !! (base + i)%nat = heap seg3 !! (base + i)%nat).
      { induction l' as [|i0 l' IH']; intros seg3 Hn; simpl; [done|].
        rewrite IH' by (intros ?; apply Hn; by right). simpl.
        apply list_lookup_alter_ne. intros Heq. apply Hn.
        assert (i0 = i) as -> by lia. left. }
      etrans; [exact (Hkeep l seg2 Hi)|]. simpl. apply list_lookup_alter_eq.
    + rewrite Hsyn by done. f_equal. apply list_lookup_alter_ne.
      intros Heq. assert (i = i') as -> by lia. done.
Qed.

(** X19: [loadLine] allocates the tokens of the line behind the tokens
    there are, in the order of the line, and gives every one of them as
    synonyms the other tokens of the line, in that order and without
    itself; the tokens allocated before are not written. *)
Theorem X19_synonyms_of_a_line (seg : Segmenter F) (line : string) :
  let toks := parseLine line in
  let base := length (heap seg) in
  let seg' := loadLine seg line in
  length (heap seg') = (base + length toks)%nat
  /\ (forall j, (j < base)%nat -> heap seg' !! j = heap seg !! j)
  /\ (forall i t, toks !! i = Some t ->
        heap seg' !! (base + i)%nat
        = Some (appendSynonyms
                  (others (map Stored (seq base (length toks))) i) t)
        /\ synonyms (deref (heap seg') (Stored (base + i)%nat))
           = others (map Stored (seq base (length toks))) i).
Proof.
  intros toks base seg'. unfold seg', loadLine. fold toks. fold base. cbv zeta.
  destruct (loadLine_fold (map Stored (seq base (length toks))) base
              (seq 0 (length toks)) {| heap := heap seg ++ toks; dict := dict seg |}
              (NoDup_seq _ _)) as (Hlen & Hlow & Hsyn).
  simpl in Hlen, Hlow, Hsyn. split; [by rewrite Hlen, length_app|]. split.
  - intros j Hj. rewrite Hlow by done. by apply lookup_app_l.
  - intros i t Ht.
    assert ((heap seg ++ toks) !! (base + i)%nat = Some t) as Hat.
    { rewrite lookup_app_r by (unfold base; lia).
      by replace (base + i - length (heap seg))%nat with i by (unfold base; lia). }
    assert (i ∈ seq 0 (length toks)) as Hi.
    { apply elem_of_seq. apply lookup_lt_Some in Ht. lia. }
    rewrite (Hsyn i Hi), Hat. split; [done|]. simpl.
    rewrite (Hsyn i Hi), Hat. simpl.
    pose proof (parsePieces_text (F := F) (Split (Trim line) "|") [] ltac:(done)) as Hp.
    fold (parseLine (F := F) line) in Hp. fold toks in Hp.
    destruct (proj1 (Forall_lookup _ _) Hp i t Ht) as (_ & -> & _). done.
Qed.

End Lines.

(** ** The format of an entry *)

Section Entry.

Context {F : Type} `{Float32Ops F} `{RangeTables}.

Lemma Split_app_sep (w X : string) (sep : ascii) :
  sep ∉ bytes w -> Split (w ++ String sep X) sep = w :: Split X sep.
Proof.
  induction w as [|c w IH]; simpl.
  - intros _. by rewrite Ascii.eqb_refl.
  - intros Hn. destruct (Ascii.eqb_spec c sep) as [->|Hc]; [exfalso; apply Hn; left|].
    rewrite IH; [done|]. intros Hin. apply Hn. by right.
Qed.

Lemma Join_cons (w w' : string) (l : list string) :
  Join_ (w :: w' :: l) = (w ++ String " " (Join_ (w' :: l)))%string.
Proof. reflexivity. Qed.

(** [Split] undoes [Join] on fields that hold no space *)
Lemma Split_Join (l : list string) :
  l <> [] -> Forall (fun w => sp ∉ bytes w) l -> Split (Join_ l) " " = l.
Proof.
  induction l as [|w l IH]; [done|]. intros _ Hall.
  apply Forall_cons in Hall as [Hw Hall].
  destruct l as [|w' l]; [by apply (Split_none _ " "%char)|].
  rewrite Join_cons, (Split_app_sep _ _ " "%char Hw). f_equal. by apply IH.
Qed.

Lemma bytes_Join_last (l : list string) (x : string) :
  last l = Some x -> x <> EmptyString ->
  exists c m, rev (bytes (Join_ l)) = c :: m /\ c ∈ bytes x.
Proof.
  induction l as [|w l IH]; [done|]. intros Hlast Hx.
  destruct l as [|w' l].
  - injection Hlast as ->. unfold Join_. simpl.
    destruct (rev (bytes x)) as [|c m] eqn:Hr.
    + apply (f_equal (@rev _)) in Hr. rewrite rev_involutive in Hr. simpl in Hr.
      destruct x; [done|discriminate].
    + exists c, m. split; [done|]. apply list_elem_of_In, in_rev. rewrite Hr. by left.
  - destruct (IH Hlast Hx) as (c & m & Hr & Hc).
    rewrite Join_cons, bytes_app. change (bytes (String " " ?s)) with (sp :: bytes s).
    rewrite rev_app_distr. simpl. rewrite Hr. simpl. eexists c, _. by split.
Qed.

Lemma Trim_Join (l : list string) (c : ascii) (w x : string) (l' : list string) :
  l = String c w :: l' -> c <> sp ->
  last l = Some x -> x <> EmptyString -> sp ∉ bytes x ->
  Trim (Join_ l) = Join_ l.
Proof.
  intros -> Hc Hlast Hx Hsp. apply Trim_id.
  - destruct (Join_head c w l') as [r ->]. done.
  - destruct (bytes_Join_last _ _ Hlast Hx) as (c' & m & -> & Hin).
    intros ->. done.
Qed.

Lemma parseDigits_digits (s : list ascii) :
  forall acc n, parseDigits acc s = Some n -> Forall (fun c => isDigit c = true) s.
Proof.
  induction s as [|c s IH]; intros acc n; simpl; [done|].
  destruct (isDigit c) eqn:Hc; [|done]. intros Hp. constructor; [done|by eapply IH].
Qed.

Lemma Atoi_body (neg : bool) (body : list ascii) (n : Z) :
  match body with
  | [] => None
  | _ =>
    n ← parseDigits 0 body;
    let v := if neg then - n else n in
    if (- 2 ^ 63 <=? v) && (v <=? 2 ^ 63 - 1) then Some v else None
  end = Some n ->
  Forall (fun c => isDigit c = true) body.
Proof.
  destruct body as [|c1 b]; [done|].
  destruct (parseDigits 0 (c1 :: b)) as [v|] eqn:Hp; [|done].
  intros _. by eapply parseDigits_digits.
Qed.

(** a number that [Atoi] reads is not empty and holds no space *)
Lemma Atoi_field (s : string) (n : Z) :
  Atoi s = Some n -> s <> EmptyString /\ sp ∉ bytes s.
Proof.
  unfold Atoi, bytes. destruct s as [|c s]; [done|].
  cbn [list_ascii_of_string]. intros Ha. split; [done|].
  destruct (Ascii.eqb_spec c "+") as [->|Hplus];
    [apply (Atoi_body false) in Ha
    |destruct (Ascii.eqb_spec c "-") as [->|Hminus];
     [apply (Atoi_body true) in Ha
     |apply (Atoi_body false (c :: list_ascii_of_string s)) in Ha]];
    intros Hsp.
  - apply elem_of_cons in Hsp as [?|Hsp]; [done|].
    by apply (proj1 (Forall_forall _ _) Ha) in Hsp.
  - apply elem_of_cons in Hsp as [?|Hsp]; [done|].
    by apply (proj1 (Forall_forall _ _) Ha) in Hsp.
  - by apply (proj1 (Forall_forall _ _) Ha) in Hsp.
Qed.

Lemma Join_nonempty (c : ascii) (w : string) (l : list string) :
  String.eqb (Join_ (String c w :: l)) EmptyString = false.
Proof. destruct (Join_head c w l) as [r ->]. done. Qed.

(** the two formats of an entry *)
Lemma parsePiece_formats (ws : list string) (freq pos : string) (n : Z) :
  ws <> [] ->
  Forall (fun w => w <> EmptyString /\ sp ∉ bytes w) ws ->
  Atoi freq = Some n -> minTokenFrequency <= n ->
  (allDigits freq = true ->
   parsePiece (F := F) (Join_ (ws ++ [freq]))
   = pieceToken (newToken (splitTextToWords (bytes (Join_ ws))) n EmptyString))
  /\ (pos <> EmptyString -> sp ∉ bytes pos -> allDigits pos = false ->
      parsePiece (F := F) (Join_ (ws ++ [freq; pos]))
      = pieceToken
          (newToken
             (splitTextToWords
                (bytes (Replace (Join_ ws) "__VERTICAL_BAR__" "|")))
             n pos)).
Proof.
  intros Hne Hws0 Hatoi Hmin.
  destruct (Atoi_field _ _ Hatoi) as [Hfne Hfsp].
  destruct ws as [|[|c w] ws']; [done| |].
  { apply Forall_cons in Hws0 as [[? _] _]. done. }
  assert (Hc : c <> sp).
  { apply Forall_cons in Hws0 as [[_ Hn] _]. intros ->. apply Hn. left. }
  remember (String c w :: ws') as ws eqn:Hws.
  assert (Hsp : Forall (fun w => sp ∉ bytes w) ws)
    by (eapply Forall_impl; [exact Hws0|]; by intros ? [_ ?]).
  assert (Hmin' : (n <? minTokenFrequency) = false) by (by apply Z.ltb_ge).
  assert (Htext : String.eqb (Join_ ws) EmptyString = false)
    by (rewrite Hws; apply Join_nonempty).
  split.
  - intros Hdigits. unfold parsePiece.
    rewrite (Trim_Join (ws ++ [freq]) c w freq (ws' ++ [freq]));
      [|by rewrite Hws|done|by rewrite last_snoc|done|done].
    rewrite Split_Join;
      [|by destruct ws|apply Forall_app; split; [done|by apply Forall_singleton]].
    rewrite length_app. simpl length.
    replace (length ws + 1 - 1)%nat with (length ws) by lia.
    rewrite lookup_app_r, Nat.sub_diag by lia. simpl.
    rewrite Hdigits, take_app_length.
    replace (length ws + 1 <? 2)%nat with false
      by (symmetry; apply Nat.ltb_ge; rewrite Hws; simpl; lia).
    by rewrite Htext, Hatoi, Hmin'.
  - intros Hpne Hpsp Hpos. unfold parsePiece.
    rewrite (Trim_Join (ws ++ [freq; pos]) c w pos (ws' ++ [freq; pos]));
      [|by rewrite Hws|done| |done|done].
    2: { change [freq; pos] with ([freq] ++ [pos]). by rewrite app_assoc, last_snoc. }
    rewrite Split_Join;
      [|by destruct ws|apply Forall_app; split; [done|by repeat constructor]].
    rewrite length_app. simpl length.
    replace (length ws + 2 - 1)%nat with (length ws + 1)%nat by lia.
    replace (length ws + 2 - 2)%nat with (length ws) by lia.
    rewrite !lookup_app_r by lia.
    replace (length ws + 1 - length ws)%nat with 1%nat by lia.
    rewrite Nat.sub_diag. simpl.
    rewrite Hpos, take_app_length.
    replace (length ws + 2 <? 3)%nat with false
      by (symmetry; apply Nat.ltb_ge; rewrite Hws; simpl; lia).
    destruct (Join_head c w ws') as [r Hr]. rewrite <- Hws in Hr.
    destruct (replaceFrom_head "__VERTICAL_BAR__" "|" c r ltac:(done))
      as (c' & r' & Hrep & _).
    unfold Replace. rewrite Hr, Hrep. simpl String.eqb.
    by rewrite Hatoi, Hmin'.
Qed.


(** X20: an entry with a part of speech.  Fields that hold no space,
    joined by single spaces and ended by a frequency and a part of speech
    that is not a number, are read back as they were written: the text
    is the words (one or several) with their [__VERTICAL_BAR__] decoded,
    the frequency is the number that [strconv.Atoi] reads, which must
    reach [minTokenFrequency]. *)
Theorem X20_entry_with_pos (ws : list string) (freq pos : string) (n : Z) :
  ws <> [] ->
  Forall (fun w => w <> EmptyString /\ sp ∉ bytes w) ws ->
  Atoi freq = Some n -> minTokenFrequency <= n ->
  pos <> EmptyString -> sp ∉ bytes pos -> allDigits pos = false ->
  parsePiece (F := F) (Join_ (ws ++ [freq; pos]))
  = pieceToken
      (newToken
         (splitTextToWords (bytes (Replace (Join_ ws) "__VERTICAL_BAR__" "|")))
         n pos).
Proof.
  intros Hne Hws Hatoi Hmin Hpne Hpsp Hpos.
  by apply (parsePiece_formats ws freq pos n Hne Hws Hatoi Hmin).
Qed.

(** X21: an entry without a part of speech.  When the last field is a
    number in digits, the entry is the words and that frequency; the
    part of speech is empty, and the text is stored as it is written
    (no [__VERTICAL_BAR__] is decoded in this format). *)
Theorem X21_entry_without_pos (ws : list string) (freq : string) (n : Z) :
  ws <> [] ->
  Forall (fun w => w <> EmptyString /\ sp ∉ bytes w) ws ->
  Atoi freq = Some n -> minTokenFrequency <= n ->
  allDigits freq = true ->
  parsePiece (F := F) (Join_ (ws ++ [freq]))
  = pieceToken (newToken (splitTextToWords (bytes (Join_ ws))) n EmptyString).
Proof.
  intros Hne Hws Hatoi Hmin Hdigits.
  by apply (parsePiece_formats ws freq EmptyString n Hne Hws Hatoi Hmin).
Qed.

(** *** Files *)

Lemma Split_app (a b : string) (sep : ascii) :
  Split (a ++ String sep b) sep = Split a sep ++ Split b sep.
Proof.
  induction a as [|c a IH].
  - change (Split (String sep b) sep = [EmptyString] ++ Split b sep).
    simpl. by rewrite Ascii.eqb_refl.
  - change (String c a ++ String sep b)%string with (String c (a ++ String sep b)).
    simpl. rewrite IH. destruct (Ascii.eqb c sep); [done|].
    pose proof (Split_length a sep) as Hl.
    destruct (Split a sep) as [|w ws]; [simpl in Hl; lia|done].
Qed.

(** X22: a file is loaded line by line, so a file cut in two at a line
    break loads as its two parts, one after the other; and
    [LoadDictionary] builds the same dictionary from the file and from
    the two parts given as two files. *)
Theorem X22_file_cut_at_a_line_break (seg : Segmenter F) (a b : string) :
  loadFile seg (a ++ String "010" b) = loadFile (loadFile seg a) b
  /\ LoadDictionary (F := F) [(a ++ String "010" b)%string] = LoadDictionary [a; b].
Proof.
  assert (forall seg0 : Segmenter F,
            loadFile seg0 (a ++ String "010" b) = loadFile (loadFile seg0 a) b) as Hcut.
  { intros seg0. unfold loadFile. by rewrite Split_app, foldl_app. }
  split; [apply Hcut|]. unfold LoadDictionary. simpl. by rewrite Hcut.
Qed.

End Entry.

(** ** The output expansion, on lists *)

Section SpreadOfLists.

Context {F : Type} `{Float32Ops F}.

Implicit Types (h : Store F) (s : Segment) (segs out : list Segment).

Lemma spread_fold_acc h spread segs :
  forall acc,
  foldl (spreadStep h spread) (Some acc) segs
  = out ← foldl (spreadStep h spread) (Some []) segs; Some (acc ++ out).
Proof.
  induction segs as [|s segs IH]; intros acc; simpl.
  { by rewrite app_nil_r. }
  destruct (spread (segments (deref h (token s)))) as [sub|]; simpl.
  - rewrite (IH (acc ++ _)), (IH (sub ++ _)).
    destruct (foldl (spreadStep h spread) (Some []) segs) as [out|]; simpl; [|done].
    by rewrite <- !app_assoc.
  - by rewrite spreadStep_None.
Qed.

Lemma spread_fold_sublist h spread segs :
  forall acc out,
  foldl (spreadStep h spread) (Some acc) segs = Some out ->
  exists rest, out = acc ++ rest /\ segs `sublist_of` rest.
Proof.
  induction segs as [|s segs IH]; intros acc out; simpl.
  { intros [= <-]. exists []. by rewrite app_nil_r. }
  destruct (spread (segments (deref h (token s)))) as [sub|]; simpl;
    [|by rewrite spreadStep_None].
  intros Hfold. destruct (IH _ _ Hfold) as (rest & -> & Hsub).
  exists ((sub ++ synonymSegments h s ++ [s]) ++ rest).
  split; [by rewrite <- !app_assoc|].
  rewrite <- !app_assoc. do 2 apply sublist_inserts_l. simpl. by constructor.
Qed.

(** X23: the spread of a list is made segment by segment: the spread of
    [a ++ b] is the spread of [a] followed by the spread of [b]. *)
Theorem X23_spread_of_app h (fuel : nat) (a b : list Segment) :
  SegmentsSpread h fuel (a ++ b)
  = x ← SegmentsSpread h fuel a;
    y ← SegmentsSpread h fuel b;
    Some (x ++ y).
Proof.
  destruct fuel as [|fuel]; [done|]. cbn [SegmentsSpread]. rewrite foldl_app.
  destruct (foldl _ (Some []) a) as [x|]; simpl.
  - apply spread_fold_acc.
  - apply spreadStep_None.
Qed.

Lemma SegmentsSpread_sublist h (fuel : nat) (segs out : list Segment) :
  SegmentsSpread h fuel segs = Some out -> segs `sublist_of` out.
Proof.
  destruct fuel as [|fuel]; [done|]. cbn [SegmentsSpread]. intros Hfold.
  by destruct (spread_fold_sublist _ _ _ _ _ Hfold) as (rest & -> & ?).
Qed.

(** *** The depth of the recursion *)

Lemma spread_total h :
  shrinkOK h ->
  forall n segs,
  Forall (fun s => (tokLen h (token s) <= n)%nat) segs ->
  exists out, SegmentsSpread h (S (S n)) segs = Some out.
Proof.
  intros Hshrink.
  assert (Hsub : forall r n, (tokLen h r <= n)%nat ->
            Forall (fun s => (tokLen h (token s) <= n - 1)%nat)
                   (segments (deref h r))
            /\ (n = 0%nat -> segments (deref h r) = [])).
  { intros [p|atom] n Hn; [|by split]. simpl.
    destruct (h !! p) as [t|] eqn:Ht; [|by split]. simpl.
    pose proof (proj1 (Forall_lookup _ _) Hshrink _ _ Ht) as Hs. simpl in Hs.
    unfold tokLen, textOf in Hn. simpl in Hn. rewrite Ht in Hn. simpl in Hn.
    split.
    - eapply Forall_impl; [exact Hs|]. intros s ?. simpl in *. lia.
    - intros ->. destruct (segments t) as [|s ss]; [done|].
      apply Forall_cons in Hs as [Hs _]. lia. }
  induction n as [|n IH]; intros segs Hall.
  - cbn [SegmentsSpread].
    assert (forall acc, exists out,
              foldl (spreadStep h (SegmentsSpread h 1)) (Some acc) segs = Some out)
      as Hgen; [|apply Hgen].
    induction Hall as [|s segs Hs _ IHs]; intros acc; simpl; [by eexists|].
    destruct (Hsub (token s) 0%nat Hs) as [_ Hnil]. rewrite Hnil by done.
    simpl. apply IHs.
  - cbn [SegmentsSpread].
    assert (forall acc, exists out,
              foldl (spreadStep h (SegmentsSpread h (S (S n)))) (Some acc) segs
              = Some out) as Hgen; [|apply Hgen].
    induction Hall as [|s segs Hs _ IHs]; intros acc; [by eexists|].
    cbn [foldl]. unfold spreadStep at 2. cbn [mbind option_bind].
    destruct (Hsub (token s) (S n) Hs) as [Hless _].
    replace (S n - 1)%nat with n in Hless by lia.
    destruct (IH _ Hless) as [sub Hrun]. rewrite Hrun. cbn [mbind option_bind].
    apply IHs.
Qed.

End SpreadOfLists.

(** ** The sub-segments of the loaded tokens *)

Section LoadedSubSegments.

Context {F : Type} `{Float32Laws F} `{RangeTables}.

Implicit Types (h : Store F) (dict : Dictionary) (seg : Segmenter F)
  (r : TokenRef) (t : Token F).

Lemma textOf_alter h (f : Token F -> Token F) p r :
  (forall t, text (f t) = text t) -> textOf (alter f p h) r = textOf h r.
Proof.
  intros Hf. destruct r as [q|atom]; [|done]. unfold textOf. simpl.
  rewrite list_lookup_alter. destruct (decide (p = q)) as [->|]; [|done].
  destruct (h !! q); simpl; [apply Hf|done].
Qed.

Lemma tokLen_ext h h' r : textsExt h h' -> refOK h r -> tokLen h' r = tokLen h r.
Proof.
  intros Hext Hr. destruct r as [q|atom]; [|done].
  unfold refOK, tokLen, textOf in *. simpl in *.
  destruct (h !! q) as [t|] eqn:Ht; [|done].
  destruct (Hext _ _ Ht) as (t' & -> & Htext). simpl. by rewrite Htext.
Qed.

Lemma shrinkOK_alter h (f : Token F -> Token F) p :
  shrinkOK h -> (forall t, text (f t) = text t) ->
  (forall t, h !! p = Some t ->
     Forall (fun s => (tokLen h (token s) < length (text t))%nat) (segments (f t))) ->
  shrinkOK (alter f p h).
Proof.
  intros Hs Hf Hp. apply Forall_lookup. intros i t' Hi.
  rewrite list_lookup_alter in Hi.
  assert (Hlen : forall s, tokLen (alter f p h) (token s) = tokLen h (token s))
    by (intros s; unfold tokLen; by rewrite textOf_alter).
  destruct (decide (p = i)) as [->|Hne].
  - destruct (h !! i) as [t|] eqn:Ht; [|done]. injection Hi as <-.
    eapply Forall_impl; [exact (Hp t eq_refl)|]. intros s ?. simpl. by rewrite Hlen, Hf.
  - pose proof (proj1 (Forall_lookup _ _) Hs _ _ Hi) as Hold.
    eapply Forall_impl; [exact Hold|]. intros s ?. simpl. by rewrite Hlen.
Qed.

Lemma shrinkOK_app h (l : list (Token F)) :
  heapWF h -> shrinkOK h -> Forall (fun t => segments t = []) l ->
  shrinkOK (h ++ l).
Proof.
  intros Hwf Hs Hl. apply Forall_app. split.
  - apply Forall_lookup. intros i t Ht.
    pose proof (proj1 (Forall_lookup _ _) Hs _ _ Ht) as Hold.
    destruct (proj1 (Forall_lookup _ _) Hwf _ _ Ht) as (_ & _ & Href).
    simpl in Hold. apply Forall_forall. intros s Hin.
    rewrite (tokLen_ext h (h ++ l)); [|apply textsExt_app|].
    + by apply (proj1 (Forall_forall _ _) Hold).
    + by apply (proj1 (Forall_forall _ _) Href).
  - eapply Forall_impl; [exact Hl|]. intros t ->. constructor.
Qed.

(** the search-mode segments of a text, as the loader takes them: their
    tokens have atoms, and fewer than the text *)
Lemma segmentWords_shrink seg (text : list Text) :
  loadedOK seg ->
  exists segs,
    segmentWords (heap seg) (dict seg) text true = Some segs
    /\ Forall (fun s => refOK (heap seg) (token s)
                        /\ (tokLen (heap seg) (token s) < length text)%nat) segs.
Proof.
  intros Hok. pose proof (dictWF_of seg Hok) as Hwf.
  destruct (segmentWords_candidates (heap seg) (dict seg) text true Hwf)
    as (segs & Hrun & Hall).
  exists segs. split; [done|]. eapply Forall_impl; [exact Hall|].
  intros s (c & Hc & Hend & Hone). split; [by eapply candidate_refOK|].
  destruct (decide (tokLen (heap seg) (token s) = length text)) as [Heq|]; [|lia].
  exfalso. assert (c = 0%nat) as -> by lia.
  apply (candidates_not_whole (heap seg) (dict seg) text 0 (token s)); try done.
  intros Hl. apply Hone. by split.
Qed.

Lemma linkProduct_step p base n seg i :
  loadedOK seg -> shrinkOK (heap seg) ->
  (p < length (heap seg))%nat -> (base + n <= length (heap seg))%nat ->
  (i < n)%nat ->
  exists seg',
    linkProduct p base (map Stored (seq base n)) (Some seg) i = Some seg'
    /\ loadedOK seg' /\ shrinkOK (heap seg')
    /\ length (heap seg') = length (heap seg).
Proof.
  intros Hok Hshrink Hp Hbase Hi.
  destruct (segmentWords_shrink seg (textOf (heap seg) (Stored (base + i)%nat)) Hok)
    as (segs & Hrun & Hsegs).
  unfold linkProduct. simpl. rewrite Hrun. simpl. eexists. split; [done|].
  destruct Hok as [Hwf Hstore].
  set (h1 := alter (appendSegments segs) (base + i)%nat (heap seg)).
  assert (Hwf1 : heapWF h1).
  { apply heapWF_alter; [done|done|]. intros t. apply tokenOK_appendSegments.
    eapply Forall_impl; [exact Hsegs|]. intros s [? _].
    apply (refOK_ext (heap seg)); [by apply textsExt_alter|done]. }
  assert (Hs1 : shrinkOK h1).
  { apply shrinkOK_alter; [done|done|]. intros t Ht. simpl.
    apply Forall_app. split.
    - exact (proj1 (Forall_lookup _ _) Hshrink _ _ Ht).
    - eapply Forall_impl; [exact Hsegs|]. intros s [_ Hlt].
      unfold textOf in Hlt. simpl in Hlt. by rewrite Ht in Hlt. }
  set (syns := Stored p :: others (map Stored (seq base n)) i).
  set (h2 := alter (appendSynonyms syns) (base + i)%nat h1).
  assert (Hl2 : length h2 = length (heap seg))
    by (unfold h2, h1; by rewrite !length_alter).
  assert (Hwf2 : heapWF h2).
  { apply heapWF_alter; [done|done|]. intros t. apply tokenOK_appendSynonyms.
    assert (Forall (refOK h1) syns) as Hr1.
    { apply Forall_cons. split.
      - apply refOK_stored; [done|]. unfold h1. rewrite length_alter. lia.
      - apply Forall_others, refOK_allocated; [done|].
        unfold h1. rewrite length_alter. lia. }
    eapply Forall_impl; [exact Hr1|]. intros r. by apply refOK_ext, textsExt_alter. }
  assert (Hs2 : shrinkOK h2).
  { apply shrinkOK_alter; [done|done|]. intros t Ht. simpl.
    exact (proj1 (Forall_lookup _ _) Hs1 _ _ Ht). }
  split; [split|]; simpl; [done| |by split].
  intros q Hq. simpl in *. fold h1 in Hq. fold syns in Hq. fold h2 in Hq. fold h2.
  apply (addToken_storeOK h2 (dict seg) (base + i)%nat); [|lia|done].
  intros q' Hq'. specialize (Hstore q' Hq'). lia.
Qed.

Lemma expandToken_shrink seg p :
  loadedOK seg -> shrinkOK (heap seg) -> (p < length (heap seg))%nat ->
  exists seg',
    expandToken (Some seg) p = Some seg'
    /\ loadedOK seg' /\ shrinkOK (heap seg')
    /\ (length (heap seg) <= length (heap seg'))%nat.
Proof.
  intros Hok Hshrink Hp.
  destruct (segmentWords_shrink seg (textOf (heap seg) (Stored p)) Hok)
    as (segs & Hrun & Hsegs).
  destruct Hok as [Hwf Hstore].
  unfold expandToken. simpl. rewrite Hrun. simpl.
  set (h1 := alter (appendSegments segs) p (heap seg)).
  assert (Hl1 : length h1 = length (heap seg)) by apply length_alter.
  assert (Hwf1 : heapWF h1).
  { apply heapWF_alter; [done|done|]. intros t. apply tokenOK_appendSegments.
    eapply Forall_impl; [exact Hsegs|]. intros s [? _].
    apply (refOK_ext (heap seg)); [by apply textsExt_alter|done]. }
  assert (Hs1 : shrinkOK h1).
  { apply shrinkOK_alter; [done|done|]. intros t Ht. simpl.
    apply Forall_app. split.
    - exact (proj1 (Forall_lookup _ _) Hshrink _ _ Ht).
    - eapply Forall_impl; [exact Hsegs|]. intros s [_ Hlt].
      unfold textOf in Hlt. simpl in Hlt. by rewrite Ht in Hlt. }
  destruct (lookup_lt_is_Some_2 h1 p ltac:(lia)) as [tk Htk]. rewrite Htk. simpl.
  destruct (proj1 (Forall_lookup _ _) Hwf1 _ _ Htk) as (_ & _ & Hsub).
  destruct (foldl (cartesianStep h1) ([seedToken tk], false) (segments tk))
    as [product hasSynonyms] eqn:Hprod.
  destruct hasSynonyms.
  - pose proof (cartesian_hasSynonyms _ _ _ _ _ Hprod eq_refl) as Hne.
    pose proof (cartesian_ok h1 (segments tk) Hwf1 Hsub _ _ _ _ Hprod
                  ltac:(by apply Forall_singleton) ltac:(by left)) as Hall.
    set (ptrs := map Stored (seq (length h1) (length product))).
    set (h2 := alter (setSynonyms ptrs) p (h1 ++ product)).
    assert (Hwfa : heapWF (h1 ++ product)).
    { apply heapWF_app; [done|]. eapply Forall_impl; [exact Hall|].
      intros a (Hx & Hs & Hg). split; [done|]. rewrite Hs, Hg. by split. }
    assert (Hsa : shrinkOK (h1 ++ product)).
    { apply shrinkOK_app; [done|done|]. eapply Forall_impl; [exact Hall|].
      by intros a (_ & _ & ?). }
    assert (Hl2 : length h2 = (length h1 + length product)%nat)
      by (unfold h2; by rewrite length_alter, length_app).
    assert (Hwf2 : heapWF h2).
    { apply heapWF_alter; [done|done|]. intros t. apply tokenOK_setSynonyms.
      eapply Forall_impl;
        [apply (refOK_allocated (h1 ++ product)); [done|rewrite length_app; lia]|].
      intros r. by apply refOK_ext, textsExt_alter. }
    assert (Hs2 : shrinkOK h2).
    { apply shrinkOK_alter; [done|done|]. intros t Ht. simpl.
      exact (proj1 (Forall_lookup _ _) Hsa _ _ Ht). }
    destruct (foldl_option_total
                (linkProduct p (length h1) ptrs)
                (fun seg1 => loadedOK seg1 /\ shrinkOK (heap seg1)
                             /\ length (heap seg1) = length h2)
                (seq 0 (length product))) with (a := {| heap := h2; dict := dict seg |})
      as (seg' & Hfold & Hok' & Hs' & Hlen').
    { intros seg1 i Hi (Hok1 & Hshr1 & Hlen1). apply elem_of_seq in Hi.
      destruct (linkProduct_step p (length h1) (length product) seg1 i Hok1 Hshr1)
        as (seg2 & Hstep & Hok2 & Hshr2 & Hlen2); [lia|lia|lia|].
      exists seg2. split; [done|]. split; [done|]. split; [done|lia]. }
    { split; [|by split]. split; [done|].
      intros q Hq. specialize (Hstore q Hq). simpl in *. lia. }
    exists seg'. split; [done|]. split; [done|]. split; [done|]. lia.
  - eexists. split; [done|]. split; [|split; [done|simpl; lia]].
    split; [done|]. intros q Hq. specialize (Hstore q Hq). simpl in *. lia.
Qed.

Lemma loadLine_segments seg line :
  Forall (fun t => segments t = []) (heap seg) ->
  Forall (fun t => segments t = []) (heap (loadLine seg line)).
Proof.
  intros Hall. unfold loadLine.
  set (toks := parseLine line). set (base := length (heap seg)).
  set (ptrs := map Stored (seq base (length toks))).
  assert (Hgen : forall l seg1,
    Forall (fun t => segments t = []) (heap seg1) ->
    Forall (fun t => segments t = [])
      (heap (foldl (fun seg i =>
               let h := alter (appendSynonyms (others ptrs i)) (base + i)%nat (heap seg) in
               {| heap := h; dict := addToken h (dict seg) (base + i)%nat |})
             seg1 l))).
  { induction l as [|i l IH]; intros seg1 H1'; simpl; [done|].
    apply IH. simpl. by apply Forall_alter. }
  apply Hgen. simpl. apply Forall_app. split; [done|].
  pose proof (parsePieces_text (F := F) (Split (Trim line) "|") [] ltac:(done)) as Hp.
  eapply Forall_impl; [exact Hp|]. by intros t (_ & _ & ?).
Qed.

Lemma readFiles_segments (files : list string) :
  Forall (fun t => segments t = [])
    (heap (foldl loadFile {| heap := []; dict := NewDictionary |} files)).
Proof.
  assert (Hline : forall lines seg,
            Forall (fun t => segments t = []) (heap seg) ->
            Forall (fun t => segments t = []) (heap (foldl loadLine seg lines))).
  { induction lines as [|line lines IH]; intros seg Hok; simpl; [done|].
    by apply IH, loadLine_segments. }
  assert (Hgen : forall seg,
            Forall (fun t => segments t = []) (heap seg) ->
            Forall (fun t => segments t = []) (heap (foldl loadFile seg files))).
  { induction files as [|file files IH]; intros seg Hok; simpl; [done|].
    apply IH. unfold loadFile. by apply Hline. }
  by apply Hgen.
Qed.

Lemma assignDistances_segments seg :
  Forall (fun t => segments t = []) (heap seg) ->
  Forall (fun t => segments t = []) (heap (assignDistances seg)).
Proof.
  unfold assignDistances. simpl. generalize (flog2 (totalFrequency (dict seg))).
  intros L. generalize (heap seg).
  induction (tokens (dict seg)) as [|p ps IH]; intros h Hall; simpl; [done|].
  apply IH. by apply Forall_alter.
Qed.

(** in the dictionary that [LoadDictionary] builds the sub-segments lead
    to shorter tokens *)
Lemma LoadDictionary_shrink (files : list string) :
  exists seg,
    LoadDictionary files = Some seg /\ loadedOK seg /\ shrinkOK (heap seg).
Proof.
  set (seg1 := assignDistances
                 (foldl loadFile {| heap := []; dict := NewDictionary |} files)).
  assert (Hok1 : loadedOK seg1) by apply assignDistances_ok, readFiles_ok.
  assert (Hs1 : shrinkOK (heap seg1)).
  { eapply Forall_impl; [apply assignDistances_segments, readFiles_segments|].
    intros t ->. constructor. }
  unfold LoadDictionary. fold seg1. unfold expandAll.
  destruct (foldl_option_total expandToken
              (fun seg => loadedOK seg /\ shrinkOK (heap seg)
                          /\ (length (heap seg1) <= length (heap seg))%nat)
              (tokens (dict seg1))) with (a := seg1)
    as (seg' & Hrun & Hok' & Hs' & _); [|done|by exists seg'].
  intros seg p Hp (Hok & Hshr & Hlen).
  destruct (expandToken_shrink seg p Hok Hshr) as (seg2 & Hrun & Hok2 & Hs2 & Hlen2).
  { destruct Hok1 as [_ Hstore]. specialize (Hstore p Hp). lia. }
  exists seg2. split; [done|]. split; [done|]. split; [done|lia].
Qed.

(** X24: in a dictionary that [LoadDictionary] builds, every sub-segment
    kept in a token points to a token of fewer atoms than the token: the
    search-mode segmentation that fills them never gives back the whole
    token. *)
Theorem X24_sub_segments_are_shorter (files : list string) :
  exists seg : Segmenter F,
    LoadDictionary files = Some seg
    /\ forall q, q ∈ tokens (dict seg) ->
         Forall (fun s => (tokLen (heap seg) (token s)
                           < tokLen (heap seg) (Stored q))%nat)
                (segments (deref (heap seg) (Stored q))).
Proof.
  destruct (LoadDictionary_shrink files) as (seg & Hload & [Hwf Hstore] & Hshrink).
  exists seg. split; [done|]. intros q Hq.
  destruct (lookup_lt_is_Some_2 (heap seg) q (Hstore q Hq)) as [t Ht].
  pose proof (proj1 (Forall_lookup _ _) Hshrink _ _ Ht) as Hs. simpl in Hs.
  unfold tokLen at 2. unfold textOf. simpl. rewrite Ht. simpl. exact Hs.
Qed.

(** X25: the recursion of [SegmentsSpread] ends on the segments of every
    text, with every dictionary that [LoadDictionary] builds: the
    sub-segments of a token point to tokens of fewer atoms, so the depth
    of the recursion is at most the number of atoms of the text, and
    [FullSegment] returns. *)
Theorem X25_full_segment_returns (files : list string) :
  exists seg : Segmenter F,
    LoadDictionary files = Some seg
    /\ forall bytes : Text,
         exists out,
           FullSegment seg (length (splitTextToWords bytes) + 2) bytes = Some out.
Proof.
  destruct (LoadDictionary_shrink files) as (seg & Hload & Hok & Hshrink).
  exists seg. split; [done|]. intros bytes.
  pose proof (dictWF_of seg Hok) as Hwf.
  destruct (Segment_path (heap seg) (dict seg) bytes Hwf) as (toks & Hseg & _ & Hall).
  unfold FullSegment. unfold Segment_ in Hseg. rewrite Hseg. simpl.
  replace (length (splitTextToWords bytes) + 2)%nat
    with (S (S (length (splitTextToWords bytes)))) by lia.
  apply spread_total; [done|].
  apply Forall_forall. intros s Hs. apply list_elem_of_filter in Hs as [_ Hs].
  assert (token s ∈ toks) as Hin.
  { rewrite <- (spans_tokens (heap seg) toks 0). apply list_elem_of_fmap. by exists s. }
  destruct (proj1 (Forall_forall _ _) Hall _ Hin) as (c & Hc).
  apply (candidates_spec _ _ _ _ _ _ Hwf) in Hc as (_ & Hend & _). lia.
Qed.

End LoadedSubSegments.

(** ** Texts without atoms, and the segments as text *)

Section Output.

Context {F : Type} `{Float32Ops F} `{RangeTables}.

Implicit Types (h : Store F) (dict : Dictionary).

(** X26: a text of space bytes only (the empty text included) has no
    segment, in both modes and with any dictionary. *)
Theorem X26_spaces_only h dict (bytes : Text) (searchMode : bool) :
  Forall (fun c => c = sp) bytes ->
  internalSegment h dict bytes searchMode = Some [].
Proof.
  intros Hall. apply splitTextToWords_nil in Hall.
  unfold internalSegment. rewrite Hall. case_match; [done|].
  by destruct searchMode.
Qed.

(** X27: [FullSegment] returns the segments of [Segment] among those it
    adds, all of them and in the order of the text: the spread puts
    sub-segments and synonyms before a segment and takes none away. *)
Theorem X27_full_segment_keeps_order (seg : Segmenter F) (fuel : nat)
    (bytes : Text) (out : list Segment) :
  FullSegment seg fuel bytes = Some out ->
  exists segs,
    Segment_ (heap seg) (dict seg) bytes = Some segs /\ segs `sublist_of` out.
Proof.
  unfold FullSegment, Segment_.
  destruct (internalSegment (heap seg) (dict seg) bytes false) as [segs|]; [|done].
  simpl. intros Hspread. exists segs. split; [done|].
  by apply (SegmentsSpread_sublist (heap seg) fuel).
Qed.

Lemma string_app_assoc (a b c : string) :
  ((a ++ b) ++ c = a ++ (b ++ c))%string.
Proof.
  induction a as [|x a IH]; [done|].
  change (String x ((a ++ b) ++ c) = String x (a ++ (b ++ c)))%string.
  by rewrite IH.
Qed.

Lemma string_app_nil_r (a : string) : (a ++ "" = a)%string.
Proof.
  induction a as [|x a IH]; [done|].
  change (String x (a ++ "") = String x a)%string. by rewrite IH.
Qed.

Lemma SegmentsToString_fold h (segs : list Segment) :
  forall acc : string,
  foldl (fun output seg =>
           (output ++ (textSliceToString (textOf h (token seg)) ++ "/"
                       ++ pos (deref h (token seg)) ++ " "))%string)
        acc segs
  = (acc ++ SegmentsToString h segs)%string.
Proof.
  unfold SegmentsToString.
  induction segs as [|s segs IH]; intros acc; simpl.
  { by rewrite string_app_nil_r. }
  rewrite (IH (acc ++ _)%string), (IH (String.append EmptyString _)).
  simpl. by rewrite string_app_assoc.
Qed.

(** X28: [SegmentsToString] writes the segments one after the other: the
    text of [a ++ b] is the text of [a] followed by the text of [b], and
    the text of one segment is the [Join] of the atoms of its token, a
    slash, its part of speech and a space. *)
Theorem X28_segments_to_string h (a b : list Segment) (s : Segment) :
  SegmentsToString h (a ++ b)
  = (SegmentsToString h a ++ SegmentsToString h b)%string
  /\ SegmentsToString h [s]
     = (Join (textOf h (token s)) ++ "/" ++ pos (deref h (token s)) ++ " ")%string.
Proof.
  split; [|done]. unfold SegmentsToString at 1. rewrite foldl_app.
  fold (SegmentsToString h a). apply SegmentsToString_fold.
Qed.

(** *** [tokenToSlice] and [tokenToString] *)

Lemma foldl_bind_total {A B} (f : B -> option A) (g : A -> A -> A) (l : list B) :
  Forall (fun b => exists x, f b = Some x) l ->
  forall acc, exists out,
    foldl (fun output b => output ← output; sub ← f b; Some (g output sub))
          (Some acc) l = Some out.
Proof.
  induction 1 as [|b l [x Hx] _ IH]; intros acc; simpl; [by eexists|].
  rewrite Hx. simpl. apply IH.
Qed.

Lemma sub_tokens_shorter h (tk : TokenRef) (n : nat) :
  shrinkOK h -> (tokLen h tk <= S n)%nat ->
  Forall (fun s => (tokLen h (token s) <= n)%nat) (segments (deref h tk)).
Proof.
  intros Hshrink Hn. destruct tk as [p|atom]; [|done]. simpl.
  destruct (h !! p) as [t|] eqn:Ht; [|done]. simpl.
  pose proof (proj1 (Forall_lookup _ _) Hshrink _ _ Ht) as Hs. simpl in Hs.
  unfold tokLen, textOf in Hn. simpl in Hn. rewrite Ht in Hn. simpl in Hn.
  eapply Forall_impl; [exact Hs|]. intros s ?. simpl in *. lia.
Qed.

Lemma sub_tokens_none h (tk : TokenRef) :
  shrinkOK h -> tokLen h tk = 0%nat -> segments (deref h tk) = [].
Proof.
  intros Hshrink Hn. destruct tk as [p|atom]; [|done]. simpl.
  destruct (h !! p) as [t|] eqn:Ht; [|done]. simpl.
  pose proof (proj1 (Forall_lookup _ _) Hshrink _ _ Ht) as Hs. simpl in Hs.
  unfold tokLen, textOf in Hn. simpl in Hn. rewrite Ht in Hn. simpl in Hn.
  destruct (segments t) as [|s ss]; [done|].
  apply Forall_cons in Hs as [Hs _]. lia.
Qed.

Lemma tokenToSlice_S h (fuel : nat) (tk : TokenRef) :
  tokenToSlice h (S fuel) tk
  = output ← foldl (fun output s =>
                      output ← output;
                      sub ← tokenToSlice h fuel (token s);
                      Some (output ++ sub))
                   (Some []) (segments (deref h tk));
    Some (output ++ [textSliceToString (textOf h tk)]).
Proof. reflexivity. Qed.

Lemma tokenToString_S h (fuel : nat) (tk : TokenRef) :
  tokenToString h (S fuel) tk
  = output ← foldl (fun output s =>
                      output ← output;
                      sub ← tokenToString h fuel (token s);
                      Some (output ++ sub)%string)
                   (Some EmptyString) (segments (deref h tk));
    Some (output ++ (textSliceToString (textOf h tk) ++ "/"
                     ++ pos (deref h tk) ++ " "))%string.
Proof. reflexivity. Qed.

Lemma tokenToSlice_total h :
  shrinkOK h ->
  forall n tk, (tokLen h tk <= n)%nat ->
  exists front,
    tokenToSlice h (S n) tk = Some (front ++ [textSliceToString (textOf h tk)]).
Proof.
  intros Hshrink. induction n as [|n IH]; intros tk Hn; rewrite tokenToSlice_S.
  - rewrite (sub_tokens_none h tk) by (done || lia). simpl. by exists [].
  - destruct (foldl_bind_total (fun s => tokenToSlice h (S n) (token s)) app
                (segments (deref h tk))) with (acc := @nil string) as [out Hout].
    { eapply Forall_impl; [by apply (sub_tokens_shorter h tk n)|].
      intros s Hs. destruct (IH (token s) Hs) as [front Hf]. by eexists. }
    rewrite Hout. simpl. by exists out.
Qed.

Lemma tokenToString_total h :
  shrinkOK h ->
  forall n tk, (tokLen h tk <= n)%nat ->
  exists front,
    tokenToString h (S n) tk
    = Some (front ++ (textSliceToString (textOf h tk) ++ "/"
                      ++ pos (deref h tk) ++ " "))%string.
Proof.
  intros Hshrink. induction n as [|n IH]; intros tk Hn; rewrite tokenToString_S.
  - rewrite (sub_tokens_none h tk) by (done || lia). simpl. by exists EmptyString.
  - destruct (foldl_bind_total (fun s => tokenToString h (S n) (token s)) String.append
                (segments (deref h tk))) with (acc := EmptyString) as [out Hout].
    { eapply Forall_impl; [by apply (sub_tokens_shorter h tk n)|].
      intros s Hs. destruct (IH (token s) Hs) as [front Hf]. by eexists. }
    rewrite Hout. simpl. by exists out.
Qed.

End Output.

Section OutputOfLoaded.

Context {F : Type} `{Float32Laws F} `{RangeTables}.

(** X29: [tokenToSlice] and [tokenToString] return on every token of a
    dictionary that [LoadDictionary] builds, at a depth of at most the
    number of atoms of the token; what they return ends with the token
    itself: its text, and for [tokenToString] its part of speech. *)
Theorem X29_token_output_returns (files : list string) :
  exists seg : Segmenter F,
    LoadDictionary files = Some seg
    /\ forall q, q ∈ tokens (dict seg) ->
         let tk := Stored q in
         let fuel := S (tokLen (heap seg) tk) in
         (exists front,
            tokenToSlice (heap seg) fuel tk
            = Some (front ++ [textSliceToString (textOf (heap seg) tk)]))
         /\ (exists front,
               tokenToString (heap seg) fuel tk
               = Some (front ++ (textSliceToString (textOf (heap seg) tk) ++ "/"
                                 ++ pos (deref (heap seg) tk) ++ " "))%string).
Proof.
  destruct (LoadDictionary_shrink files) as (seg & Hload & Hok & Hshrink).
  exists seg. split; [done|]. intros q Hq tk fuel. split.
  - by apply tokenToSlice_total.
  - by apply tokenToString_total.
Qed.

End OutputOfLoaded.

(** ** The scalars that are atoms of their own *)

Section OtherScalars.

Context `{RangeTables}.

Lemma leadInfo_hi p0 sz lo hi : leadInfo p0 = Some (sz, lo, hi) -> hi <= hicb.
Proof.
  unfold leadInfo, locb, hicb.
  repeat case_match; intros Heq; try discriminate;
    injection Heq as <- <- <-; lia.
Qed.

Lemma inRange_startByte lo hi c :
  0x80 <= lo -> hi <= hicb -> startByte c ->
  negb (inRange lo hi (byteVal c)) = true.
Proof.
  unfold startByte, inRange, hicb. intros Hlo Hhi Hc.
  apply negb_true_iff, andb_false_iff.
  destruct Hc; [left; apply Z.leb_gt|right; apply Z.leb_gt]; lia.
Qed.

(** a scalar is decoded the same when a byte that starts a scalar
    follows the text *)
Lemma DecodeRune_app_start c0 a d b :
  startByte d -> DecodeRune ((c0 :: a) ++ d :: b) = DecodeRune (c0 :: a).
Proof.
  intros Hd. unfold DecodeRune. cbn [app]. case_match; [done|].
  destruct (leadInfo (byteVal c0)) as [[[sz lo] hi]|] eqn:Hlead; [|done].
  pose proof (leadInfo_hi _ _ _ _ Hlead) as Hhi.
  apply leadInfo_lo in Hlead as [Hlo Hsz].
  pose proof (inRange_startByte lo hi d Hlo Hhi Hd) as Hd1.
  pose proof (inRange_startByte locb hicb d ltac:(unfold locb; lia) ltac:(lia) Hd)
    as Hd2.
  destruct sz as [|[|[|[|[|sz]]]]]; try lia;
    destruct a as [|c1 [|c2 [|c3 a]]]; cbn [app length Nat.ltb Nat.leb];
    rewrite ?Hd1, ?Hd2; repeat case_match; try done.
Qed.

(** the first byte of a scalar is no continuation byte *)
Lemma isScalar_start ty d w : isScalar ty (d :: w) -> startByte d.
Proof.
  intros (c0 & rest & r & [= <- <-] & Hdec & Hv & _).
  unfold startByte. destruct (decide (byteVal d < 0x80)) as [|Hhigh]; [by left|].
  right. unfold DecodeRune in Hdec.
  destruct (byteVal d <? 0x80) eqn:Hlow; [apply Z.ltb_lt in Hlow; lia|].
  destruct (leadInfo (byteVal d)) as [[[sz lo] hi]|] eqn:Hlead.
  - unfold leadInfo in Hlead.
    destruct (byteVal d <? 0xC2) eqn:Hc2; [done|]. apply Z.ltb_ge in Hc2. lia.
  - injection Hdec as _ Hlen. exfalso. apply Hhigh, Hv. simpl in *. lia.
Qed.

(** when the run in progress is one scalar that is neither a letter nor
    a number (and not the space), it is the next atom, and the text left
    is read as from the start *)
Lemma atomsFrom_other fuel (w b : Text) :
  w <> [] -> w <> space ->
  atomsFrom fuel wordOther w b = w :: atomsFrom fuel wordAlpha [] b.
Proof.
  intros Hne Hsp.
  assert (Hflush : flushRun wordOther w = [w]).
  { unfold flushRun. destruct w as [|c w]; [done|].
    unfold wordOf, Text_eqb. simpl wordType_eqb. cbn iota.
    by rewrite bool_decide_eq_false_2. }
  destruct fuel as [|fuel]; [done|].
  destruct b as [|c0 rest]; [done|].
  cbn [atomsFrom]. destruct (DecodeRune (c0 :: rest)) as [r size] eqn:Hdec.
  rewrite Hflush. destruct (classify r size); reflexivity.
Qed.

(** such a scalar cuts the text in two, whatever bytes stand before it *)
Lemma atomsFrom_cut (w : Text) fa :
  isScalar wordOther w -> w <> space ->
  forall a ty run b fuel,
  (length a <= fa)%nat -> (length (a ++ w ++ b) <= fuel)%nat ->
  atomsFrom fuel ty run (a ++ w ++ b)
  = atomsFrom fa ty run a ++ w :: atomsFrom (length b) wordAlpha [] b.
Proof.
  intros Hw Hsp. pose proof (isScalar_nonempty _ _ Hw) as Hne.
  induction fa as [|fa IH]; intros a ty run b fuel Ha Hf.
  - destruct a; [|simpl in Ha; lia]. cbn [app] in *.
    destruct (isScalar_decode wordOther w b Hw) as (r & Hdec & Hcl).
    destruct w as [|d w]; [done|]. rewrite length_app in Hf.
    destruct fuel as [|fuel]; [simpl in Hf; lia|].
    cbn [atomsFrom]. change ((d :: w) ++ b) with (d :: w ++ b). cbn iota.
    change (d :: w ++ b) with ((d :: w) ++ b).
    rewrite Hdec, Hcl, take_app_length, drop_app_length.
    replace (negb (wordType_eqb wordOther ty) || wordType_eqb wordOther wordOther)
      with true by (by destruct ty).
    f_equal. rewrite atomsFrom_other by done. f_equal.
    apply atomsFrom_fuel; simpl in Hf; lia.
  - destruct a as [|c0 a].
    { rewrite (IH [] ty run b fuel) by (simpl; done || lia). by destruct fa. }
    destruct fuel as [|fuel]; [simpl in Hf; lia|].
    destruct w as [|d w]; [done|]. pose proof (isScalar_start _ _ _ Hw) as Hd.
    cbn [atomsFrom]. change ((c0 :: a) ++ (d :: w) ++ b) with (c0 :: a ++ d :: w ++ b).
    cbn iota. change (c0 :: a ++ d :: w ++ b) with ((c0 :: a) ++ d :: w ++ b).
    rewrite DecodeRune_app_start by done.
    destruct (DecodeRune (c0 :: a)) as [r size] eqn:Hdec.
    assert (Hsize : (1 <= size <= length (c0 :: a))%nat)
      by (by apply (DecodeRune_size _ r)).
    rewrite take_app_le, drop_app_le by lia.
    assert (Hrest : (length (drop size (c0 :: a)) <= fa)%nat)
      by (rewrite length_drop; simpl in *; lia).
    assert (Hrest' : (length (drop size (c0 :: a) ++ (d :: w) ++ b) <= fuel)%nat).
    { rewrite length_app, length_drop. rewrite length_app in Hf. simpl in *. lia. }
    change (d :: w ++ b) with ((d :: w) ++ b).
    case_match; [rewrite <- app_assoc; f_equal|]; by apply IH.
Qed.

Lemma splitTextToWords_cut (a w b : Text) :
  isScalar wordOther w -> w <> space ->
  splitTextToWords (a ++ w ++ b)
  = splitTextToWords a ++ [w] ++ splitTextToWords b.
Proof.
  intros Hw Hsp. rewrite !splitTextToWords_atoms.
  by apply (atomsFrom_cut w (length a)).
Qed.

(** tab, line feed, vertical tab, form feed and carriage return are
    scalars of one byte that are neither letters nor numbers *)
Lemma spaceByte_scalar (c : byte) :
  isSpaceByte c = true -> c <> sp -> isScalar wordOther [c] /\ [c] <> space.
Proof.
  intros Hc Hsp. unfold isSpaceByte in Hc.
  assert (Hr : 0x09 <= byteVal c <= 0x0D).
  { apply orb_true_iff in Hc as [Hc|Hc].
    - unfold inRange in Hc. apply andb_true_iff in Hc as [Hlo Hhi].
      apply Z.leb_le in Hlo, Hhi. lia.
    - apply Z.eqb_eq in Hc. by apply byteVal_sp in Hc. }
  split; [|by intros [= ->]].
  exists c, [], (byteVal c). split; [done|].
  assert (Hdec : DecodeRune [c] = (byteVal c, 1%nat)).
  { unfold DecodeRune. destruct (byteVal c <? 0x80) eqn:Hlow; [done|].
    apply Z.ltb_ge in Hlow. lia. }
  split; [done|]. split; [simpl; lia|]. simpl length.
  assert (byteVal c = 0x09 \/ byteVal c = 0x0A \/ byteVal c = 0x0B
          \/ byteVal c = 0x0C \/ byteVal c = 0x0D) as Hcases by lia.
  destruct Hcases as [->|[->|[->|[->| ->]]]]; reflexivity.
Qed.

(** C8, amended: no atom returned by [splitTextToWords] holds a space
    byte and none is the one-space atom; the atoms, one after the other,
    are the bytes of the input with its space bytes taken out (and its
    capital ASCII letters lowered), so the space is the white space that
    is discarded.  The other white space is returned: a tab, a line
    feed, a vertical tab, a form feed or a carriage return at any place
    of the text is an atom of its own, between the atoms of what stands
    before it and the atoms of what stands behind it; and so is every
    scalar that is neither a letter nor a number, white space of
    several bytes included. *)
Theorem C8_no_space_in_atoms (text : Text) :
  Forall (fun w => (sp ∉ w) /\ w <> space) (splitTextToWords text)
  /\ textSliceToBytes (splitTextToWords text) = stripSpaces (toLower text)
  /\ textSliceByteLength (splitTextToWords text)
     = Z.of_nat (length text) - Z.of_nat (countSpaces text)
  /\ (forall (a b : Text) (c : byte),
        text = a ++ c :: b -> isSpaceByte c = true -> c <> sp ->
        splitTextToWords text
        = splitTextToWords a ++ [[c]] ++ splitTextToWords b)
  /\ (forall a w b : Text,
        text = a ++ w ++ b -> isScalar wordOther w -> w <> space ->
        splitTextToWords text
        = splitTextToWords a ++ [w] ++ splitTextToWords b).
Proof.
  split; [|split; [|split; [|split]]].
  - eapply Forall_impl; [apply splitTextToWords_no_sp|].
    intros w Hw. split; [done|]. intros ->. apply Hw. left.
  - rewrite textSliceToBytes_concat, splitTextToWords_atoms.
    rewrite atomsFrom_bytes; [done|apply runOK_nil|done].
  - apply splitTextToWords_byteLength.
  - intros a b c -> Hc Hsp.
    destruct (spaceByte_scalar c Hc Hsp) as [Hw Hne].
    by apply (splitTextToWords_cut a [c] b).
  - intros a w b -> Hw Hne. by apply splitTextToWords_cut.
Qed.

End OtherScalars.

(** ** The sub-segments kept at load time *)

Section LoadTimeSegments.

Context {F : Type} `{Float32Laws F} `{RangeTables}.

Implicit Types (h : Store F) (dict : Dictionary) (seg : Segmenter F)
  (r : TokenRef) (t : Token F).

Lemma textOf_ext h h' r : textsExt h h' -> refOK h r -> textOf h' r = textOf h r.
Proof.
  intros Hext Hr. destruct r as [q|atom]; [|done].
  unfold refOK, textOf in *. simpl in *.
  destruct (h !! q) as [t|] eqn:Ht; [|done].
  by destruct (Hext _ _ Ht) as (t' & -> & Htext).
Qed.

Lemma dictExt_refl dict : dictExt dict dict.
Proof. by intros q Hq. Qed.

Lemma dictExt_trans d1 d2 d3 : dictExt d1 d2 -> dictExt d2 d3 -> dictExt d1 d3.
Proof. intros H12 H23 q Hq. by apply H23, H12. Qed.

Lemma dictExt_addToken h dict q : dictExt dict (addToken h dict q).
Proof.
  intros q' Hq'. destruct (addToken_tokens h dict q) as [Heq|Heq]; rewrite Heq;
    [done|]. apply elem_of_app. by left.
Qed.

Lemma loadTime_ext d1 h h' dict dict' (words : list Text) (segs : list Segment) :
  textsExt h h' -> dictExt dict dict' ->
  loadTimeSegments d1 h dict words segs -> loadTimeSegments d1 h' dict' words segs.
Proof.
  intros Hext Hd (h0 & d0 & Hwf & Hext0 & Hlo & Hhi & Hrun). exists h0, d0.
  split; [done|]. split; [by eapply textsExt_trans|].
  split; [done|]. split; [by eapply dictExt_trans|done].
Qed.

Lemma spans_end h toks :
  forall b s, s ∈ spans h toks b ->
  end_ s <= b + textSliceByteLength (concat (map (textOf h) toks)).
Proof.
  induction toks as [|tk toks IH]; intros b s Hs; [by apply elem_of_nil in Hs|].
  simpl in Hs. cbn [map concat]. rewrite textSliceByteLength_app.
  assert (0 <= textSliceByteLength (concat (map (textOf h) toks)))
    by (rewrite textSliceByteLength_length; lia).
  apply elem_of_cons in Hs as [->|Hs]; simpl; [lia|].
  specialize (IH _ _ Hs). lia.
Qed.

(** segments returned at load time for a text lie in that text: in
    order from its first byte, each within its bytes, and holding there
    the bytes of its own token *)
Lemma loadTime_layout d1 h dict (words : list Text) (segs : list Segment) :
  loadTimeSegments d1 h dict words segs ->
  inOrder 0 segs
  /\ Forall (fun s => end_ s <= textSliceByteLength words
                      /\ bytesBetween (textSliceToBytes words) (start s) (end_ s)
                         = textSliceToBytes (textOf h (token s))) segs.
Proof.
  intros (h0 & d0 & Hwf & Hext & _ & _ & Hrun). unfold segmentWords in Hrun.
  destruct (true && (length words =? 1)%nat) eqn:Hone.
  { injection Hrun as <-. by split. }
  assert (Hn : true = true -> length words <> 1%nat).
  { intros _. simpl in Hone. by apply Nat.eqb_neq in Hone. }
  destruct (outputSegments_spec h0 d0 words true Hwf Hn) as (toks & Hout & Hcat & Hall).
  rewrite Hout in Hrun. simpl in Hrun. injection Hrun as <-. split.
  - apply inOrder_filter, spans_inOrder.
  - apply Forall_forall. intros s Hs. apply list_elem_of_filter in Hs as [_ Hs].
    split.
    + pose proof (spans_end h0 toks 0 s Hs) as He. rewrite Hcat in He. lia.
    + pose proof (spans_bytes h0 toks [] s Hs) as Hb. simpl in Hb.
      rewrite Hcat in Hb. rewrite !textSliceToBytes_concat, Hb. f_equal.
      symmetry. apply textOf_ext; [done|].
      assert (token s ∈ toks) as Hin.
      { rewrite <- (spans_tokens h0 toks 0). apply list_elem_of_fmap. by exists s. }
      destruct (proj1 (Forall_forall _ _) Hall _ Hin) as (c & Hc & _).
      by eapply candidate_refOK.
Qed.

(** *** No token is stored twice *)

Lemma loadLine_NoDup seg line :
  storeOK seg -> NoDup (tokens (dict seg)) ->
  NoDup (tokens (dict (loadLine seg line))).
Proof.
  intros Hok Hnd. unfold loadLine.
  set (toks := parseLine line). set (base := length (heap seg)).
  set (ptrs := map Stored (seq base (length toks))).
  assert (Hgen : forall m k seg1,
    (forall q, q ∈ tokens (dict seg1) -> (q < base + k)%nat) ->
    NoDup (tokens (dict seg1)) ->
    NoDup (tokens (dict (foldl (fun seg i =>
               let h := alter (appendSynonyms (others ptrs i)) (base + i)%nat (heap seg) in
               {| heap := h; dict := addToken h (dict seg) (base + i)%nat |})
             seg1 (seq k m))))).
  { induction m as [|m IH]; intros k seg1 Hlt Hnd1; simpl; [done|].
    apply IH.
    - intros q Hq. simpl in Hq.
      match type of Hq with
      | q ∈ tokens (addToken ?h ?d ?p) =>
        destruct (addToken_tokens h d p) as [Heq|Heq]; rewrite Heq in Hq
      end; [specialize (Hlt q Hq); lia|].
      apply elem_of_app in Hq as [Hq|Hq]; [specialize (Hlt q Hq); lia|].
      apply list_elem_of_singleton in Hq as ->. lia.
    - simpl.
      match goal with
      | |- NoDup (tokens (addToken ?h ?d ?p)) =>
        destruct (addToken_tokens h d p) as [Heq|Heq]; rewrite Heq
      end; [done|].
      apply NoDup_app. split; [done|]. split; [|apply NoDup_singleton].
      intros q Hq Hq'. apply list_elem_of_singleton in Hq' as ->.
      specialize (Hlt _ Hq). lia. }
  apply (Hgen (length toks) 0%nat); simpl; [|done].
  intros q Hq. specialize (Hok q Hq). unfold base. lia.
Qed.

Lemma readFiles_NoDup (files : list string) :
  NoDup (tokens (dict (foldl loadFile {| heap := []; dict := NewDictionary |} files)
                   : Dictionary)).
Proof.
  assert (Hline : forall lines seg,
            storeOK seg -> NoDup (tokens (dict seg)) ->
            storeOK (foldl loadLine seg lines)
            /\ NoDup (tokens (dict (foldl loadLine seg lines)))).
  { induction lines as [|line lines IH]; intros seg Hok Hnd; simpl; [done|].
    apply IH; [by apply loadLine_storeOK|by apply loadLine_NoDup]. }
  assert (Hgen : forall seg,
            storeOK seg -> NoDup (tokens (dict seg)) ->
            NoDup (tokens (dict (foldl loadFile seg files)))).
  { induction files as [|file files IH]; intros seg Hok Hnd; simpl; [done|].
    destruct (Hline (Split file "010") seg Hok Hnd) as [Hok' Hnd']. by apply IH. }
  apply Hgen; [|constructor]. intros p Hp. by apply elem_of_nil in Hp.
Qed.

(** *** The expansion *)

Lemma linkProduct_heap p base ptrs seg i seg' :
  linkProduct p base ptrs (Some seg) i = Some seg' ->
  exists segs,
    segmentWords (heap seg) (dict seg) (textOf (heap seg) (Stored (base + i)%nat)) true
    = Some segs
    /\ heap seg' = alter (appendSynonyms (Stored p :: others ptrs i)) (base + i)%nat
                     (alter (appendSegments segs) (base + i)%nat (heap seg))
    /\ dictExt (dict seg) (dict seg').
Proof.
  unfold linkProduct. simpl.
  destruct (segmentWords _ _ _ _) as [segs|]; simpl; [|done].
  intros [= <-]. exists segs. split; [done|]. split; [done|]. apply dictExt_addToken.
Qed.

(** the product tokens, linked one after the other from the [k]-th on:
    each gets the segments of its own text *)
Lemma linkProduct_layout d1 p base n :
  forall m k seg,
  (k + m = n)%nat ->
  loadedOK seg -> shrinkOK (heap seg) -> dictExt d1 (dict seg) ->
  (p < length (heap seg))%nat -> (base + n <= length (heap seg))%nat ->
  (forall i t, (i < k)%nat -> heap seg !! (base + i)%nat = Some t ->
     loadTimeSegments d1 (heap seg) (dict seg) (text t) (segments t)) ->
  (forall i t, (k <= i < n)%nat -> heap seg !! (base + i)%nat = Some t ->
     segments t = []) ->
  exists seg',
    foldl (linkProduct p base (map Stored (seq base n))) (Some seg) (seq k m)
    = Some seg'
    /\ loadedOK seg' /\ shrinkOK (heap seg')
    /\ length (heap seg') = length (heap seg)
    /\ textsExt (heap seg) (heap seg')
    /\ dictExt (dict seg) (dict seg')
    /\ (forall i t, (i < n)%nat -> heap seg' !! (base + i)%nat = Some t ->
          loadTimeSegments d1 (heap seg') (dict seg') (text t) (segments t)).
Proof.
  induction m as [|m IH]; intros k seg Hkm Hok Hshr Hd1 Hp Hbase Hdone Htodo.
  - exists seg. simpl. split; [done|]. split; [done|]. split; [done|].
    split; [done|]. split; [apply textsExt_refl|]. split; [apply dictExt_refl|].
    intros i t Hi. apply Hdone. lia.
  - cbn [seq foldl].
    destruct (linkProduct_step p base n seg k Hok Hshr Hp Hbase ltac:(lia))
      as (seg1 & Hstep & Hok1 & Hshr1 & Hlen1).
    rewrite Hstep.
    destruct (linkProduct_heap _ _ _ _ _ _ Hstep) as (segs & Hrun & Hheap & Hdict).
    assert (Hext1 : textsExt (heap seg) (heap seg1)).
    { rewrite Hheap. eapply textsExt_trans; by apply textsExt_alter. }
    destruct (IH (S k) seg1)
      as (seg' & Hfold & Hok' & Hshr' & Hlen' & Hext' & Hdict' & Hall);
      try done; try lia.
    + by eapply dictExt_trans.
    + intros i t Hi Ht. rewrite Hheap in Ht.
      destruct (decide (i = k)) as [->|Hne].
      * rewrite !list_lookup_alter_eq in Ht.
        destruct (heap seg !! (base + k)%nat) as [t0|] eqn:Ht0; [|done].
        simpl in Ht. injection Ht as <-. simpl.
        rewrite (Htodo k t0) by (lia || done). simpl.
        exists (heap seg), (dict seg). split; [by apply dictWF_of|]. split; [done|].
        split; [done|]. split; [done|].
        unfold textOf in Hrun. simpl in Hrun. by rewrite Ht0 in Hrun.
      * rewrite !list_lookup_alter_ne in Ht by lia.
        apply (loadTime_ext d1 (heap seg) _ (dict seg)); [done|done|].
        apply (Hdone i); [lia|done].
    + intros i t Hi Ht. rewrite Hheap in Ht.
      rewrite !list_lookup_alter_ne in Ht by lia. apply (Htodo i); [lia|done].
    + exists seg'. split; [done|]. split; [done|]. split; [done|].
      split; [lia|]. split; [by eapply textsExt_trans|].
      split; [by eapply dictExt_trans|done].
Qed.

(** the expansion of a stored token that has no sub-segment yet: the
    tokens it allocates get the segments of their own texts *)
Lemma expandToken_layout d1 seg p :
  loadedOK seg -> shrinkOK (heap seg) -> dictExt d1 (dict seg) ->
  (p < length (heap seg))%nat ->
  exists seg',
    expandToken (Some seg) p = Some seg'
    /\ loadedOK seg' /\ shrinkOK (heap seg')
    /\ (length (heap seg) <= length (heap seg'))%nat
    /\ textsExt (heap seg) (heap seg')
    /\ dictExt (dict seg) (dict seg')
    /\ (forall j t, (length (heap seg) <= j)%nat -> heap seg' !! j = Some t ->
          loadTimeSegments d1 (heap seg') (dict seg') (text t) (segments t)).
Proof.
  intros Hok Hshrink Hd1 Hp.
  destruct (segmentWords_shrink seg (textOf (heap seg) (Stored p)) Hok)
    as (segs & Hrun & Hsegs).
  destruct Hok as [Hwf Hstore].
  unfold expandToken. simpl. rewrite Hrun. simpl.
  set (h1 := alter (appendSegments segs) p (heap seg)).
  assert (Hl1 : length h1 = length (heap seg)) by apply length_alter.
  assert (Hx1 : textsExt (heap seg) h1) by (by apply textsExt_alter).
  assert (Hwf1 : heapWF h1).
  { apply heapWF_alter; [done|done|]. intros t. apply tokenOK_appendSegments.
    eapply Forall_impl; [exact Hsegs|]. intros s [? _].
    apply (refOK_ext (heap seg)); [by apply textsExt_alter|done]. }
  assert (Hs1 : shrinkOK h1).
  { apply shrinkOK_alter; [done|done|]. intros t Ht. simpl.
    apply Forall_app. split.
    - exact (proj1 (Forall_lookup _ _) Hshrink _ _ Ht).
    - eapply Forall_impl; [exact Hsegs|]. intros s [_ Hlt].
      unfold textOf in Hlt. simpl in Hlt. by rewrite Ht in Hlt. }
  destruct (lookup_lt_is_Some_2 h1 p ltac:(lia)) as [tk Htk]. rewrite Htk. simpl.
  destruct (proj1 (Forall_lookup _ _) Hwf1 _ _ Htk) as (_ & _ & Hsub).
  destruct (foldl (cartesianStep h1) ([seedToken tk], false) (segments tk))
    as [product hasSynonyms] eqn:Hprod.
  destruct hasSynonyms.
  - pose proof (cartesian_hasSynonyms _ _ _ _ _ Hprod eq_refl) as Hne.
    pose proof (cartesian_ok h1 (segments tk) Hwf1 Hsub _ _ _ _ Hprod
                  ltac:(by apply Forall_singleton) ltac:(by left)) as Hall.
    set (ptrs := map Stored (seq (length h1) (length product))).
    set (h2 := alter (setSynonyms ptrs) p (h1 ++ product)).
    assert (Hwfa : heapWF (h1 ++ product)).
    { apply heapWF_app; [done|]. eapply Forall_impl; [exact Hall|].
      intros a (Hx & Hs & Hg). split; [done|]. rewrite Hs, Hg. by split. }
    assert (Hsa : shrinkOK (h1 ++ product)).
    { apply shrinkOK_app; [done|done|]. eapply Forall_impl; [exact Hall|].
      by intros a (_ & _ & ?). }
    assert (Hl2 : length h2 = (length h1 + length product)%nat)
      by (unfold h2; by rewrite length_alter, length_app).
    assert (Hx2 : textsExt (heap seg) h2).
    { eapply textsExt_trans; [exact Hx1|].
      eapply textsExt_trans; [apply textsExt_app|]. by apply textsExt_alter. }
    assert (Hwf2 : heapWF h2).
    { apply heapWF_alter; [done|done|]. intros t. apply tokenOK_setSynonyms.
      eapply Forall_impl;
        [apply (refOK_allocated (h1 ++ product)); [done|rewrite length_app; lia]|].
      intros r. by apply refOK_ext, textsExt_alter. }
    assert (Hs2 : shrinkOK h2).
    { apply shrinkOK_alter; [done|done|]. intros t Ht. simpl.
      exact (proj1 (Forall_lookup _ _) Hsa _ _ Ht). }
    destruct (linkProduct_layout d1 p (length h1) (length product) (length product)
                0%nat {| heap := h2; dict := dict seg |})
      as (seg' & Hfold & Hok' & Hs' & Hlen' & Hext' & Hdict' & Hnew);
      simpl; try done; try lia.
    { split; [done|]. intros q Hq. specialize (Hstore q Hq). simpl in *. lia. }
    { intros i t Hi Ht. unfold h2 in Ht.
      rewrite list_lookup_alter_ne in Ht by lia.
      rewrite lookup_app_r in Ht by lia.
      pose proof (proj1 (Forall_lookup _ _) Hall _ _ Ht) as (_ & _ & Hg). exact Hg. }
    exists seg'. split; [done|]. split; [done|]. split; [done|].
    simpl in Hlen'. split; [lia|]. split; [by eapply textsExt_trans|].
    split; [done|]. intros j t Hj Ht.
    replace j with (length h1 + (j - length h1))%nat in Ht by lia.
    apply (Hnew (j - length h1)%nat); [|done].
    apply lookup_lt_Some in Ht. lia.
  - eexists. split; [done|]. split; [|split; [done|]].
    { split; [done|]. intros q Hq. specialize (Hstore q Hq). simpl in *. lia. }
    simpl. split; [lia|]. split; [done|]. split; [apply dictExt_refl|].
    intros j t Hj Ht. apply lookup_lt_Some in Ht. lia.
Qed.

(** the loop over the tokens read from the files: when it has expanded
    the tokens [done], these and the tokens it has allocated have the
    segments of their own texts, and the others have none yet *)
Lemma expandAll_layout seg1 :
  forall l done seg,
  NoDup (done ++ l) ->
  (forall p, p ∈ l -> (p < length (heap seg1))%nat) ->
  loadedOK seg -> shrinkOK (heap seg) -> dictExt (dict seg1) (dict seg) ->
  (length (heap seg1) <= length (heap seg))%nat ->
  (forall j t, j ∈ done \/ (length (heap seg1) <= j)%nat ->
     heap seg !! j = Some t ->
     loadTimeSegments (dict seg1) (heap seg) (dict seg) (text t) (segments t)) ->
  (forall j t, (j < length (heap seg1))%nat -> j ∉ done ->
     heap seg !! j = Some t -> segments t = []) ->
  exists seg',
    foldl expandToken (Some seg) l = Some seg'
    /\ loadedOK seg' /\ shrinkOK (heap seg')
    /\ (forall j t, j ∈ done ++ l \/ (length (heap seg1) <= j)%nat ->
          heap seg' !! j = Some t ->
          loadTimeSegments (dict seg1) (heap seg') (dict seg') (text t) (segments t)).
Proof.
  induction l as [|p l IH]; intros done seg Hnd Hl Hok Hshr Hd1 Hlen Hdone Htodo.
  - exists seg. rewrite app_nil_r. split; [done|]. split; [done|]. by split.
  - cbn [foldl].
    assert (Hp1 : (p < length (heap seg1))%nat) by (apply Hl; left).
    assert (Hpd : p ∉ done).
    { apply NoDup_app in Hnd as (_ & Hdis & _). intros Hin.
      apply (Hdis p Hin). left. }
    destruct (lookup_lt_is_Some_2 (heap seg) p ltac:(lia)) as [t0 Ht0].
    destruct (expandToken_layout (dict seg1) seg p Hok Hshr Hd1 ltac:(lia))
      as (seg2 & Hrun & Hok2 & Hshr2 & Hlen2 & Hext & Hdict & Hnew).
    rewrite Hrun.
    pose proof (expandToken_frame seg p seg2 ltac:(lia) Hrun) as Hframe.
    destruct (expandToken_segments seg p seg2 ltac:(lia) Hrun)
      as (segs & Hsegs & Hsegs2).
    destruct (IH (done ++ [p]) seg2) as (seg' & Hfold & Hok' & Hshr' & Hall);
      try done; try lia.
    + by rewrite <- app_assoc.
    + intros q Hq. apply Hl. by right.
    + by eapply dictExt_trans.
    + intros j t Hj Ht. destruct (decide (j = p)) as [->|Hne].
      * exists (heap seg), (dict seg). split; [by apply dictWF_of|]. split; [done|].
        split; [done|]. split; [done|].
        destruct (Hext _ _ Ht0) as (t' & Ht' & Htext).
        assert (t' = t) as -> by congruence.
        simpl in Hsegs2. rewrite Ht, Ht0 in Hsegs2. simpl in Hsegs2.
        rewrite (Htodo p t0) in Hsegs2 by done. simpl in Hsegs2.
        unfold textOf in Hsegs. simpl in Hsegs. rewrite Ht0 in Hsegs. simpl in Hsegs.
        by rewrite Htext, Hsegs2.
      * destruct (decide (j < length (heap seg))%nat) as [Hlt|Hge].
        -- rewrite Hframe in Ht by done.
           apply (loadTime_ext _ (heap seg) _ (dict seg)); [done|done|].
           apply (Hdone j); [|done].
           destruct Hj as [Hj|Hj]; [|by right].
           apply elem_of_app in Hj as [Hj|Hj]; [by left|].
           by apply list_elem_of_singleton in Hj.
        -- apply (Hnew j); [lia|done].
    + intros j t Hj Hnd' Ht.
      assert (j <> p) as Hne.
      { intros ->. apply Hnd'. apply elem_of_app. right. left. }
      rewrite Hframe in Ht by (done || lia).
      apply (Htodo j); [done| |done]. intros Hin. apply Hnd'.
      apply elem_of_app. by left.
    + exists seg'. rewrite <- app_assoc in Hall.
      split; [done|]. split; [done|]. by split.
Qed.

(** in the dictionary that [LoadDictionary] builds, every token has the
    segments that [segmentWords] returned for its own text when the
    token was expanded *)
Lemma LoadDictionary_layout (files : list string) :
  exists seg,
    LoadDictionary files = Some seg /\ loadedOK seg /\ shrinkOK (heap seg)
    /\ forall q t, q ∈ tokens (dict seg) -> heap seg !! q = Some t ->
         loadTimeSegments
           (dict (foldl loadFile {| heap := []; dict := NewDictionary |} files))
           (heap seg) (dict seg) (text t) (segments t).
Proof.
  set (seg1 := assignDistances
                 (foldl loadFile {| heap := []; dict := NewDictionary |} files)).
  assert (Hok1 : loadedOK seg1) by apply assignDistances_ok, readFiles_ok.
  assert (Hnil : Forall (fun t => segments t = []) (heap seg1))
    by apply assignDistances_segments, readFiles_segments.
  assert (Hs1 : shrinkOK (heap seg1)).
  { eapply Forall_impl; [exact Hnil|]. intros t ->. constructor. }
  assert (Hnd : NoDup (tokens (dict seg1))) by apply readFiles_NoDup.
  unfold LoadDictionary. fold seg1. unfold expandAll.
  destruct (expandAll_layout seg1 (tokens (dict seg1)) [] seg1)
    as (seg' & Hrun & Hok' & Hshr' & Hall); try done.
  - intros p Hp. destruct Hok1 as [_ Hstore]. by apply Hstore.
  - apply dictExt_refl.
  - intros j t [Hj|Hj] Ht; [by apply elem_of_nil in Hj|].
    apply lookup_lt_Some in Ht. lia.
  - intros j t _ _ Ht. exact (proj1 (Forall_lookup _ _) Hnil _ _ Ht).
  - exists seg'. split; [done|]. split; [done|]. split; [done|].
    intros q t Hq Ht. apply (Hall q); [|done].
    destruct Hok1 as [_ Hstore1].
    destruct (expandAll_inv seg1 seg' Hstore1 Hrun) as (_ & _ & Hw).
    destruct (Hw q Hq) as [?|(p & rest & _ & Hge & _)]; [by left|by right].
Qed.

(** C10: in a dictionary that [LoadDictionary] builds, the sub-segments
    kept in a token are what [segmentWords] returned for the text of
    that token at load time, when the loader expanded the token: in a
    store whose tokens the final store still holds with their texts, and
    with a dictionary that holds the tokens read from the files and only
    tokens of the final dictionary.  Their [start] and [end] are byte
    positions in the token's own text: they lie in order from byte 0 of
    that text, within its length, and the bytes of the text between them
    are the bytes of the sub-segment's token.  [SegmentsSpread] emits
    them as they are stored: the spread of a segment of the token found
    from byte [a] to byte [b] of an input is the spread of the stored
    sub-segments, which holds each of them unchanged and is the same for
    every [a] and [b], then the synonyms of the token with the span [a],
    [b], then the segment itself.  Only the synonym segments and the
    segment carry positions of the input. *)
Theorem C10_spread_sub_segments (files : list string) :
  exists seg : Segmenter F,
    LoadDictionary files = Some seg
    /\ forall p, p ∈ tokens (dict seg) ->
       (exists (h0 : Store F) (d0 : Dictionary),
          dictWF h0 d0 /\ textsExt h0 (heap seg)
          /\ dictExt (dict (foldl loadFile {| heap := []; dict := NewDictionary |}
                              files)) d0
          /\ dictExt d0 (dict seg)
          /\ segmentWords h0 d0 (textOf (heap seg) (Stored p)) true
             = Some (segments (deref (heap seg) (Stored p))))
       /\ inOrder 0 (segments (deref (heap seg) (Stored p)))
       /\ Forall (fun ss =>
                    end_ ss <= textSliceByteLength (textOf (heap seg) (Stored p))
                    /\ bytesBetween (textSliceToBytes (textOf (heap seg) (Stored p)))
                         (start ss) (end_ ss)
                       = textSliceToBytes (textOf (heap seg) (token ss)))
                 (segments (deref (heap seg) (Stored p)))
       /\ exists sub,
            SegmentsSpread (heap seg) (tokLen (heap seg) (Stored p) + 2)
              (segments (deref (heap seg) (Stored p))) = Some sub
            /\ segments (deref (heap seg) (Stored p)) `sublist_of` sub
            /\ forall a b : Z,
                 SegmentsSpread (heap seg) (tokLen (heap seg) (Stored p) + 3)
                   [ {| start := a; end_ := b; token := Stored p |} ]
                 = Some (sub
                         ++ map (fun r => {| start := a; end_ := b; token := r |})
                              (synonyms (deref (heap seg) (Stored p)))
                         ++ [ {| start := a; end_ := b; token := Stored p |} ]).
Proof.
  destruct (LoadDictionary_layout files) as (seg & Hload & [Hwf Hstore] & Hshrink & Hall).
  exists seg. split; [done|]. intros p Hp.
  destruct (lookup_lt_is_Some_2 (heap seg) p (Hstore p Hp)) as [t Ht].
  pose proof (Hall p t Hp Ht) as Hlt.
  assert (Hd : deref (heap seg) (Stored p) = t) by (simpl; by rewrite Ht).
  assert (Hx : textOf (heap seg) (Stored p) = text t) by (unfold textOf; by rewrite Hd).
  rewrite Hd, Hx.
  destruct (loadTime_layout _ _ _ _ _ Hlt) as [Hord Hbytes].
  split; [exact Hlt|split; [done|split; [done|]]].
  pose proof (proj1 (Forall_lookup _ _) Hshrink _ _ Ht) as Hless. simpl in Hless.
  assert (Hlen : tokLen (heap seg) (Stored p) = length (text t))
    by (unfold tokLen; by rewrite Hx).
  destruct (spread_total (heap seg) Hshrink (length (text t)) (segments t))
    as [sub Hsub].
  { eapply Forall_impl; [exact Hless|]. intros s ?. simpl in *. lia. }
  rewrite Hlen.
  replace (length (text t) + 2)%nat with (S (S (length (text t)))) by lia.
  replace (length (text t) + 3)%nat with (S (S (S (length (text t))))) by lia.
  exists sub. split; [done|]. split; [by eapply SegmentsSpread_sublist|].
  intros a b. rewrite SegmentsSpread_one. unfold synonymSegments.
  cbn [token start end_]. by rewrite Hd, Hsub.
Qed.

End LoadTimeSegments.

(** ** The white space and the sub-segments on examples *)

(** the tab of [a<TAB>b c] is an atom between the atoms of [a] and those
    of [b c] *)
Lemma C8_no_space_in_atoms_witness :
  @splitTextToWords latin1Tables (bytes "a" ++ "009"%char :: bytes "b c")
  = @splitTextToWords latin1Tables (bytes "a") ++ [["009"%char]]
    ++ @splitTextToWords latin1Tables (bytes "b c").
Proof.
  destruct (@C8_no_space_in_atoms latin1Tables
              (bytes "a" ++ "009"%char :: bytes "b c")) as (_ & _ & _ & Hcut & _).
  apply Hcut; [reflexivity|reflexivity|discriminate].
Defined.

(** the atoms of a text with a tab, a line feed and the ideographic
    space U+3000 *)
Example atoms_of_white_space :
  forall T : RangeTables,
    @splitTextToWords T (["a"; "009"; "b"; " "; "c"; "010"; "227"; "128"; "128"; "d"]%char)
    = [["a"]; ["009"]; ["b"]; ["c"]; ["010"]; ["227"; "128"; "128"]; ["d"]]%char.
Proof. intros T. by vm_compute. Qed.

Lemma C10_spread_sub_segments_witness :
  exists seg : Segmenter Z,
    @LoadDictionary Z intWeights latin1Tables [cjkFile] = Some seg
    /\ forall p, p ∈ tokens (dict seg) ->
       (exists (h0 : Store Z) (d0 : Dictionary),
          dictWF h0 d0 /\ textsExt h0 (heap seg)
          /\ dictExt (dict (foldl (@loadFile Z intWeights latin1Tables)
                              {| heap := []; dict := NewDictionary |} [cjkFile])) d0
          /\ dictExt d0 (dict seg)
          /\ segmentWords h0 d0 (textOf (heap seg) (Stored p)) true
             = Some (segments (deref (heap seg) (Stored p))))
       /\ inOrder 0 (segments (deref (heap seg) (Stored p)))
       /\ Forall (fun ss =>
                    end_ ss <= textSliceByteLength (textOf (heap seg) (Stored p))
                    /\ bytesBetween (textSliceToBytes (textOf (heap seg) (Stored p)))
                         (start ss) (end_ ss)
                       = textSliceToBytes (textOf (heap seg) (token ss)))
                 (segments (deref (heap seg) (Stored p)))
       /\ exists sub,
            SegmentsSpread (heap seg) (tokLen (heap seg) (Stored p) + 2)
              (segments (deref (heap seg) (Stored p))) = Some sub
            /\ segments (deref (heap seg) (Stored p)) `sublist_of` sub
            /\ forall a b : Z,
                 SegmentsSpread (heap seg) (tokLen (heap seg) (Stored p) + 3)
                   [ {| start := a; end_ := b; token := Stored p |} ]
                 = Some (sub
                         ++ map (fun r => {| start := a; end_ := b; token := r |})
                              (synonyms (deref (heap seg) (Stored p)))
                         ++ [ {| start := a; end_ := b; token := Stored p |} ]).
Proof.
  apply (@C10_spread_sub_segments Z intWeights intWeights_laws latin1Tables [cjkFile]).
Defined.

(** the word [中国] found at bytes 3 to 9 of an input: its sub-segments
    are emitted with the spans 0 to 3 and 3 to 6 that they have in the
    word *)
Example spread_of_a_word_behind_another :
  segments (deref (heap cjkSegmenter) (Stored 0))
  = [ {| start := 0; end_ := 3; token := Stored 2 |};
      {| start := 3; end_ := 6; token := Stored 3 |} ]
  /\ SegmentsSpread (heap cjkSegmenter) 5
       [ {| start := 3; end_ := 9; token := Stored 0 |} ]
     = Some [ {| start := 0; end_ := 3; token := Stored 2 |};
              {| start := 3; end_ := 6; token := Stored 3 |};
              {| start := 3; end_ := 9; token := Stored 0 |} ].
Proof. split; reflexivity. Qed.

(** ** Instances of the further properties

    Each property that rests on a hypothesis is applied here to data
    that meet it. *)

Lemma X5_atoms_of_valid_text_witness :
  Forall (fun w => validUTF8 w = true)
    (@splitTextToWords latin1Tables (bytes "enchanté de 中国, 2024")).
Proof.
  apply (@X5_atoms_of_valid_text latin1Tables (bytes "enchanté de 中国, 2024")).
  by vm_compute.
Defined.

Lemma X6_atoms_are_atomic_witness :
  Forall (fun w => @splitTextToWords latin1Tables w = [w])
    (@splitTextToWords latin1Tables (bytes "enchanté de 中国, 2024")).
Proof.
  apply (@X6_atoms_are_atomic latin1Tables (bytes "enchanté de 中国, 2024")).
  by vm_compute.
Defined.

Lemma X7_split_of_Join_witness :
  @splitTextToWords latin1Tables
    (bytes (@Join latin1Tables
              (@splitTextToWords latin1Tables (bytes "GitHub is web-based, 中国 2024"))))
  = @splitTextToWords latin1Tables (bytes "GitHub is web-based, 中国 2024").
Proof.
  apply (@X7_split_of_Join latin1Tables (bytes "GitHub is web-based, 中国 2024")).
  by vm_compute.
Defined.

Lemma X9_toLower_keeps_valid_witness :
  validUTF8 (toLower (bytes "Yahoo! China 中国")) = true
  /\ length (toLower (bytes "Yahoo! China 中国")) = length (bytes "Yahoo! China 中国")
  /\ toLower (toLower (bytes "Yahoo! China 中国")) = toLower (bytes "Yahoo! China 中国").
Proof.
  apply (@X9_toLower_keeps_valid latin1Tables (bytes "Yahoo! China 中国")).
  by vm_compute.
Defined.

Lemma X10_best_segmentation_witness :
  exists toks,
    segmentWords (heap abSegmenter) (dict abSegmenter)
      [bytes "a"; bytes "b"; bytes "c"] false
    = Some (filter (fun s => negb (isStop (heap abSegmenter) s))
              (spans (heap abSegmenter) toks 0))
    /\ Segmentation (heap abSegmenter) (dict abSegmenter)
         [bytes "a"; bytes "b"; bytes "c"] false 3 toks
    /\ forall toks',
         Segmentation (heap abSegmenter) (dict abSegmenter)
           [bytes "a"; bytes "b"; bytes "c"] false 3 toks' ->
         fle (pathDistance (heap abSegmenter) toks)
             (pathDistance (heap abSegmenter) toks').
Proof.
  apply (X10_best_segmentation (heap abSegmenter) (dict abSegmenter)
           [bytes "a"; bytes "b"; bytes "c"] false).
  - exact abSegmenter_wf.
  - exact abSegmenter_positive.
  - discriminate.
Defined.

Lemma X11_segment_positions_witness :
  exists segs,
    @Segment_ Z intWeights latin1Tables (heap cjkSegmenter) (dict cjkSegmenter)
      (bytes "中国 人口") = Some segs
    /\ inOrder 0 segs
    /\ Forall (fun s =>
                 bytesBetween (stripSpaces (toLower (bytes "中国 人口")))
                   (start s) (end_ s)
                 = textSliceToBytes (textOf (heap cjkSegmenter) (token s))) segs.
Proof.
  apply (@X11_segment_positions Z intWeights intWeights_laws latin1Tables
           (heap cjkSegmenter) (dict cjkSegmenter) (bytes "中国 人口")).
  exact cjkSegmenter_wf.
Defined.

Lemma X12_empty_dictionary_witness :
  @Segment_ Z intWeights latin1Tables [] NewDictionary (bytes "ab, c")
  = Some (spans (F := Z) []
            (map Synthetic (@splitTextToWords latin1Tables (bytes "ab, c"))) 0).
Proof.
  apply (@X12_empty_dictionary Z intWeights intWeights_laws latin1Tables
           [] (bytes "ab, c")).
Defined.

Lemma X13_modes_agree_witness :
  segmentWords (heap abSegmenter) (dict abSegmenter) [bytes "a"; bytes "c"] true
  = segmentWords (heap abSegmenter) (dict abSegmenter) [bytes "a"; bytes "c"] false.
Proof.
  apply (X13_modes_agree (heap abSegmenter) (dict abSegmenter) [bytes "a"; bytes "c"]).
  - each_member.
  - simpl. lia.
Defined.

Lemma X14_load_and_segment_return_witness :
  exists seg : Segmenter Z,
    @LoadDictionary Z intWeights latin1Tables [abFile] = Some seg
    /\ forall (bytes : Text) (searchMode : bool),
         exists segs,
           @internalSegment Z intWeights latin1Tables (heap seg) (dict seg)
             bytes searchMode = Some segs.
Proof.
  apply (@X14_load_and_segment_return Z intWeights intWeights_laws latin1Tables
           [abFile]).
Defined.

Lemma X15_relax_order_witness :
  minDistance (updateJumper tieStore (updateJumper tieStore newJumper 2 (Stored 0))
                 4 (Stored 1))
  = minDistance (updateJumper tieStore (updateJumper tieStore newJumper 4 (Stored 1))
                   2 (Stored 0)).
Proof.
  apply (X15_relax_order tieStore newJumper 2 4 (Stored 0) (Stored 1)); reflexivity.
Defined.

(** the token [hi world] of the synonym dictionary *)
Lemma X16_min_frequency_witness :
  minTokenFrequency <= frequency (deref (heap synonymSegmenter) (Stored 5)).
Proof.
  apply (@X16_min_frequency Z intWeights latin1Tables [synonymFile]
           synonymSegmenter 5).
  - by vm_compute.
  - apply (bool_decide_unpack _). by vm_compute.
Defined.

Lemma X17_distances_witness :
  distance (deref (heap synonymSegmenter) (Stored 5))
  = fsub (flog2 (totalFrequency (dict synonymRead)))
         (flog2 (frequency (deref (heap synonymSegmenter) (Stored 5)))).
Proof.
  apply (@X17_distances Z intWeights latin1Tables [synonymFile] synonymSegmenter 5).
  - by vm_compute.
  - apply (bool_decide_unpack _). by vm_compute.
Defined.

Lemma X18_line_of_one_field_witness :
  @loadLine Z intWeights latin1Tables abSegmenter "word" = abSegmenter.
Proof.
  apply (@X18_line_of_one_field Z intWeights latin1Tables abSegmenter "word").
  - apply (bool_decide_unpack _). by vm_compute.
  - apply (bool_decide_unpack _). by vm_compute.
Defined.

Lemma X20_entry_with_pos_witness :
  @parsePiece Z intWeights latin1Tables (Join_ (["hello"; "world"] ++ ["20"; "p1"]))
  = pieceToken
      (newToken
         (@splitTextToWords latin1Tables
            (bytes (Replace (Join_ ["hello"; "world"]) "__VERTICAL_BAR__" "|")))
         20 "p1").
Proof.
  apply (@X20_entry_with_pos Z intWeights latin1Tables ["hello"; "world"] "20" "p1" 20).
  - discriminate.
  - repeat constructor; try discriminate; apply (bool_decide_unpack _); by vm_compute.
  - reflexivity.
  - unfold minTokenFrequency. lia.
  - discriminate.
  - apply (bool_decide_unpack _). by vm_compute.
  - reflexivity.
Defined.

Lemma X21_entry_without_pos_witness :
  @parsePiece Z intWeights latin1Tables (Join_ (["hello"; "world"] ++ ["20"]))
  = pieceToken
      (newToken (@splitTextToWords latin1Tables (bytes (Join_ ["hello"; "world"])))
         20 EmptyString).
Proof.
  apply (@X21_entry_without_pos Z intWeights latin1Tables ["hello"; "world"] "20" 20).
  - discriminate.
  - repeat constructor; try discriminate; apply (bool_decide_unpack _); by vm_compute.
  - reflexivity.
  - unfold minTokenFrequency. lia.
  - reflexivity.
Defined.

Lemma X24_sub_segments_are_shorter_witness :
  exists seg : Segmenter Z,
    @LoadDictionary Z intWeights latin1Tables [synonymFile] = Some seg
    /\ forall q, q ∈ tokens (dict seg) ->
         Forall (fun s => (tokLen (heap seg) (token s)
                           < tokLen (heap seg) (Stored q))%nat)
                (segments (deref (heap seg) (Stored q))).
Proof.
  apply (@X24_sub_segments_are_shorter Z intWeights intWeights_laws latin1Tables
           [synonymFile]).
Defined.

Lemma X25_full_segment_returns_witness :
  exists seg : Segmenter Z,
    @LoadDictionary Z intWeights latin1Tables [cjkFile] = Some seg
    /\ forall bytes : Text,
         exists out,
           @FullSegment Z intWeights latin1Tables seg
             (length (@splitTextToWords latin1Tables bytes) + 2) bytes = Some out.
Proof.
  apply (@X25_full_segment_returns Z intWeights intWeights_laws latin1Tables [cjkFile]).
Defined.

Lemma X26_spaces_only_witness :
  @internalSegment Z intWeights latin1Tables (heap abSegmenter) (dict abSegmenter)
    (bytes "   ") true = Some [].
Proof.
  apply (@X26_spaces_only Z intWeights latin1Tables (heap abSegmenter)
           (dict abSegmenter) (bytes "   ") true).
  by repeat constructor.
Defined.

Lemma X27_full_segment_keeps_order_witness :
  exists segs,
    @Segment_ Z intWeights latin1Tables (heap cjkSegmenter) (dict cjkSegmenter)
      (bytes "中国 人口") = Some segs
    /\ segs `sublist_of`
         [ {| start := 0; end_ := 3; token := Stored 2 |};
           {| start := 3; end_ := 6; token := Stored 3 |};
           {| start := 0; end_ := 6; token := Stored 0 |};
           {| start := 0; end_ := 3; token := Synthetic (bytes "人") |};
           {| start := 3; end_ := 6; token := Synthetic (bytes "口") |};
           {| start := 6; end_ := 12; token := Stored 1 |} ].
Proof.
  apply (@X27_full_segment_keeps_order Z intWeights latin1Tables cjkSegmenter 3
           (bytes "中国 人口")).
  by vm_compute.
Defined.

Lemma X29_token_output_returns_witness :
  exists seg : Segmenter Z,
    @LoadDictionary Z intWeights latin1Tables [cjkFile] = Some seg
    /\ forall q, q ∈ tokens (dict seg) ->
         let tk := Stored q in
         let fuel := S (tokLen (heap seg) tk) in
         (exists front,
            @tokenToSlice Z intWeights latin1Tables (heap seg) fuel tk
            = Some (front ++ [@textSliceToString latin1Tables (textOf (heap seg) tk)]))
         /\ (exists front,
               @tokenToString Z intWeights latin1Tables (heap seg) fuel tk
               = Some (front ++ (@textSliceToString latin1Tables (textOf (heap seg) tk)
                                 ++ "/" ++ pos (deref (heap seg) tk) ++ " "))%string).
Proof.
  apply (@X29_token_output_returns Z intWeights intWeights_laws latin1Tables [cjkFile]).
Defined.

(** ** The embedding on the cases of the tests

    The synonym dictionary of [TestPhraseAndSynonyms], the text
    [hello hello world world], and what the test expects of
    [SegmentsToString]. *)
Example SegmentsToString_of_the_synonym_test :
  (segs ← @Segment_ Z intWeights latin1Tables (heap synonymSegmenter)
            (dict synonymSegmenter) (bytes "hello hello world world");
   Some (@SegmentsToString Z intWeights latin1Tables (heap synonymSegmenter) segs))
  = Some "hello/p2 hello world/p1 world/p3 "%string.
Proof. by vm_compute. Qed.

(** on a text that is not valid UTF-8: the three bytes of an ideogram, with a
    space behind the first, are three invalid scalars, and [Join] makes
    the ideogram of them *)
Example Join_of_invalid_atoms :
  @splitTextToWords latin1Tables ["228"; " "; "184"; "173"]%char
  = [["228"%char]; ["184"%char]; ["173"%char]]
  /\ @splitTextToWords latin1Tables
       (bytes (@Join latin1Tables
                 (@splitTextToWords latin1Tables ["228"; " "; "184"; "173"]%char)))
     = [["228"; "184"; "173"]%char].
Proof. split; by vm_compute. Qed.
